(** * Signed-URL resolution of [src/storage.ts]

    A shallow embedding of the two-tier signed-URL cache: the locator
    parser [parseR2Url], the single-key resolver [getSignedDownloadUrl] /
    [getAuthenticatedUrl], the batch resolver [getAuthenticatedUrls] and
    the attachment variant [getSignedDownloadUrlForAttachment].

    The second part adds the object store of the same module
    ([uploadFile], [deleteFile]) and the callers that hand stored URLs
    to the resolver: [getFollowers], [getFollowing], [getFeed] and
    [getLeaderboard] of the social service, [deleteLook] of the looks
    service, [getProjectAssets] and [getDownloadUrl] of the studio
    service.  A caller is modelled from the answer of its query on.

    JavaScript strings are modelled as [string] (one [ascii] per code
    unit), clock readings and expiry instants as [Z] (milliseconds), the
    process-local [Map] as a [gmap string SignedUrlCache]. *)

From Stdlib Require Import ZArith Lia Ascii String.
From stdpp Require Import base option list gmap strings pretty sorting.

Local Open Scope string_scope.
Local Open Scope Z_scope.
Local Open Scope list_scope.

(** ** String primitives used by the parser *)

Module Js.

(** [s.startsWith(p)] *)
Fixpoint startsWith (p s : string) : bool :=
  match p, s with
  | EmptyString, _ => true
  | String a p', String b s' => if decide (a = b) then startsWith p' s' else false
  | String _ _, EmptyString => false
  end.

Fixpoint drop (n : nat) (s : string) : string :=
  match n, s with
  | O, _ => s
  | S n', String _ s' => drop n' s'
  | S _, EmptyString => EmptyString
  end.

(** [s.replace(p, r)] with a string pattern: only the first occurrence
    of [p] is replaced. *)
Fixpoint replace (p r s : string) : string :=
  if startsWith p s then r +:+ drop (String.length p) s
  else match s with
       | EmptyString => EmptyString
       | String c s' => String c (replace p r s')
       end.

(** [s.split(sep)] for a one-character separator.  The accumulator
    [cur] holds the current piece in reverse. *)
Fixpoint split_go (sep : ascii) (cur : string) (s : string) : list string :=
  match s with
  | EmptyString => [String.rev cur]
  | String c s' =>
      if decide (c = sep) then String.rev cur :: split_go sep EmptyString s'
      else split_go sep (String c cur) s'
  end.

Definition split (sep : ascii) (s : string) : list string :=
  split_go sep EmptyString s.

(** [parts.join(sep)] *)
Fixpoint join (sep : string) (parts : list string) : string :=
  match parts with
  | [] => EmptyString
  | [p] => p
  | p :: rest => p +:+ sep +:+ join sep rest
  end.

(** [parts.shift()]: drops the first element when there is one. *)
Definition shift (parts : list string) : list string := tail parts.

(** The characters that [.] refuses in a regular expression without the
    [s] flag.  Of the four ECMAScript line terminators only LF and CR
    are code units below 256. *)
Definition lineTerminator (c : ascii) : bool :=
  bool_decide (c = "010"%char) || bool_decide (c = "013"%char).

Fixpoint noLineTerminator (s : string) : bool :=
  match s with
  | EmptyString => true
  | String c s' => negb (lineTerminator c) && noLineTerminator s'
  end.

(** Longest prefix without [sep], and what follows it. *)
Fixpoint span_until (sep : ascii) (s : string) : string * string :=
  match s with
  | EmptyString => (EmptyString, EmptyString)
  | String c s' =>
      if decide (c = sep) then (EmptyString, s)
      else let '(a, b) := span_until sep s' in (String c a, b)
  end.

Definition nonEmpty (s : string) : bool :=
  match s with EmptyString => false | String _ _ => true end.

End Js.

(** ** Locator parser *)

(** An attempt of [/\/file\/[^\/]+\/(.+)$/] with the match starting at the
    first character of [s]: the literal [/file/], a non-empty run of
    characters other than [/] (greedy, and the next character has to be
    [/], so the run is maximal), the [/], and then group 1, which has to
    reach the end of the input, be non-empty and hold no line terminator. *)
Definition legacy_match_here (s : string) : option string :=
  if Js.startsWith "/file/" s then
    let '(bucket, rest) := Js.span_until "/"%char (Js.drop 6 s) in
    match rest with
    | String _ key =>
        if Js.nonEmpty bucket && Js.nonEmpty key && Js.noLineTerminator key
        then Some key else None
    | EmptyString => None
    end
  else None.

(** [url.match(/\/file\/[^\/]+\/(.+)$/)]: the leftmost start position at
    which the attempt succeeds; the value is [match[1]]. *)
Fixpoint legacy_match (s : string) : option string :=
  match legacy_match_here s with
  | Some key => Some key
  | None =>
      match s with
      | EmptyString => None
      | String _ s' => legacy_match s'
      end
  end.

(** [parseR2Url]: [None] is JavaScript's [null]. *)
Definition parseR2Url (url : string) : option string :=
  if Js.startsWith "r2://" url then
    let parts := Js.split "/"%char (Js.replace "r2://" EmptyString url) in
    Some (Js.join "/" (Js.shift parts))
  else legacy_match url.

(** [!fileKey]: [null] and the empty string are both falsy. *)
Definition falsyKey (k : option string) : bool :=
  match k with
  | None => true
  | Some s => negb (Js.nonEmpty s)
  end.

(** ** Data model *)

(** [interface SignedUrlCache { url: string; expiresAt: number }] *)
Record SignedUrlCache := { url : string; expiresAt : Z }.

(** What the distributed tier can hold under a key: the object this
    module writes, or any other JSON value (for which
    [typeof v === 'object' && v.expiresAt > ...] is false). *)
Inductive RedisValue :=
| RObject (entry : SignedUrlCache)
| ROther.

(** [new GetObjectCommand({ Bucket, Key, ResponseContentDisposition })] *)
Record GetObjectCommand := {
  Bucket : string;
  Key : string;
  ResponseContentDisposition : option string;
}.

Inductive Error :=
| RedisError      (* a rejected call of the Upstash client *)
| SignerError.    (* a rejected [getSignedUrl] *)

Inductive Result (A : Type) :=
| Ok (a : A)
| Throw (e : Error).
Arguments Ok {A} a.
Arguments Throw {A} e.

(** How one call to the distributed tier goes: after [ms] milliseconds it
    answers or it rejects. *)
Inductive NetOutcome :=
| Answers (ms : N)
| Rejects (ms : N).

Inductive Tier := LocalTier | DistributedTier.

(** Calls made to the collaborators, in the order they are made.  [Serve]
    is a ghost event: it records that the URL of [entry], read from
    [tier], is handed to the caller at clock reading [at_]. *)
Inductive Event :=
| CacheGet (key : string)
| CacheSet (key : string) (entry : SignedUrlCache)
| RedisGet (key : string)
| RedisMGet (keys : list string)
| RedisSet (key : string) (entry : SignedUrlCache) (ex : Z)
| RedisPipeline (writes : list (string * SignedUrlCache * Z))
| Sign (command : GetObjectCommand) (expiresIn : Z) (at_ : Z) (outcome : Result string)
| Serve (tier : Tier) (key : string) (entry : SignedUrlCache) (at_ : Z).

(** The state the module runs in.  [redis] maps a key to its value and to
    the instant at which its TTL lapses; [net] scripts the calls to the
    distributed tier still to come (an exhausted script answers at once). *)
#[projections(primitive)]
Record World := {
  now : Z;
  signedUrlCache : gmap string SignedUrlCache;
  redis : gmap string (RedisValue * Z);
  net : list NetOutcome;
  trace : list Event;
}.

Definition SIGNED_URL_CACHE_DURATION : Z := 50 * 60 * 1000.
Definition SIGNED_URL_EXPIRY : Z := 3600.
Definition SAFETY_BUFFER_MS : Z := 5 * 60 * 1000.
(** The delay of the timer that [redis.mget] is raced against. *)
Definition MGET_DEADLINE_MS : Z := 2000.

(** [entry.expiresAt > Date.now() + SAFETY_BUFFER_MS] *)
Definition fresh (e : SignedUrlCache) (t : Z) : bool :=
  expiresAt e >? t + SAFETY_BUFFER_MS.

(** ** State and exceptions *)

Definition M (A : Type) : Type := World -> Result A * World.

Definition ret {A} (a : A) : M A := fun w => (Ok a, w).
Definition throw {A} (e : Error) : M A := fun w => (Throw e, w).
Definition bind {A B} (m : M A) (k : A -> M B) : M B :=
  fun w => match m w with
           | (Ok a, w') => k a w'
           | (Throw e, w') => (Throw e, w')
           end.
(** [try { m } catch (error) { h error }] *)
Definition try_catch {A} (m : M A) (h : Error -> M A) : M A :=
  fun w => match m w with
           | (Ok a, w') => (Ok a, w')
           | (Throw e, w') => h e w'
           end.

Notation "'let*' x ':=' m 'in' k" := (bind m (fun x => k))
  (at level 10, x name, m at level 100, k at level 200).

(** An [async] function runs synchronously up to its first [await]: it has
    then either settled or is suspended with the rest of its body. *)
Inductive Step (A : Type) :=
| Settled (a : A)
| Suspended (rest : M A).
Arguments Settled {A} a.
Arguments Suspended {A} rest.

Definition Async (A : Type) : Type := M (Step A).

(** [await f(...)]: the caller waits, so the rest runs right after the
    synchronous part. *)
Definition await {A} (p : Async A) : M A :=
  let* s := p in
  match s with
  | Settled a => ret a
  | Suspended rest => rest
  end.

(** [Promise.all(xs.map(f))]: [map] calls [f] on every element, so every
    synchronous part runs first, in index order; the suspended bodies are
    then completed, here in index order.  A rejection does not stop the
    other promises: their effects on the tiers are kept, and the caller
    goes on once all of them have settled. *)
Fixpoint start_all {A} (ps : list (Async A)) (w : World)
  : list (Result (Step A)) * World :=
  match ps with
  | [] => ([], w)
  | p :: ps' =>
      let '(s, w1) := p w in
      let '(ss, w2) := start_all ps' w1 in
      (s :: ss, w2)
  end.

Fixpoint finish_all {A} (ss : list (Result (Step A))) (w : World)
  : list (Result A) * World :=
  match ss with
  | [] => ([], w)
  | s :: ss' =>
      let '(r, w1) :=
        match s with
        | Ok (Settled a) => (Ok a, w)
        | Ok (Suspended rest) => rest w
        | Throw e => (Throw e, w)
        end in
      let '(rs, w2) := finish_all ss' w1 in
      (r :: rs, w2)
  end.

(** The value of [Promise.all]: every value, or the first rejection. *)
Fixpoint all_settled {A} (rs : list (Result A)) : Result (list A) :=
  match rs with
  | [] => Ok []
  | Ok a :: rs' =>
      match all_settled rs' with
      | Ok l => Ok (a :: l)
      | Throw e => Throw e
      end
  | Throw e :: _ => Throw e
  end.

Definition promise_all {A} (ps : list (Async A)) : M (list A) :=
  fun w =>
    let '(ss, w1) := start_all ps w in
    let '(rs, w2) := finish_all ss w1 in
    (all_settled rs, w2).

(** ** Collaborators *)

Definition set_now (t : Z) (w : World) : World :=
  {| now := t; signedUrlCache := signedUrlCache w; redis := redis w;
     net := net w; trace := trace w |}.
Definition set_cache (c : gmap string SignedUrlCache) (w : World) : World :=
  {| now := now w; signedUrlCache := c; redis := redis w;
     net := net w; trace := trace w |}.
Definition set_redis (r : gmap string (RedisValue * Z)) (w : World) : World :=
  {| now := now w; signedUrlCache := signedUrlCache w; redis := r;
     net := net w; trace := trace w |}.
Definition set_net (n : list NetOutcome) (w : World) : World :=
  {| now := now w; signedUrlCache := signedUrlCache w; redis := redis w;
     net := n; trace := trace w |}.
Definition set_trace (tr : list Event) (w : World) : World :=
  {| now := now w; signedUrlCache := signedUrlCache w; redis := redis w;
     net := net w; trace := tr |}.

(** [Date.now()] *)
Definition Date_now : M Z := fun w => (Ok (now w), w).

Definition emit (ev : Event) : M unit :=
  fun w => (Ok tt, set_trace (trace w ++ [ev]) w).

(** [signedUrlCache.get(key)] *)
Definition cache_get (key : string) : M (option SignedUrlCache) :=
  let* _ := emit (CacheGet key) in
  fun w => (Ok (signedUrlCache w !! key), w).

(** [signedUrlCache.set(key, entry)] *)
Definition cache_set (key : string) (e : SignedUrlCache) : M unit :=
  let* _ := emit (CacheSet key e) in
  fun w => (Ok tt, set_cache (<[key := e]> (signedUrlCache w)) w).

(** The next scripted outcome of a call to the distributed tier. *)
Definition net_next : M NetOutcome :=
  fun w => (Ok (hd (Answers 0) (net w)), set_net (tl (net w)) w).

(** What the store answers for [key] at instant [t]: nothing once the TTL
    has lapsed. *)
Definition redis_read (store : gmap string (RedisValue * Z)) (t : Z) (key : string)
  : option RedisValue :=
  match store !! key with
  | Some (v, deadline) => if t <? deadline then Some v else None
  | None => None
  end.

(** [SET key value EX ex] *)
Definition redis_write (key : string) (e : SignedUrlCache) (ex : Z) : M unit :=
  fun w => (Ok tt, set_redis (<[key := (RObject e, now w + ex * 1000)]> (redis w)) w).

Fixpoint redis_write_all (writes : list (string * SignedUrlCache * Z)) : M unit :=
  match writes with
  | [] => ret tt
  | (key, e, ex) :: rest => let* _ := redis_write key e ex in redis_write_all rest
  end.

(** The promise a call to the distributed tier returns: it settles to
    [outcome] after [delay] milliseconds.  The store serves a call when it
    is made; the answer travels for [delay]. *)
Record Pending (A : Type) := { delay : Z; outcome : Result A }.
Arguments delay {A} p.
Arguments outcome {A} p.

(** A call that the store serves with [served], scripted by [net]. *)
Definition redis_call {A} (ev : Event) (served : M A) : M (Pending A) :=
  let* _ := emit ev in
  let* o := net_next in
  match o with
  | Answers ms =>
      let* a := served in
      ret {| delay := Z.of_N ms; outcome := Ok a |}
  | Rejects ms => ret {| delay := Z.of_N ms; outcome := Throw RedisError |}
  end.

(** [redis.get(key)] *)
Definition redis_get (key : string) : M (Pending (option RedisValue)) :=
  redis_call (RedisGet key)
    (fun w => (Ok (redis_read (redis w) (now w) key), w)).

(** [redis.mget(...keys)] *)
Definition redis_mget (keys : list string) : M (Pending (list (option RedisValue))) :=
  redis_call (RedisMGet keys)
    (fun w => (Ok (map (redis_read (redis w) (now w)) keys), w)).

(** [redis.set(key, entry, { ex })] *)
Definition redis_set (key : string) (e : SignedUrlCache) (ex : Z) : M (Pending unit) :=
  redis_call (RedisSet key e ex) (redis_write key e ex).

(** [pipeline.exec()] of a pipeline of [set]s *)
Definition pipeline_exec (writes : list (string * SignedUrlCache * Z)) : M (Pending unit) :=
  redis_call (RedisPipeline writes) (redis_write_all writes).

(** [await p] for the promise of a call: the clock moves on to the instant
    the promise settles. *)
Definition wait {A} (p : Pending A) : M A :=
  fun w => (outcome p, set_now (now w + delay p) w).

(** [await Promise.race([p, timeoutPromise])] with
    [timeoutPromise = new Promise(resolve => setTimeout(() => resolve(null), 2000))]:
    [p] wins when it settles before the deadline, else the value is [None]
    (JavaScript's [null]) and whatever [p] settles to later is dropped. *)
Definition race_deadline {A} (p : Pending A) : M (option A) :=
  if delay p <? MGET_DEADLINE_MS then
    let* a := wait p in ret (Some a)
  else
    let* _ := wait {| delay := MGET_DEADLINE_MS; outcome := Ok tt |} in ret None.

(** [p.catch(err => logger.warn(...))] without [await]: nobody waits for
    [p] and its rejection goes to the log. *)
Definition detached {A} (p : Pending A) : M unit := ret tt.

(** ** Reading a trace *)

Definition isSign (ev : Event) : bool :=
  match ev with Sign _ _ _ _ => true | _ => false end.

(** The signer calls of a trace. *)
Definition signerCalls (tr : list Event) : list Event := List.filter isSign tr.

(** The operations on either cache tier of a trace. *)
Definition isCacheOp (ev : Event) : bool :=
  match ev with
  | Sign _ _ _ _ => false
  | _ => true
  end.

Definition cacheOps (tr : list Event) : list Event := List.filter isCacheOp tr.

(** The signer calls of a trace that are made for the object [key]. *)
Definition isSignOf (key : string) (ev : Event) : bool :=
  match ev with
  | Sign c _ _ _ => bool_decide (Key c = key)
  | _ => false
  end.

Definition signerCallsOf (key : string) (tr : list Event) : list Event :=
  List.filter (isSignOf key) tr.

(** A served URL was inside its validity window when it was checked. *)
Definition servedFresh (ev : Event) : Prop :=
  match ev with
  | Serve _ _ e t => t + SAFETY_BUFFER_MS < expiresAt e
  | _ => True
  end.

Definition answered (o : NetOutcome) : bool :=
  match o with Answers _ => true | Rejects _ => false end.

Definition delayOf (o : NetOutcome) : Z :=
  match o with Answers ms => Z.of_N ms | Rejects ms => Z.of_N ms end.


(** [`signed_url:${fileKey}`] *)
Definition redisKey (fileKey : string) : string := "signed_url:" +:+ fileKey.

(** ** A concrete environment *)

Module Demo.

(** A signer that dates the URL at the clock reading of the call, writes
    the validity into it, and has no object [missing.jpg]. *)
Definition signer (c : GetObjectCommand) (expiresIn t : Z) : Result string :=
  if decide (Key c = "missing.jpg") then Throw SignerError
  else Ok ("https://r2.example/" +:+ Key c +:+ "?X-Amz-Date=" +:+ pretty t
           +:+ "&X-Amz-Expires=" +:+ pretty expiresIn).

(** Its promise takes 40 ms to settle. *)
Definition signingTime (c : GetObjectCommand) (expiresIn t : Z) : N := 40.

Definition bucket : string := "snatch".

(** Both tiers empty, a distributed tier that answers at once. *)
Definition cold (t : Z) : World :=
  {| now := t; signedUrlCache := ∅; redis := ∅; net := []; trace := [] |}.

(** The same with a script for the distributed tier. *)
Definition scripted (t : Z) (n : list NetOutcome) : World :=
  {| now := t; signedUrlCache := ∅; redis := ∅; net := n; trace := [] |}.

Definition entry (u : string) (t : Z) : SignedUrlCache := {| url := u; expiresAt := t |}.

(** An entry of the distributed tier, written at instant 0 by another
    process. *)
Definition stored (name : string) : string * (RedisValue * Z) :=
  (redisKey name, (RObject (entry ("https://r2.example/" +:+ name +:+ "?cached") 3000000), 3300000)).

Definition refs5 : list string :=
  ["r2://snatch/k1.jpg"; "r2://snatch/k2.jpg"; "r2://snatch/k3.jpg";
   "r2://snatch/k4.jpg"; "r2://snatch/k5.jpg"].

(** Keys 1 to 3 are in the distributed tier, 4 and 5 are nowhere. *)
Definition warm3 (n : list NetOutcome) : World :=
  {| now := 1000; signedUrlCache := ∅;
     redis := list_to_map [stored "k1.jpg"; stored "k2.jpg"; stored "k3.jpg"];
     net := n; trace := [] |}.

(** Key 1 is in the local tier, keys 2 and 3 are in the distributed
    tier, 4 and 5 are nowhere. *)
Definition warm3' : World :=
  {| now := 1000;
     signedUrlCache := {[ "k1.jpg" := entry "https://r2.example/k1.jpg?cached" 3000000 ]};
     redis := list_to_map [stored "k2.jpg"; stored "k3.jpg"];
     net := []; trace := [] |}.

(** Both tiers hold for [a.jpg] an entry that reaches the end of its
    window at the very instant it is checked: the local one at 1000, the
    distributed one at 1020, when its answer is in. *)
Definition lapsing : World :=
  {| now := 1000;
     signedUrlCache := {[ "a.jpg" := entry "https://r2.example/a.jpg?local" 301000 ]};
     redis := {[ redisKey "a.jpg" :=
                   (RObject (entry "https://r2.example/a.jpg?shared" 301020), 3300000) ]};
     net := [Answers 20]; trace := [] |}.

(** The local tier holds for [a.jpg] an entry that has reached the end
    of its window, the distributed tier one that is well inside it. *)
Definition staleLocal : World :=
  {| now := 1000;
     signedUrlCache := {[ "a.jpg" := entry "https://r2.example/a.jpg?local" 301000 ]};
     redis := {[ redisKey "a.jpg" :=
                   (RObject (entry "https://r2.example/a.jpg?shared" 3000000), 3300000) ]};
     net := [Answers 20]; trace := [] |}.

End Demo.

(** ** The resolver *)

(** The double quote, for [`attachment; filename="${fileName}"`]. *)
Definition dquote : string := String (ascii_of_nat 34) EmptyString.

(** [memCached && memCached.expiresAt > Date.now() + SAFETY_BUFFER_MS] *)
Definition memFresh (memCached : option SignedUrlCache) (t : Z) : option SignedUrlCache :=
  match memCached with
  | Some e => if fresh e t then Some e else None
  | None => None
  end.

(** [cached && typeof cached === 'object' &&
     cached.expiresAt > Date.now() + SAFETY_BUFFER_MS] *)
Definition redisFresh (cached : option RedisValue) (t : Z) : option SignedUrlCache :=
  match cached with
  | Some (RObject e) => if fresh e t then Some e else None
  | Some ROther => None
  | None => None
  end.

(** A key that passes [if (!fileKey)]. *)
Definition truthy (fileKey : option string) : option string :=
  match fileKey with
  | Some k => if Js.nonEmpty k then Some k else None
  | None => None
  end.

Definition settle {A} (r : Result A) : M A :=
  match r with
  | Ok a => ret a
  | Throw e => throw e
  end.

Section Resolver.

(** [process.env.R2_BUCKET_NAME] *)
Variable R2_BUCKET_NAME : string.

(** The presigner of the AWS SDK, [getSignedUrl(client, command,
    { expiresIn })]: the URL its promise resolves to, or its rejection,
    for a command, a validity in seconds and the clock reading of the
    call.  The signature is dated no earlier than the call, so the store
    honours the URL at least until that reading plus the validity. *)
Variable getSignedUrl : GetObjectCommand -> Z -> Z -> Result string.

(** The time, in milliseconds, that the promise of such a call takes to
    settle. *)
Variable signingTime : GetObjectCommand -> Z -> Z -> N.

(** The call [getSignedUrl(...)] itself: the promise it returns. *)
Definition sign_start (command : GetObjectCommand) (expiresIn : Z) : M (Pending string) :=
  let* t := Date_now in
  let r := getSignedUrl command expiresIn t in
  let* _ := emit (Sign command expiresIn t r) in
  ret {| delay := Z.of_N (signingTime command expiresIn t); outcome := r |}.

(** [await getSignedUrl(...)] *)
Definition sign (command : GetObjectCommand) (expiresIn : Z) : M string :=
  let* signing := sign_start command expiresIn in
  wait signing.

(** [getSignedDownloadUrl] from its first [await] on (lines 164-200);
    [answer] is the promise of [redis.get(cacheKey)]. *)
Definition getSignedDownloadUrl_rest (fileKey : string)
    (answer : Pending (option RedisValue)) : M string :=
  let cacheKey := redisKey fileKey in
  try_catch
    (let* cached := wait answer in
     let* t := Date_now in
     match redisFresh cached t with
     | Some c =>
         let* _ := cache_set fileKey {| url := url c; expiresAt := expiresAt c |} in
         let* _ := emit (Serve DistributedTier fileKey c t) in
         ret (url c)
     | None =>
         let command := {| Bucket := R2_BUCKET_NAME; Key := fileKey;
                           ResponseContentDisposition := None |} in
         let* signedUrl := sign command SIGNED_URL_EXPIRY in
         let* t' := Date_now in
         let expiresAt := t' + SIGNED_URL_CACHE_DURATION in
         let* _ := cache_set fileKey {| url := signedUrl; expiresAt := expiresAt |} in
         let* written := redis_set cacheKey {| url := signedUrl; expiresAt := expiresAt |}
                           (SIGNED_URL_EXPIRY - 300) in
         let* _ := wait written in
         ret signedUrl
     end)
    (fun error => throw error).

(** [getSignedDownloadUrl] (lines 154-201): the memory check and the
    call of [redis.get] are the synchronous part. *)
Definition getSignedDownloadUrl (fileKey : string) : Async string :=
  let* memCached := cache_get fileKey in
  let* t := Date_now in
  match memFresh memCached t with
  | Some e =>
      let* _ := emit (Serve LocalTier fileKey e t) in
      ret (Settled (url e))
  | None =>
      let* answer := redis_get (redisKey fileKey) in
      ret (Suspended (getSignedDownloadUrl_rest fileKey answer))
  end.

(** [getSignedDownloadUrlForAttachment] (lines 206-223) *)
Definition getSignedDownloadUrlForAttachment (fileKey fileName : string) : M string :=
  try_catch
    (let command :=
       {| Bucket := R2_BUCKET_NAME; Key := fileKey;
          ResponseContentDisposition :=
            Some ("attachment; filename=" +:+ dquote +:+ fileName +:+ dquote) |} in
     sign command 3600)
    (fun error => throw error).

(** [getAuthenticatedUrl] (lines 243-247) *)
Definition getAuthenticatedUrl (fileUrl : string) : Async string :=
  match truthy (parseR2Url fileUrl) with
  | None => ret (Settled fileUrl)
  | Some fileKey => getSignedDownloadUrl fileKey
  end.

(** [keys.forEach((item, index) => ...)] (lines 262-273).  An index
    pushed on [missingIndices] is kept with [keys[index].key], which the
    source reads again through the index. *)
Fixpoint scanMemory (keys : list (string * option string)) (index : nat)
    (results : list string) (missingIndices : list (nat * string))
  : M (list string * list (nat * string)) :=
  match keys with
  | [] => ret (results, missingIndices)
  | (original, key) :: rest =>
      match truthy key with
      | None => scanMemory rest (S index) (<[index := original]> results) missingIndices
      | Some k =>
          let* memCached := cache_get k in
          let* t := Date_now in
          match memFresh memCached t with
          | Some e =>
              let* _ := emit (Serve LocalTier k e t) in
              scanMemory rest (S index) (<[index := url e]> results) missingIndices
          | None =>
              scanMemory rest (S index) results (missingIndices ++ [(index, k)])
          end
      end
  end.

(** [redisValues.forEach((val, i) => ...)] (lines 293-306): [mget]
    answers one value per requested key, so [val] number [i] goes with
    [missingIndices[i]]. *)
Fixpoint scanRedis (redisValues : list (option RedisValue))
    (missingIndices : list (nat * string))
    (results : list string) (stillMissingIndices : list (nat * string))
  : M (list string * list (nat * string)) :=
  match redisValues, missingIndices with
  | val :: vals, (originalIndex, k) :: rest =>
      let* t := Date_now in
      match redisFresh val t with
      | Some c =>
          let* _ := emit (Serve DistributedTier k c t) in
          let* _ := cache_set k {| url := url c; expiresAt := expiresAt c |} in
          scanRedis vals rest (<[originalIndex := url c]> results) stillMissingIndices
      | None =>
          scanRedis vals rest results (stillMissingIndices ++ [(originalIndex, k)])
      end
  | _, _ => ret (results, stillMissingIndices)
  end.

(** One callback of [stillMissingIndices.map(async (index) => ...)]
    (lines 322-337), from its [await] on; [signing] is the promise of
    [getSignedUrl].  The value carries [index], and the write
    [results[index] = signedUrl] is done by [writeSigned]. *)
Definition signOne_rest (expiresAt : Z) (m : nat * string) (signing : Pending string)
  : M (nat * string * SignedUrlCache) :=
  let* signedUrl := wait signing in
  let* _ := cache_set m.2 {| url := signedUrl; expiresAt := expiresAt |} in
  ret (m.1, m.2, {| url := signedUrl; expiresAt := expiresAt |}).

Definition signOne (expiresAt : Z) (m : nat * string)
  : Async (nat * string * SignedUrlCache) :=
  let command := {| Bucket := R2_BUCKET_NAME; Key := m.2;
                    ResponseContentDisposition := None |} in
  let* signing := sign_start command SIGNED_URL_EXPIRY in
  ret (Suspended (signOne_rest expiresAt m signing)).

Definition writeSigned (results : list string)
    (signedResults : list (nat * string * SignedUrlCache)) : list string :=
  fold_left (fun res r => <[r.1.1 := url r.2]> res) signedResults results.

(** Lines 312-353: sign what is still missing, all at once. *)
Definition signRemaining (results : list string)
    (stillMissingIndices : list (nat * string)) : M (list string) :=
  match stillMissingIndices with
  | [] => ret results
  | _ :: _ =>
      let* t := Date_now in
      let expiresAt := t + SIGNED_URL_CACHE_DURATION in
      let* signedResults := promise_all (map (signOne expiresAt) stillMissingIndices) in
      let results := writeSigned results signedResults in
      let* _ :=
        if (0 <? length signedResults)%nat then
          let* written :=
            pipeline_exec
              (map (fun r => (redisKey r.1.2, r.2, SIGNED_URL_EXPIRY - 300))
                   signedResults) in
          detached written
        else ret tt in
      ret results
  end.

(** Lines 277-310: one bulk read of the distributed tier for the keys the
    memory scan left over, raced against the deadline. *)
Definition lookupMissing (results : list string) (missingIndices : list (nat * string))
  : M (list string * list (nat * string)) :=
  let missingKeys := map (fun m => redisKey m.2) missingIndices in
  let* redisPromise := redis_mget missingKeys in
  let* redisValues := race_deadline redisPromise in
  match redisValues with
  | Some vals => scanRedis vals missingIndices results []
  | None => ret (results, missingIndices)
  end.

(** The [try] block of [getAuthenticatedUrls] (lines 257-353). *)
Definition batch_body (fileUrls : list string) : M (list string) :=
  let keys := map (fun u => (u, parseR2Url u)) fileUrls in
  let results := replicate (length fileUrls) EmptyString in
  let* scanned := scanMemory keys 0 results [] in
  match scanned.2 with
  | [] => ret scanned.1
  | _ :: _ =>
      let* scanned' := lookupMissing scanned.1 scanned.2 in
      signRemaining scanned'.1 scanned'.2
  end.

(** [getAuthenticatedUrls] (lines 252-359) *)
Definition getAuthenticatedUrls (fileUrls : list string) : M (list string) :=
  match fileUrls with
  | [] => ret []
  | _ :: _ =>
      try_catch (batch_body fileUrls)
        (fun _ => promise_all (map getAuthenticatedUrl fileUrls))
  end.

(** The three entry points as the spec names them. *)
Definition resolve (reference : string) : M string :=
  await (getAuthenticatedUrl reference).
Definition resolveBatch (references : list string) : M (list string) :=
  getAuthenticatedUrls references.
Definition resolveAttachment (fileKey fileName : string) : M string :=
  getSignedDownloadUrlForAttachment fileKey fileName.


(** Resolving the references one after another, each call awaited
    before the next is made. *)
Fixpoint sequentially (references : list string) : M (list string) :=
  match references with
  | [] => ret []
  | r :: rest =>
      let* u := resolve r in
      let* us := sequentially rest in
      ret (u :: us)
  end.

(** The world after [n] calls of [m] in a row. *)
Definition afterCalls {A} (n : nat) (m : M A) (w : World) : World :=
  Nat.iter n (fun w' => (m w').2) w.

(** * Properties *)

Ltac exec :=
  cbv [await resolve resolveAttachment getSignedDownloadUrl getSignedDownloadUrl_rest
       getAuthenticatedUrl getSignedDownloadUrlForAttachment sign sign_start settle
       redis_get redis_set redis_mget pipeline_exec redis_call redis_write
       wait race_deadline detached
       cache_get cache_set Date_now emit net_next
       set_now set_cache set_redis set_net set_trace
       bind ret throw try_catch];
  cbn [now signedUrlCache redis net trace delay outcome fst snd hd tl].

(** ** The parser *)


Lemma parse_some_nonempty ref k : parseR2Url ref = Some k -> ref <> EmptyString.
Proof. intros H ->. discriminate H. Qed.

Lemma truthy_some o k : truthy o = Some k -> o = Some k /\ k <> EmptyString.
Proof.
  destruct o as [s|]; cbn; [|discriminate].
  destruct s; cbn; [discriminate|]. intros [= <-]. split; [reflexivity|discriminate].
Qed.

Lemma memFresh_some o t e :
  memFresh o t = Some e -> o = Some e /\ t + SAFETY_BUFFER_MS < expiresAt e.
Proof.
  destruct o as [e'|]; cbn; [|discriminate]. unfold fresh.
  destruct (Z.gtb_spec (expiresAt e') (t + SAFETY_BUFFER_MS)); [|discriminate].
  intros [= <-]. split; [reflexivity|lia].
Qed.

Lemma memFresh_none o t :
  memFresh o t = None <->
  (forall e, o = Some e -> expiresAt e <= t + SAFETY_BUFFER_MS).
Proof.
  destruct o as [e'|]; cbn; unfold fresh.
  - destruct (Z.gtb_spec (expiresAt e') (t + SAFETY_BUFFER_MS)) as [Hgt|Hle]; split.
    + discriminate.
    + intros Hall. specialize (Hall e' eq_refl). lia.
    + intros _ e [= <-]. lia.
    + reflexivity.
  - split; [intros _ e; discriminate | reflexivity].
Qed.

Lemma redisFresh_some o t e :
  redisFresh o t = Some e -> o = Some (RObject e) /\ t + SAFETY_BUFFER_MS < expiresAt e.
Proof.
  destruct o as [[e'|]|]; cbn; try discriminate. unfold fresh.
  destruct (Z.gtb_spec (expiresAt e') (t + SAFETY_BUFFER_MS)); [|discriminate].
  intros [= <-]. split; [reflexivity|lia].
Qed.

Lemma redisFresh_none o t :
  redisFresh o t = None <->
  (forall e, o = Some (RObject e) -> expiresAt e <= t + SAFETY_BUFFER_MS).
Proof.
  destruct o as [[e'|]|]; cbn; unfold fresh.
  - destruct (Z.gtb_spec (expiresAt e') (t + SAFETY_BUFFER_MS)) as [Hgt|Hle]; split.
    + discriminate.
    + intros Hall. specialize (Hall e' eq_refl). lia.
    + intros _ e [= <-]. lia.
    + reflexivity.
  - split; [intros _ e; discriminate | reflexivity].
  - split; [intros _ e; discriminate | reflexivity].
Qed.

Lemma redis_read_some store t key v :
  redis_read store t key = Some v -> exists d, store !! key = Some (v, d) /\ t < d.
Proof.
  unfold redis_read. destruct (store !! key) as [[v' d]|]; [|discriminate].
  destruct (Z.ltb_spec t d); [|discriminate]. intros [= <-]. eauto.
Qed.

(** ** The single-key path, case by case *)

Definition objectCommand (fileKey : string) : GetObjectCommand :=
  {| Bucket := R2_BUCKET_NAME; Key := fileKey; ResponseContentDisposition := None |}.

(** The time the signer takes for the object [k] when called at [t]. *)
Definition signingTimeOf (k : string) (t : Z) : Z :=
  Z.of_N (signingTime (objectCommand k) SIGNED_URL_EXPIRY t).

(** Served from the local tier. *)
Lemma key_local k w e :
  memFresh (signedUrlCache w !! k) (now w) = Some e ->
  await (getSignedDownloadUrl k) w
  = (Ok (url e), set_trace (trace w ++ [CacheGet k; Serve LocalTier k e (now w)]) w).
Proof. intros H. exec. rewrite H. exec. rewrite <- app_assoc. reflexivity. Qed.

(** [redis.get] rejects. *)
Lemma key_get_rejected k w ms :
  memFresh (signedUrlCache w !! k) (now w) = None ->
  hd (Answers 0) (net w) = Rejects ms ->
  await (getSignedDownloadUrl k) w
  = (Throw RedisError,
     {| now := now w + Z.of_N ms; signedUrlCache := signedUrlCache w; redis := redis w;
        net := tl (net w); trace := trace w ++ [CacheGet k; RedisGet (redisKey k)] |}).
Proof.
  intros H Hn. exec. rewrite H. exec. rewrite Hn. exec.
  rewrite <- app_assoc. reflexivity.
Qed.

(** Served from the distributed tier. *)
Lemma key_distributed k w ms c :
  memFresh (signedUrlCache w !! k) (now w) = None ->
  hd (Answers 0) (net w) = Answers ms ->
  redisFresh (redis_read (redis w) (now w) (redisKey k)) (now w + Z.of_N ms) = Some c ->
  await (getSignedDownloadUrl k) w
  = (Ok (url c),
     {| now := now w + Z.of_N ms;
        signedUrlCache := <[k := {| url := url c; expiresAt := expiresAt c |}]> (signedUrlCache w);
        redis := redis w; net := tl (net w);
        trace := trace w ++ [CacheGet k; RedisGet (redisKey k);
                             CacheSet k {| url := url c; expiresAt := expiresAt c |};
                             Serve DistributedTier k c (now w + Z.of_N ms)] |}).
Proof.
  intros H Hn Hr. exec. rewrite H. exec. rewrite Hn. exec. rewrite Hr. exec.
  rewrite <- !app_assoc. reflexivity.
Qed.

(** Neither tier serves and the signer rejects. *)
Lemma key_signer_rejected k w ms err :
  memFresh (signedUrlCache w !! k) (now w) = None ->
  hd (Answers 0) (net w) = Answers ms ->
  redisFresh (redis_read (redis w) (now w) (redisKey k)) (now w + Z.of_N ms) = None ->
  getSignedUrl (objectCommand k) SIGNED_URL_EXPIRY (now w + Z.of_N ms) = Throw err ->
  await (getSignedDownloadUrl k) w
  = (Throw err,
     {| now := now w + Z.of_N ms + signingTimeOf k (now w + Z.of_N ms);
        signedUrlCache := signedUrlCache w;
        redis := redis w; net := tl (net w);
        trace := trace w ++ [CacheGet k; RedisGet (redisKey k);
                             Sign (objectCommand k) SIGNED_URL_EXPIRY (now w + Z.of_N ms)
                                  (Throw err)] |}).
Proof.
  intros H Hn Hr Hs. unfold signingTimeOf, objectCommand in *. exec. rewrite H. exec. rewrite Hn. exec.
  rewrite Hr. exec. rewrite Hs. exec. rewrite <- !app_assoc. reflexivity.
Qed.

(** Neither tier serves, the signer answers, [redis.set] answers.  The
    expiry is reckoned from the clock reading [t'] at which the signer's
    promise has settled. *)
Lemma key_signed k w ms u ms' :
  memFresh (signedUrlCache w !! k) (now w) = None ->
  hd (Answers 0) (net w) = Answers ms ->
  redisFresh (redis_read (redis w) (now w) (redisKey k)) (now w + Z.of_N ms) = None ->
  getSignedUrl (objectCommand k) SIGNED_URL_EXPIRY (now w + Z.of_N ms) = Ok u ->
  hd (Answers 0) (tl (net w)) = Answers ms' ->
  let t := now w + Z.of_N ms in
  let t' := t + signingTimeOf k t in
  let e := {| url := u; expiresAt := t' + SIGNED_URL_CACHE_DURATION |} in
  await (getSignedDownloadUrl k) w
  = (Ok u,
     {| now := t' + Z.of_N ms';
        signedUrlCache := <[k := e]> (signedUrlCache w);
        redis := <[redisKey k := (RObject e, t' + (SIGNED_URL_EXPIRY - 300) * 1000)]> (redis w);
        net := tl (tl (net w));
        trace := trace w ++ [CacheGet k; RedisGet (redisKey k);
                             Sign (objectCommand k) SIGNED_URL_EXPIRY t (Ok u);
                             CacheSet k e;
                             RedisSet (redisKey k) e (SIGNED_URL_EXPIRY - 300)] |}).
Proof.
  intros H Hn Hr Hs Hn' t t' e. unfold signingTimeOf, objectCommand in *. exec. rewrite H. exec. rewrite Hn. exec.
  rewrite Hr. exec. rewrite Hs. exec. rewrite Hn'. exec.
  rewrite <- !app_assoc. reflexivity.
Qed.

(** Neither tier serves, the signer answers, [redis.set] rejects. *)
Lemma key_set_rejected k w ms u ms' :
  memFresh (signedUrlCache w !! k) (now w) = None ->
  hd (Answers 0) (net w) = Answers ms ->
  redisFresh (redis_read (redis w) (now w) (redisKey k)) (now w + Z.of_N ms) = None ->
  getSignedUrl (objectCommand k) SIGNED_URL_EXPIRY (now w + Z.of_N ms) = Ok u ->
  hd (Answers 0) (tl (net w)) = Rejects ms' ->
  let t := now w + Z.of_N ms in
  let t' := t + signingTimeOf k t in
  let e := {| url := u; expiresAt := t' + SIGNED_URL_CACHE_DURATION |} in
  await (getSignedDownloadUrl k) w
  = (Throw RedisError,
     {| now := t' + Z.of_N ms';
        signedUrlCache := <[k := e]> (signedUrlCache w);
        redis := redis w;
        net := tl (tl (net w));
        trace := trace w ++ [CacheGet k; RedisGet (redisKey k);
                             Sign (objectCommand k) SIGNED_URL_EXPIRY t (Ok u);
                             CacheSet k e;
                             RedisSet (redisKey k) e (SIGNED_URL_EXPIRY - 300)] |}).
Proof.
  intros H Hn Hr Hs Hn' t t' e. unfold signingTimeOf, objectCommand in *. exec. rewrite H. exec. rewrite Hn. exec.
  rewrite Hr. exec. rewrite Hs. exec. rewrite Hn'. exec.
  rewrite <- !app_assoc. reflexivity.
Qed.

Lemma resolve_opaque ref w :
  truthy (parseR2Url ref) = None -> resolve ref w = (Ok ref, w).
Proof. intros H. exec. rewrite H. reflexivity. Qed.

Lemma resolve_key ref k w :
  truthy (parseR2Url ref) = Some k -> resolve ref w = await (getSignedDownloadUrl k) w.
Proof. intros H. unfold resolve, getAuthenticatedUrl. rewrite H. reflexivity. Qed.

Ltac key_split k w :=
  let Hmem := fresh "Hmem" in
  let Hget := fresh "Hget" in
  let Hred := fresh "Hred" in
  let Hsig := fresh "Hsig" in
  let Hset := fresh "Hset" in
  let ms := fresh "ms" in
  let ms' := fresh "ms'" in
  destruct (memFresh (signedUrlCache w !! k) (now w)) as [?e|] eqn:Hmem;
  [ rewrite (key_local k w _ Hmem) in *
  | destruct (hd (Answers 0) (net w)) as [ms|ms] eqn:Hget;
    [ destruct (redisFresh (redis_read (redis w) (now w) (redisKey k))
                           (now w + Z.of_N ms)) as [?c|] eqn:Hred;
      [ rewrite (key_distributed k w _ _ Hmem Hget Hred) in *
      | destruct (getSignedUrl (objectCommand k) SIGNED_URL_EXPIRY (now w + Z.of_N ms))
          as [?u|?err] eqn:Hsig;
        [ destruct (hd (Answers 0) (tl (net w))) as [ms'|ms'] eqn:Hset;
          [ rewrite (key_signed k w _ _ _ Hmem Hget Hred Hsig Hset) in *
          | rewrite (key_set_rejected k w _ _ _ Hmem Hget Hred Hsig Hset) in * ]
        | rewrite (key_signer_rejected k w _ _ Hmem Hget Hred Hsig) in * ] ]
    | rewrite (key_get_rejected k w _ Hmem Hget) in * ] ].

Lemma fresh_lt e t : fresh e t = true <-> t + SAFETY_BUFFER_MS < expiresAt e.
Proof. unfold fresh. rewrite Z.gtb_lt. lia. Qed.

Lemma memFresh_intro (c : gmap string SignedUrlCache) (k : string) e t :
  c !! k = Some e -> t + SAFETY_BUFFER_MS < expiresAt e -> memFresh (c !! k) t = Some e.
Proof.
  intros -> Hlt. cbn. apply fresh_lt in Hlt. rewrite Hlt. reflexivity.
Qed.

(** ** The attachment variant *)

Definition attachmentCommand (fileKey fileName : string) : GetObjectCommand :=
  {| Bucket := R2_BUCKET_NAME; Key := fileKey;
     ResponseContentDisposition :=
       Some ("attachment; filename=" +:+ dquote +:+ fileName +:+ dquote) |}.

Lemma attachment_run fileKey fileName w :
  let command := attachmentCommand fileKey fileName in
  let r := getSignedUrl command 3600 (now w) in
  resolveAttachment fileKey fileName w
  = (r, set_now (now w + Z.of_N (signingTime command 3600 (now w)))
          (set_trace (trace w ++ [Sign command 3600 (now w) r]) w)).
Proof.
  intros command r. subst r command. unfold attachmentCommand. exec.
  destruct (getSignedUrl _ _ _); reflexivity.
Qed.

Lemma cacheOps_app tr tr' : cacheOps (tr ++ tr') = cacheOps tr ++ cacheOps tr'.
Proof. apply List.filter_app. Qed.

Lemma signerCalls_app tr tr' : signerCalls (tr ++ tr') = signerCalls tr ++ signerCalls tr'.
Proof. apply List.filter_app. Qed.

(** The clock reading after [n] calls for [command] in a row from [t],
    each taking the time the signer takes. *)
Definition attachmentClock (command : GetObjectCommand) (n : nat) (t : Z) : Z :=
  Nat.iter n (fun t' => t' + Z.of_N (signingTime command 3600 t')) t.

(** The signer calls of these [n] calls, each at the clock reading the
    call before it has left. *)
Fixpoint attachmentCalls (command : GetObjectCommand) (n : nat) (t : Z) : list Event :=
  match n with
  | O => []
  | S n' =>
      attachmentCalls command n' t
      ++ [Sign command 3600 (attachmentClock command n' t)
               (getSignedUrl command 3600 (attachmentClock command n' t))]
  end.

Lemma attachmentCalls_signer command n t :
  length (attachmentCalls command n t) = n
  /\ signerCalls (attachmentCalls command n t) = attachmentCalls command n t
  /\ cacheOps (attachmentCalls command n t) = [].
Proof.
  induction n as [|n (Hlen & Hs & Hc)]; [repeat split; reflexivity|].
  cbn [attachmentCalls]. rewrite length_app, signerCalls_app, cacheOps_app, Hlen, Hs, Hc.
  cbn. split; [lia|]. split; reflexivity.
Qed.

(** C9: the attachment variant goes straight to the signer.  A call
    yields what the signer yields and changes nothing in the world but
    the clock, which moves on by the time the signer takes, and the
    trace, to which it adds its one signer call; so after any number of
    calls for the same key both tiers hold what they held, the trace has
    gained one signer call per call and nothing else, and no read or
    write of either tier has been made. *)
Theorem attachment_bypasses_both_tiers (fileKey fileName : string) (n : nat) (w : World) :
  let command := attachmentCommand fileKey fileName in
  let r := getSignedUrl command 3600 (now w) in
  let w' := afterCalls n (resolveAttachment fileKey fileName) w in
  let calls := attachmentCalls command n (now w) in
  resolveAttachment fileKey fileName w
    = (r, set_now (now w + Z.of_N (signingTime command 3600 (now w)))
            (set_trace (trace w ++ [Sign command 3600 (now w) r]) w))
  /\ signedUrlCache w' = signedUrlCache w
  /\ redis w' = redis w
  /\ net w' = net w
  /\ now w' = attachmentClock command n (now w)
  /\ trace w' = trace w ++ calls
  /\ length calls = n
  /\ signerCalls calls = calls
  /\ cacheOps (trace w') = cacheOps (trace w).
Proof.
  intros command r w' calls. split; [apply attachment_run|].
  destruct (attachmentCalls_signer command n (now w)) as (Hlen & Hsig & Hops).
  assert (Hw : signedUrlCache w' = signedUrlCache w /\ redis w' = redis w /\ net w' = net w
               /\ now w' = attachmentClock command n (now w) /\ trace w' = trace w ++ calls).
  { subst w' calls. clear Hlen Hsig Hops. induction n as [|n IH].
    - cbn. rewrite app_nil_r. repeat split; reflexivity.
    - unfold afterCalls, attachmentClock in *. rewrite !Nat.iter_succ.
      set (wn := Nat.iter n _ w) in *. destruct IH as (Hc & Hr & Hn & Ht & Htr).
      rewrite attachment_run. cbn [snd set_now set_trace now signedUrlCache redis net trace].
      fold command. rewrite Ht, Htr. cbn [attachmentCalls]. unfold attachmentClock.
      rewrite <- app_assoc. repeat split; assumption. }
  destruct Hw as (Hc & Hr & Hn & Ht & Htr).
  repeat split; try assumption.
  rewrite Htr, cacheOps_app. fold calls in Hops. rewrite Hops. apply app_nil_r.
Qed.

(** ** Two calls in a row *)


(** ** Unrecognized references and recognized ones *)










(** ** The batch path, phase by phase *)

(** What the memory scan writes for a reference: the reference itself when
    it has no key, the local URL when the local tier serves; nothing when
    the key has to be looked up. *)
Definition localValue (c : gmap string SignedUrlCache) (t : Z) (u : string) : option string :=
  match truthy (parseR2Url u) with
  | None => Some u
  | Some k =>
      match memFresh (c !! k) t with
      | Some e => Some (url e)
      | None => None
      end
  end.

(** The key of a reference that the memory scan leaves to be looked up. *)
Definition needsLookup (c : gmap string SignedUrlCache) (t : Z) (u : string) : option string :=
  match truthy (parseR2Url u) with
  | None => None
  | Some k =>
      match memFresh (c !! k) t with
      | Some _ => None
      | None => Some k
      end
  end.

Fixpoint memResults (c : gmap string SignedUrlCache) (t : Z) (refs : list string)
    (index : nat) (results : list string) : list string :=
  match refs with
  | [] => results
  | u :: rest =>
      memResults c t rest (S index)
        (match localValue c t u with
         | Some v => <[index := v]> results
         | None => results
         end)
  end.

Fixpoint memMissing (c : gmap string SignedUrlCache) (t : Z) (refs : list string)
    (index : nat) : list (nat * string) :=
  match refs with
  | [] => []
  | u :: rest =>
      match needsLookup c t u with
      | Some k => [(index, k)]
      | None => []
      end ++ memMissing c t rest (S index)
  end.

Definition memEventsOf (c : gmap string SignedUrlCache) (t : Z) (u : string) : list Event :=
  match truthy (parseR2Url u) with
  | None => []
  | Some k =>
      CacheGet k ::
      match memFresh (c !! k) t with
      | Some e => [Serve LocalTier k e t]
      | None => []
      end
  end.

Lemma scanMemory_run refs : forall index results missing w,
  scanMemory (map (fun u => (u, parseR2Url u)) refs) index results missing w
  = (Ok (memResults (signedUrlCache w) (now w) refs index results,
         missing ++ memMissing (signedUrlCache w) (now w) refs index),
     set_trace (trace w ++ flat_map (memEventsOf (signedUrlCache w) (now w)) refs) w).
Proof.
  induction refs as [|u refs IH]; intros index results missing w.
  - cbn. rewrite !app_nil_r. reflexivity.
  - cbn [map scanMemory memResults memMissing flat_map].
    unfold localValue, needsLookup, memEventsOf.
    destruct (truthy (parseR2Url u)) as [k|] eqn:Hk.
    + exec. destruct (memFresh (signedUrlCache w !! k) (now w)) as [e|] eqn:Hm.
      * exec. rewrite IH. cbn [now signedUrlCache trace set_trace].
        rewrite <- !app_assoc. reflexivity.
      * rewrite IH. cbn [now signedUrlCache trace set_trace].
        rewrite <- !app_assoc. reflexivity.
    + rewrite IH. reflexivity.
Qed.

(** What the distributed tier is seen to hold for the keys looked up, and
    what the scan of [redisValues] makes of it at clock reading [t]. *)
Fixpoint redisResults (seen : string -> option RedisValue) (t : Z)
    (missing : list (nat * string)) (results : list string) : list string :=
  match missing with
  | [] => results
  | m :: rest =>
      redisResults seen t rest
        (match redisFresh (seen m.2) t with
         | Some c => <[m.1 := url c]> results
         | None => results
         end)
  end.

Definition unserved (seen : string -> option RedisValue) (t : Z) (m : nat * string) : bool :=
  match redisFresh (seen m.2) t with
  | Some _ => false
  | None => true
  end.

Definition redisStill (seen : string -> option RedisValue) (t : Z)
    (missing : list (nat * string)) : list (nat * string) :=
  List.filter (unserved seen t) missing.

Fixpoint redisBackfill (seen : string -> option RedisValue) (t : Z)
    (missing : list (nat * string)) (c : gmap string SignedUrlCache)
  : gmap string SignedUrlCache :=
  match missing with
  | [] => c
  | m :: rest =>
      redisBackfill seen t rest
        (match redisFresh (seen m.2) t with
         | Some e => <[m.2 := {| url := url e; expiresAt := expiresAt e |}]> c
         | None => c
         end)
  end.

Definition redisEventsOf (seen : string -> option RedisValue) (t : Z) (m : nat * string)
  : list Event :=
  match redisFresh (seen m.2) t with
  | Some e => [Serve DistributedTier m.2 e t;
               CacheSet m.2 {| url := url e; expiresAt := expiresAt e |}]
  | None => []
  end.

Lemma scanRedis_run seen missing : forall results still w,
  scanRedis (map (fun m => seen m.2) missing) missing results still w
  = (Ok (redisResults seen (now w) missing results,
         still ++ redisStill seen (now w) missing),
     {| now := now w;
        signedUrlCache := redisBackfill seen (now w) missing (signedUrlCache w);
        redis := redis w; net := net w;
        trace := trace w ++ flat_map (redisEventsOf seen (now w)) missing |}).
Proof.
  induction missing as [|[i k] missing IH]; intros results still w.
  - cbn. rewrite !app_nil_r. reflexivity.
  - cbn [map scanRedis redisResults redisStill List.filter redisBackfill flat_map snd fst].
    unfold redisEventsOf, unserved. cbn [snd fst]. exec.
    destruct (redisFresh (seen k) (now w)) as [c|] eqn:Hc.
    + exec. rewrite IH. cbn [now signedUrlCache redis net trace].
      rewrite <- !app_assoc. reflexivity.
    + rewrite IH. rewrite <- !app_assoc. reflexivity.
Qed.


(** What the signer settles to for the object [k] when called at [t]. *)
Definition signedUrlOf (k : string) (t : Z) : Result string :=
  getSignedUrl (objectCommand k) SIGNED_URL_EXPIRY t.

(** The promise of the signer call made for [k] at [t]. *)
Definition signingOf (k : string) (t : Z) : Pending string :=
  {| delay := signingTimeOf k t; outcome := signedUrlOf k t |}.

(** The time by which the clock has moved on when the promises of the
    signer calls made at [t] for [still] have been awaited in turn. *)
Definition signingSpan (t : Z) (still : list (nat * string)) : Z :=
  foldr (fun m span => signingTimeOf m.2 t + span) 0 still.

Lemma signingSpan_nonneg t still : 0 <= signingSpan t still.
Proof.
  induction still as [|m still IH]; cbn [signingSpan foldr]; [lia|].
  fold (signingSpan t still). unfold signingTimeOf. lia.
Qed.

Definition urlOr (r : Result string) : string :=
  match r with
  | Ok u => u
  | Throw _ => EmptyString
  end.

Definition signedOf (ex t : Z) (m : nat * string) : Result (nat * string * SignedUrlCache) :=
  match signedUrlOf m.2 t with
  | Ok u => Ok (m.1, m.2, {| url := u; expiresAt := ex |})
  | Throw e => Throw e
  end.

Definition signedEntry (ex t : Z) (m : nat * string) : nat * string * SignedUrlCache :=
  (m.1, m.2, {| url := urlOr (signedUrlOf m.2 t); expiresAt := ex |}).

Definition signEventOf (t : Z) (m : nat * string) : Event :=
  Sign (objectCommand m.2) SIGNED_URL_EXPIRY t (signedUrlOf m.2 t).

Definition signSetEventsOf (ex t : Z) (m : nat * string) : list Event :=
  match signedUrlOf m.2 t with
  | Ok u => [CacheSet m.2 {| url := u; expiresAt := ex |}]
  | Throw _ => []
  end.

Fixpoint signBackfill (ex t : Z) (still : list (nat * string))
    (c : gmap string SignedUrlCache) : gmap string SignedUrlCache :=
  match still with
  | [] => c
  | m :: rest =>
      signBackfill ex t rest
        (match signedUrlOf m.2 t with
         | Ok u => <[m.2 := {| url := u; expiresAt := ex |}]> c
         | Throw _ => c
         end)
  end.

Lemma start_all_sign ex still : forall w,
  start_all (map (signOne ex) still) w
  = (map (fun m => Ok (Suspended (signOne_rest ex m (signingOf m.2 (now w))))) still,
     set_trace (trace w ++ map (signEventOf (now w)) still) w).
Proof.
  induction still as [|m still IH]; intros w.
  - cbn. rewrite app_nil_r. reflexivity.
  - cbn [map start_all]. unfold signOne at 1. exec. rewrite IH.
    cbn [now trace set_trace]. rewrite <- app_assoc. reflexivity.
Qed.

Lemma finish_all_sign ex t still : forall w,
  finish_all (map (fun m => Ok (Suspended (signOne_rest ex m (signingOf m.2 t)))) still) w
  = (map (signedOf ex t) still,
     {| now := now w + signingSpan t still;
        signedUrlCache := signBackfill ex t still (signedUrlCache w);
        redis := redis w; net := net w;
        trace := trace w ++ flat_map (signSetEventsOf ex t) still |}).
Proof.
  induction still as [|m still IH]; intros w.
  - cbn. rewrite app_nil_r, Z.add_0_r. reflexivity.
  - cbn [map finish_all signBackfill flat_map signingSpan foldr].
    unfold signOne_rest at 1, signedOf at 1, signSetEventsOf at 1, signingOf at 1.
    destruct (signedUrlOf m.2 t) as [u|err] eqn:Hu.
    + exec. rewrite IH. cbn [now signedUrlCache redis net trace].
      rewrite <- app_assoc, Z.add_assoc. reflexivity.
    + exec. rewrite IH. cbn [now signedUrlCache redis net trace].
      rewrite Z.add_assoc. reflexivity.
Qed.

Lemma promise_all_sign ex still w :
  promise_all (map (signOne ex) still) w
  = (all_settled (map (signedOf ex (now w)) still),
     {| now := now w + signingSpan (now w) still;
        signedUrlCache := signBackfill ex (now w) still (signedUrlCache w);
        redis := redis w; net := net w;
        trace := trace w ++ map (signEventOf (now w)) still
                         ++ flat_map (signSetEventsOf ex (now w)) still |}).
Proof.
  unfold promise_all. rewrite start_all_sign, finish_all_sign.
  cbn [now signedUrlCache redis net trace set_trace]. rewrite <- app_assoc. reflexivity.
Qed.

Definition signerAnswers (t : Z) (m : nat * string) : Prop :=
  exists u, signedUrlOf m.2 t = Ok u.

Lemma all_settled_sign_ok ex t still :
  Forall (signerAnswers t) still ->
  all_settled (map (signedOf ex t) still) = Ok (map (signedEntry ex t) still).
Proof.
  induction 1 as [|m still [u Hu] _ IH]; [reflexivity|].
  cbn [map all_settled]. unfold signedOf at 1, signedEntry at 1. rewrite Hu, IH. reflexivity.
Qed.

Lemma all_settled_sign_throw ex t still :
  ~ Forall (signerAnswers t) still ->
  exists err, all_settled (map (signedOf ex t) still) = Throw err.
Proof.
  induction still as [|m still IH]; intros Hnot.
  - exfalso. apply Hnot. constructor.
  - cbn [map all_settled]. unfold signedOf at 1.
    destruct (signedUrlOf m.2 t) as [u|err] eqn:Hu; [|eauto].
    destruct IH as [err Herr].
    + intros Hall. apply Hnot. constructor; [exists u; exact Hu | exact Hall].
    + rewrite Herr. eauto.
Qed.

Lemma redis_write_all_frame writes : forall w,
  (redis_write_all writes w).1 = Ok tt
  /\ now (redis_write_all writes w).2 = now w
  /\ signedUrlCache (redis_write_all writes w).2 = signedUrlCache w
  /\ net (redis_write_all writes w).2 = net w
  /\ trace (redis_write_all writes w).2 = trace w.
Proof.
  induction writes as [|[[k e] ex] writes IH]; intros w.
  - cbn. repeat split; reflexivity.
  - cbn [redis_write_all]. exec.
    specialize (IH (set_redis (<[k := (RObject e, now w + ex * 1000)]> (redis w)) w)).
    exact IH.
Qed.


Lemma bind_run {A B} (m : M A) (k : A -> M B) w a w' :
  m w = (Ok a, w') -> bind m k w = k a w'.
Proof. intros H. unfold bind. rewrite H. reflexivity. Qed.

Lemma bind_throw {A B} (m : M A) (k : A -> M B) w e w' :
  m w = (Throw e, w') -> bind m k w = (Throw e, w').
Proof. intros H. unfold bind. rewrite H. reflexivity. Qed.

Lemma signerCalls_map_sign t still :
  signerCalls (map (signEventOf t) still) = map (signEventOf t) still.
Proof.
  induction still as [|m still IH]; [reflexivity|]. cbn. unfold signerCalls in IH.
  rewrite IH. reflexivity.
Qed.

Lemma signerCalls_sets ex t still : signerCalls (flat_map (signSetEventsOf ex t) still) = [].
Proof.
  induction still as [|m still IH]; [reflexivity|]. cbn [flat_map].
  rewrite signerCalls_app, IH. unfold signSetEventsOf. destruct (signedUrlOf m.2 t); reflexivity.
Qed.

(** The bulk write that nobody waits for: it never throws and it leaves
    the clock and the local tier alone. *)
Lemma pipeline_detached_run writes w :
  exists w',
    (let* written := pipeline_exec writes in detached written) w = (Ok tt, w')
    /\ now w' = now w
    /\ signedUrlCache w' = signedUrlCache w
    /\ net w' = tl (net w)
    /\ trace w' = trace w ++ [RedisPipeline writes].
Proof.
  exec. destruct (hd (Answers 0) (net w)) as [ms|ms].
  - match goal with |- context [redis_write_all writes ?w1] =>
      destruct (redis_write_all_frame writes w1) as (Hr & Hn & Hc & Hnet & Htr);
      destruct (redis_write_all writes w1) as [r w2] end.
    cbn [fst snd] in *. subst r. exec. eexists. split; [reflexivity|].
    cbn [now signedUrlCache net trace] in *. auto.
  - exec. eexists. split; [reflexivity|]. cbn. auto.
Qed.

Lemma signRemaining_ok results still w :
  Forall (signerAnswers (now w)) still ->
  exists w' new,
    signRemaining results still w
    = (Ok (writeSigned results
             (map (signedEntry (now w + SIGNED_URL_CACHE_DURATION) (now w)) still)), w')
    /\ now w' = now w + signingSpan (now w) still
    /\ trace w' = trace w ++ new
    /\ signerCalls new = map (signEventOf (now w)) still.
Proof.
  intros Hok. destruct still as [|m still].
  - exists w, []. cbn. rewrite app_nil_r, Z.add_0_r. repeat split; reflexivity.
  - unfold signRemaining.
    rewrite (bind_run Date_now _ w (now w) w eq_refl).
    erewrite bind_run; [|rewrite promise_all_sign, (all_settled_sign_ok _ _ _ Hok); reflexivity].
    rewrite length_map. cbn [length Nat.ltb Nat.leb].
    match goal with |- context [pipeline_exec ?ws] =>
      match goal with |- context [bind _ _ ?w1] =>
        destruct (pipeline_detached_run ws w1) as (w' & Hrun & Hnow & _ & _ & Htr) end end.
    erewrite bind_run; [|exact Hrun].
    eexists w', _. split; [reflexivity|]. split; [exact Hnow|].
    split.
    + rewrite Htr. cbn [trace]. rewrite <- !app_assoc. reflexivity.
    + rewrite !signerCalls_app, signerCalls_map_sign, signerCalls_sets. cbn.
      rewrite app_nil_r. reflexivity.
Qed.

(** How the first call to the distributed tier still to come will go. *)
Definition firstOutcome (w : World) : NetOutcome := hd (Answers 0) (net w).

(** What the raced bulk read started in [w] lets the batch see under the
    key of an object: the store's answer, or nothing when the timer wins. *)
Definition seenBy (w : World) (k : string) : option RedisValue :=
  if delayOf (firstOutcome w) <? MGET_DEADLINE_MS
  then redis_read (redis w) (now w) (redisKey k)
  else None.

(** The clock reading when the race is over. *)
Definition lookupInstant (w : World) : Z :=
  if delayOf (firstOutcome w) <? MGET_DEADLINE_MS
  then now w + delayOf (firstOutcome w)
  else now w + MGET_DEADLINE_MS.

Lemma redisResults_unserved seen t missing : forall results,
  (forall k, redisFresh (seen k) t = None) ->
  redisResults seen t missing results = results.
Proof.
  induction missing as [|m missing IH]; intros results Hnone; [reflexivity|].
  cbn. rewrite Hnone. apply IH, Hnone.
Qed.

Lemma redisStill_unserved seen t missing :
  (forall k, redisFresh (seen k) t = None) -> redisStill seen t missing = missing.
Proof.
  intros Hnone. induction missing as [|m missing IH]; [reflexivity|].
  cbn. unfold unserved at 1. rewrite Hnone. f_equal. exact IH.
Qed.

Lemma redisBackfill_unserved seen t missing : forall c,
  (forall k, redisFresh (seen k) t = None) -> redisBackfill seen t missing c = c.
Proof.
  induction missing as [|m missing IH]; intros c Hnone; [reflexivity|].
  cbn. rewrite Hnone. apply IH, Hnone.
Qed.

Lemma redisEvents_unserved seen t missing :
  (forall k, redisFresh (seen k) t = None) -> flat_map (redisEventsOf seen t) missing = [].
Proof.
  intros Hnone. induction missing as [|m missing IH]; [reflexivity|].
  cbn. unfold redisEventsOf at 1. rewrite Hnone. exact IH.
Qed.

(** The bulk read when [mget] does not reject before the deadline. *)
Lemma lookupMissing_run results missing w :
  (delayOf (firstOutcome w) < MGET_DEADLINE_MS -> answered (firstOutcome w) = true) ->
  lookupMissing results missing w
  = (Ok (redisResults (seenBy w) (lookupInstant w) missing results,
         redisStill (seenBy w) (lookupInstant w) missing),
     {| now := lookupInstant w;
        signedUrlCache := redisBackfill (seenBy w) (lookupInstant w) missing (signedUrlCache w);
        redis := redis w; net := tl (net w);
        trace := trace w ++ RedisMGet (map (fun m => redisKey m.2) missing)
                         :: flat_map (redisEventsOf (seenBy w) (lookupInstant w)) missing |}).
Proof.
  intros Hans. unfold lookupMissing, seenBy, lookupInstant, firstOutcome in *.
  destruct (Z.ltb_spec (delayOf (hd (Answers 0) (net w))) MGET_DEADLINE_MS) as [Hlt|Hge].
  - specialize (Hans Hlt). destruct (hd (Answers 0) (net w)) as [ms|ms] eqn:Ho; [|discriminate].
    cbn [delayOf] in *. exec. rewrite Ho. exec.
    apply Z.ltb_lt in Hlt. rewrite Hlt. exec.
    rewrite map_map.
    rewrite (scanRedis_run (fun k => redis_read (redis w) (now w) (redisKey k))).
    cbn [now signedUrlCache redis net trace]. rewrite <- app_assoc. reflexivity.
  - assert (Hnone : forall k : string, redisFresh (@None RedisValue) (now w + MGET_DEADLINE_MS) = None)
      by reflexivity.
    rewrite (redisResults_unserved (fun _ => None) _ _ _ Hnone),
            (redisStill_unserved (fun _ => None) _ _ Hnone),
            (redisBackfill_unserved (fun _ => None) _ _ _ Hnone),
            (redisEvents_unserved (fun _ => None) _ _ Hnone).
    apply Z.ltb_ge in Hge.
    exec. destruct (hd (Answers 0) (net w)) as [ms|ms] eqn:Ho; cbn [delayOf] in *;
      exec; rewrite Hge; exec; reflexivity.
Qed.

(** The bulk read when [mget] rejects before the deadline. *)
Lemma lookupMissing_rejected results missing w ms :
  firstOutcome w = Rejects ms -> Z.of_N ms < MGET_DEADLINE_MS ->
  lookupMissing results missing w
  = (Throw RedisError,
     {| now := now w + Z.of_N ms; signedUrlCache := signedUrlCache w;
        redis := redis w; net := tl (net w);
        trace := trace w ++ [RedisMGet (map (fun m => redisKey m.2) missing)] |}).
Proof.
  unfold firstOutcome. intros Ho Hlt. unfold lookupMissing. exec. rewrite Ho. exec.
  apply Z.ltb_lt in Hlt. rewrite Hlt. exec. reflexivity.
Qed.

(** ** What the batch writes at each position *)

(** The URL the batch path settles on for a reference, given what the
    bulk read lets it see ([seen]) and the clock reading [t1] after it. *)
Definition finalValue (c : gmap string SignedUrlCache) (t0 : Z)
    (seen : string -> option RedisValue) (t1 : Z) (u : string) : string :=
  match truthy (parseR2Url u) with
  | None => u
  | Some k =>
      match memFresh (c !! k) t0 with
      | Some e => url e
      | None =>
          match redisFresh (seen k) t1 with
          | Some e => url e
          | None => urlOr (signedUrlOf k t1)
          end
      end
  end.

(** [results] holds the final URL at every position that is not pending. *)
Definition agrees (F : string -> string) (refs : list string) (pending : list nat)
    (results : list string) : Prop :=
  length results = length refs
  /\ forall i u, refs !! i = Some u -> i ∉ pending -> results !! i = Some (F u).

Lemma agrees_all F refs results : agrees F refs [] results -> results = map F refs.
Proof.
  intros [Hlen Hag]. apply list_eq. intros i. rewrite list_lookup_fmap.
  destruct (refs !! i) as [u|] eqn:Hu; cbn.
  - apply Hag; [exact Hu | apply not_elem_of_nil].
  - apply lookup_ge_None. rewrite Hlen. apply lookup_ge_None. exact Hu.
Qed.

Lemma localValue_none c t u :
  localValue c t u = None -> exists k, needsLookup c t u = Some k.
Proof.
  unfold localValue, needsLookup. destruct (truthy (parseR2Url u)) as [k|]; [|discriminate].
  destruct (memFresh (c !! k) t); [discriminate|]. eauto.
Qed.

Lemma localValue_final c t0 seen t1 u v :
  localValue c t0 u = Some v -> finalValue c t0 seen t1 u = v.
Proof.
  unfold localValue, finalValue. destruct (truthy (parseR2Url u)) as [k|]; [|congruence].
  destruct (memFresh (c !! k) t0); [congruence|discriminate].
Qed.

Lemma needsLookup_final c t0 seen t1 u k :
  needsLookup c t0 u = Some k ->
  finalValue c t0 seen t1 u
  = match redisFresh (seen k) t1 with
    | Some e => url e
    | None => urlOr (signedUrlOf k t1)
    end.
Proof.
  unfold needsLookup, finalValue. destruct (truthy (parseR2Url u)) as [k'|]; [|discriminate].
  destruct (memFresh (c !! k') t0); [discriminate|]. intros [= ->]. reflexivity.
Qed.

Lemma memResults_spec c t refs : forall index results,
  length (memResults c t refs index results) = length results
  /\ (forall i, (i < index)%nat -> memResults c t refs index results !! i = results !! i)
  /\ (forall j u v, refs !! j = Some u -> (index + j < length results)%nat ->
        localValue c t u = Some v ->
        memResults c t refs index results !! (index + j)%nat = Some v).
Proof.
  induction refs as [|u0 refs IH]; intros index results.
  - cbn. split; [reflexivity|]. split; [reflexivity|]. intros j u v Hj. discriminate Hj.
  - cbn [memResults].
    set (results' := match localValue c t u0 with
                     | Some v => <[index := v]> results
                     | None => results
                     end).
    assert (Hlen : length results' = length results).
    { subst results'. destruct (localValue c t u0); [apply length_insert|reflexivity]. }
    destruct (IH (S index) results') as (IHlen & IHlow & IHhigh).
    split; [congruence|]. split.
    + intros i Hi. rewrite IHlow by lia. subst results'.
      destruct (localValue c t u0); [|reflexivity].
      apply list_lookup_insert_ne. lia.
    + intros [|j] u v Hj Hlt Hv.
      * cbn in Hj. injection Hj as ->. rewrite Nat.add_0_r in *.
        rewrite IHlow by lia. subst results'. rewrite Hv.
        apply list_lookup_insert_eq. exact Hlt.
      * cbn in Hj. replace (index + S j)%nat with (S index + j)%nat by lia.
        eapply IHhigh; [exact Hj | lia | exact Hv].
Qed.

Lemma memMissing_sound c t refs : forall index m,
  m ∈ memMissing c t refs index ->
  exists j u, m.1 = (index + j)%nat /\ refs !! j = Some u /\ needsLookup c t u = Some m.2.
Proof.
  induction refs as [|u0 refs IH]; intros index m Hin.
  - cbn in Hin. apply elem_of_nil in Hin. contradiction.
  - cbn [memMissing] in Hin. apply elem_of_app in Hin as [Hin|Hin].
    + destruct (needsLookup c t u0) as [k|] eqn:Hk.
      * apply list_elem_of_singleton in Hin. subst m. exists 0%nat, u0. cbn.
        split; [lia|]. split; [reflexivity|exact Hk].
      * apply elem_of_nil in Hin. contradiction.
    + destruct (IH _ _ Hin) as (j & u & Hm & Hj & Hk). exists (S j), u.
      split; [lia|]. split; assumption.
Qed.

Lemma memMissing_complete c t refs : forall index j u k,
  refs !! j = Some u -> needsLookup c t u = Some k ->
  ((index + j)%nat, k) ∈ memMissing c t refs index.
Proof.
  induction refs as [|u0 refs IH]; intros index j u k Hj Hk; [discriminate Hj|].
  cbn [memMissing]. apply elem_of_app. destruct j as [|j]; cbn in Hj.
  - injection Hj as ->. left. rewrite Hk, Nat.add_0_r. apply list_elem_of_singleton. reflexivity.
  - right. replace (index + S j)%nat with (S index + j)%nat by lia. eapply IH; eassumption.
Qed.

(** An entry of [missingIndices]: the position of a reference whose key
    the memory scan left to be looked up. *)
Definition missingOk (c : gmap string SignedUrlCache) (t0 : Z) (refs : list string)
    (m : nat * string) : Prop :=
  exists u, refs !! m.1 = Some u /\ needsLookup c t0 u = Some m.2.

Lemma memMissing_ok c t0 refs : Forall (missingOk c t0 refs) (memMissing c t0 refs 0).
Proof.
  apply Forall_forall. intros m Hin.
  destruct (memMissing_sound _ _ _ _ _ Hin) as (j & u & Hm & Hj & Hk).
  exists u. rewrite Hm. split; assumption.
Qed.

Lemma memResults_agrees c t0 seen t1 refs :
  agrees (finalValue c t0 seen t1) refs (map fst (memMissing c t0 refs 0))
    (memResults c t0 refs 0 (replicate (length refs) EmptyString)).
Proof.
  destruct (memResults_spec c t0 refs 0 (replicate (length refs) EmptyString))
    as (Hlen & _ & Hhigh).
  rewrite length_replicate in *. split; [exact Hlen|].
  intros i u Hu Hpend.
  destruct (localValue c t0 u) as [v|] eqn:Hv.
  - rewrite (localValue_final _ _ seen t1 _ _ Hv).
    apply (Hhigh i u v Hu); [|exact Hv]. cbn. eapply lookup_lt_Some, Hu.
  - exfalso. apply Hpend. destruct (localValue_none _ _ _ Hv) as [k Hk].
    pose proof (memMissing_complete c t0 refs 0 i u k Hu Hk) as Hin.
    apply list_elem_of_fmap. exists (i, k). split; [reflexivity|exact Hin].
Qed.

Lemma agrees_write F refs P i rest results v :
  agrees F refs (P ++ i :: rest) results ->
  (forall u, refs !! i = Some u -> F u = v) ->
  agrees F refs (P ++ rest) (<[i := v]> results).
Proof.
  intros [Hlen Hag] Hv. split; [rewrite length_insert; exact Hlen|].
  intros j u Hu Hpend. destruct (decide (j = i)) as [->|Hne].
  - rewrite list_lookup_insert_eq.
    + f_equal. symmetry. apply Hv, Hu.
    + rewrite Hlen. eapply lookup_lt_Some, Hu.
  - rewrite list_lookup_insert_ne by congruence. apply Hag; [exact Hu|].
    intros Hin. apply Hpend. apply elem_of_app in Hin as [Hin|Hin].
    + apply elem_of_app. left. exact Hin.
    + apply elem_of_cons in Hin as [Heq|Hin]; [congruence|].
      apply elem_of_app. right. exact Hin.
Qed.

Lemma agrees_keep F refs P i rest results :
  agrees F refs (P ++ i :: rest) results -> agrees F refs ((P ++ [i]) ++ rest) results.
Proof. rewrite <- app_assoc. exact id. Qed.

Lemma redisResults_agrees c t0 seen t1 refs missing : forall results P,
  Forall (missingOk c t0 refs) missing ->
  agrees (finalValue c t0 seen t1) refs (P ++ map fst missing) results ->
  agrees (finalValue c t0 seen t1) refs (P ++ map fst (redisStill seen t1 missing))
    (redisResults seen t1 missing results).
Proof.
  induction missing as [|m missing IH]; intros results P Hok Hag; [exact Hag|].
  apply Forall_cons in Hok as [[u0 [Hu0 Hk0]] Hok].
  cbn [redisResults redisStill List.filter map] in *. unfold unserved at 1.
  destruct (redisFresh (seen m.2) t1) as [e|] eqn:He.
  - apply IH; [exact Hok|]. eapply agrees_write; [exact Hag|].
    intros u Hu. assert (Heq : Some u0 = Some u)
      by (etransitivity; [symmetry; exact Hu0 | exact Hu]).
    injection Heq as <-.
    rewrite (needsLookup_final _ _ seen t1 _ _ Hk0), He. reflexivity.
  - cbn [map]. rewrite cons_middle, app_assoc. apply IH; [exact Hok|].
    apply agrees_keep. exact Hag.
Qed.

Lemma redisStill_ok c t0 seen t1 refs missing :
  Forall (missingOk c t0 refs) missing ->
  Forall (fun m => missingOk c t0 refs m /\ redisFresh (seen m.2) t1 = None)
         (redisStill seen t1 missing).
Proof.
  intros Hok. apply Forall_forall. intros m Hin.
  apply list_elem_of_In, List.filter_In in Hin as [Hin Hun].
  rewrite Forall_forall in Hok. split.
  - apply Hok, list_elem_of_In, Hin.
  - unfold unserved in Hun. destruct (redisFresh (seen m.2) t1); [discriminate|reflexivity].
Qed.

Lemma writeSigned_agrees c t0 seen t1 ex refs still : forall results P,
  Forall (fun m => missingOk c t0 refs m /\ redisFresh (seen m.2) t1 = None) still ->
  agrees (finalValue c t0 seen t1) refs (P ++ map fst still) results ->
  agrees (finalValue c t0 seen t1) refs P
    (writeSigned results (map (signedEntry ex t1) still)).
Proof.
  induction still as [|m still IH]; intros results P Hok Hag.
  - cbn in *. rewrite app_nil_r in Hag. exact Hag.
  - apply Forall_cons in Hok as [[[u0 [Hu0 Hk0]] He] Hok].
    cbn [map writeSigned fold_left]. apply IH; [exact Hok|].
    unfold signedEntry at 2. cbn [fst snd url].
    eapply agrees_write; [exact Hag|].
    intros u Hu. assert (Heq : Some u0 = Some u)
      by (etransitivity; [symmetry; exact Hu0 | exact Hu]).
    injection Heq as <-.
    rewrite (needsLookup_final _ _ seen t1 _ _ Hk0), He. reflexivity.
Qed.

Lemma signerCalls_mem c t refs : signerCalls (flat_map (memEventsOf c t) refs) = [].
Proof.
  induction refs as [|u refs IH]; [reflexivity|]. cbn [flat_map].
  rewrite signerCalls_app, IH. unfold memEventsOf.
  destruct (truthy (parseR2Url u)); [|reflexivity]. destruct (memFresh _ _); reflexivity.
Qed.

Lemma signerCalls_redis seen t missing : signerCalls (flat_map (redisEventsOf seen t) missing) = [].
Proof.
  induction missing as [|m missing IH]; [reflexivity|]. cbn [flat_map].
  rewrite signerCalls_app, IH. unfold redisEventsOf. destruct (redisFresh _ _); reflexivity.
Qed.

Lemma signerCalls_skip ev tr : isSign ev = false -> signerCalls (ev :: tr) = signerCalls tr.
Proof. intros H. unfold signerCalls. cbn. rewrite H. reflexivity. Qed.

(** The [try] block when the bulk read does not reject before the deadline
    and the signer answers for every key still missing: position by
    position the batch yields [finalValue]; its trace starts with the
    events of the memory scan, goes on, when a key is missing, with the
    bulk read and the events of its scan; and its signer calls are the
    ones for the keys still missing, in order. *)
Lemma batch_body_run refs w :
  let c := signedUrlCache w in
  let t0 := now w in
  let missing := memMissing c t0 refs 0 in
  let t1 := lookupInstant w in
  let seen := seenBy w in
  (missing <> [] -> delayOf (firstOutcome w) < MGET_DEADLINE_MS ->
   answered (firstOutcome w) = true) ->
  Forall (signerAnswers t1) (redisStill seen t1 missing) ->
  exists w' rest,
    batch_body refs w = (Ok (map (finalValue c t0 seen t1) refs), w')
    /\ trace w' = trace w ++ flat_map (memEventsOf c t0) refs ++ rest
    /\ (missing <> [] ->
        exists rest', rest = RedisMGet (map (fun m => redisKey m.2) missing)
                             :: flat_map (redisEventsOf seen t1) missing ++ rest')
    /\ signerCalls (flat_map (memEventsOf c t0) refs ++ rest)
       = map (signEventOf t1) (redisStill seen t1 missing).
Proof.
  intros c t0 missing t1 seen Hans Hsig.
  pose proof (memResults_agrees c t0 seen t1 refs) as Hag.
  pose proof (memMissing_ok c t0 refs) as Hok.
  unfold batch_body. erewrite bind_run by apply scanMemory_run.
  cbn [fst snd]. rewrite app_nil_l. fold c t0 missing in Hag, Hok, Hsig |- *.
  destruct missing as [|m0 missing'] eqn:Hmiss.
  - eexists _, []. split; [|split; [|split]].
    + unfold ret. f_equal. f_equal. apply agrees_all. exact Hag.
    + cbn [trace set_trace]. rewrite app_nil_r. reflexivity.
    + intros Hne. congruence.
    + rewrite app_nil_r. apply signerCalls_mem.
  - set (w1 := set_trace _ w).
    assert (Hans1 : delayOf (firstOutcome w1) < MGET_DEADLINE_MS ->
                    answered (firstOutcome w1) = true) by (apply Hans; discriminate).
    erewrite bind_run by (apply lookupMissing_run; exact Hans1).
    cbn [fst snd].
    change (seenBy w1) with seen. change (lookupInstant w1) with t1.
    set (w2 := Build_World _ _ _ _ _).
    destruct (signRemaining_ok
                (redisResults seen t1 (m0 :: missing')
                   (memResults c t0 refs 0 (replicate (length refs) EmptyString)))
                (redisStill seen t1 (m0 :: missing')) w2 Hsig)
      as (w' & new & Hrun & _ & Htr & Hcalls).
    rewrite Hrun. eexists w', _. split; [|split; [|split]].
    + f_equal. f_equal. apply agrees_all.
      apply (writeSigned_agrees c t0 seen t1 _ refs _ _ []).
      * apply redisStill_ok, Hok.
      * apply (redisResults_agrees c t0 seen t1 refs _ _ []); [exact Hok|exact Hag].
    + rewrite Htr. subst w2 w1. cbn [trace set_trace]. rewrite <- !app_assoc. reflexivity.
    + intros _. exists new. reflexivity.
    + rewrite signerCalls_app, signerCalls_mem. cbn [app].
      rewrite signerCalls_skip by reflexivity.
      rewrite signerCalls_app, signerCalls_redis, Hcalls. reflexivity.
Qed.

(** The same, keeping the signer calls only. *)
Lemma batch_body_ok refs w :
  let c := signedUrlCache w in
  let t0 := now w in
  let missing := memMissing c t0 refs 0 in
  let t1 := lookupInstant w in
  let seen := seenBy w in
  (missing <> [] -> delayOf (firstOutcome w) < MGET_DEADLINE_MS ->
   answered (firstOutcome w) = true) ->
  Forall (signerAnswers t1) (redisStill seen t1 missing) ->
  exists w' new,
    batch_body refs w = (Ok (map (finalValue c t0 seen t1) refs), w')
    /\ trace w' = trace w ++ new
    /\ signerCalls new = map (signEventOf t1) (redisStill seen t1 missing).
Proof.
  intros c t0 missing t1 seen Hans Hsig.
  destruct (batch_body_run refs w Hans Hsig) as (w' & rest & Hrun & Htr & _ & Hcalls).
  exists w', (flat_map (memEventsOf c t0) refs ++ rest). auto.
Qed.

(** The key of a reference that neither tier serves: the local tier at
    [t0], what the bulk read lets see at [t1]. *)
Definition coldKey (c : gmap string SignedUrlCache) (t0 : Z)
    (seen : string -> option RedisValue) (t1 : Z) (u : string) : option string :=
  match needsLookup c t0 u with
  | Some k =>
      match redisFresh (seen k) t1 with
      | Some _ => None
      | None => Some k
      end
  | None => None
  end.

(** The keys of the positions of a batch that neither tier serves, in the
    order of the batch; a key stands once for each of its positions. *)
Definition coldKeys (c : gmap string SignedUrlCache) (t0 : Z)
    (seen : string -> option RedisValue) (t1 : Z) (refs : list string) : list string :=
  omap (coldKey c t0 seen t1) refs.

(** The signer call the batch makes for a key at [t]. *)
Definition signCall (t : Z) (k : string) : Event :=
  Sign (objectCommand k) SIGNED_URL_EXPIRY t (signedUrlOf k t).

Lemma still_coldKeys c t0 seen t1 refs : forall index,
  map snd (redisStill seen t1 (memMissing c t0 refs index)) = coldKeys c t0 seen t1 refs.
Proof.
  induction refs as [|u refs IH]; intros index; [reflexivity|].
  cbn [memMissing]. unfold redisStill, coldKeys in *. rewrite List.filter_app, map_app.
  cbn [omap list_omap]. rewrite IH. unfold coldKey at 2.
  destruct (needsLookup c t0 u) as [k|]; [|reflexivity].
  cbn [List.filter]. unfold unserved. cbn [snd].
  destruct (redisFresh (seen k) t1); reflexivity.
Qed.

Lemma signEvents_coldKeys c t0 seen t1 refs :
  map (signEventOf t1) (redisStill seen t1 (memMissing c t0 refs 0))
  = map (signCall t1) (coldKeys c t0 seen t1 refs).
Proof. rewrite <- (still_coldKeys c t0 seen t1 refs 0), map_map. reflexivity. Qed.

Lemma signerAnswers_coldKeys c t0 seen t1 refs :
  Forall (fun k => exists v, signedUrlOf k t1 = Ok v) (coldKeys c t0 seen t1 refs) ->
  Forall (signerAnswers t1) (redisStill seen t1 (memMissing c t0 refs 0)).
Proof.
  rewrite <- (still_coldKeys c t0 seen t1 refs 0), Forall_fmap. exact id.
Qed.

Lemma batch_returns refs w rs w' :
  batch_body refs w = (Ok rs, w') -> resolveBatch refs w = (Ok rs, w').
Proof.
  intros Hrun. unfold resolveBatch, getAuthenticatedUrls. destruct refs as [|u refs].
  - unfold batch_body in Hrun. cbn in Hrun. exact Hrun.
  - unfold try_catch. rewrite Hrun. reflexivity.
Qed.

Lemma signerCallsOf_map t k keys :
  signerCallsOf k (map (signCall t) keys)
  = map (signCall t) (List.filter (fun k' => bool_decide (k' = k)) keys).
Proof.
  induction keys as [|k0 keys IH]; [reflexivity|].
  cbn. unfold signerCallsOf in IH. rewrite IH.
  destruct (bool_decide (k0 = k)); reflexivity.
Qed.

Lemma signerCallsOf_app k tr tr' :
  signerCallsOf k (tr ++ tr') = signerCallsOf k tr ++ signerCallsOf k tr'.
Proof. apply List.filter_app. Qed.

Lemma signerCallsOf_signerCalls k tr : signerCallsOf k (signerCalls tr) = signerCallsOf k tr.
Proof.
  induction tr as [|ev tr IH]; [reflexivity|].
  destruct ev; cbn; try exact IH.
  unfold signerCallsOf in *. cbn. destruct (bool_decide _); [f_equal|]; exact IH.
Qed.

Lemma filter_eq_NoDup (k : string) keys :
  NoDup keys ->
  List.filter (fun k' => bool_decide (k' = k)) keys = if bool_decide (k ∈ keys) then [k] else [].
Proof.
  induction 1 as [|k0 keys Hnotin Hnd IH]; [reflexivity|].
  cbn [List.filter]. rewrite IH. destruct (decide (k0 = k)) as [->|Hne].
  - rewrite bool_decide_eq_true_2 by reflexivity.
    rewrite (bool_decide_eq_false_2 (k ∈ keys)) by exact Hnotin.
    rewrite bool_decide_eq_true_2 by (apply elem_of_cons; left; reflexivity). reflexivity.
  - rewrite (bool_decide_eq_false_2 (k0 = k)) by exact Hne.
    destruct (decide (k ∈ keys)) as [Hin|Hnin].
    + rewrite !bool_decide_eq_true_2; [reflexivity| apply elem_of_cons; right; exact Hin | exact Hin].
    + rewrite !bool_decide_eq_false_2; [reflexivity| |exact Hnin].
      intros Hc. apply elem_of_cons in Hc as [Hc|Hc]; [congruence|contradiction].
Qed.

(** ** The bulk read past its deadline *)

(** C5: when the bulk read of the distributed tier has not settled before
    the 2000 ms deadline (whether it would answer or reject later), every
    key that was looked up counts as missing, whatever the distributed
    tier holds: each one is signed afresh at the instant of the deadline,
    and, the signer answering, [resolveBatch] returns a list as long as
    its input, holding the local URL where the local tier serves, the
    signer's URL for the keys looked up and the reference itself where it
    has no key. *)
Theorem batch_survives_hanging_bulk_read (refs : list string) (w : World) :
  let c := signedUrlCache w in
  let t0 := now w in
  let t1 := now w + MGET_DEADLINE_MS in
  let unseen := fun _ : string => @None RedisValue in
  MGET_DEADLINE_MS <= delayOf (firstOutcome w) ->
  Forall (fun k => exists v, signedUrlOf k t1 = Ok v) (omap (needsLookup c t0) refs) ->
  exists w' new,
    resolveBatch refs w = (Ok (map (finalValue c t0 unseen t1) refs), w')
    /\ length (map (finalValue c t0 unseen t1) refs) = length refs
    /\ trace w' = trace w ++ new
    /\ signerCalls new = map (signCall t1) (omap (needsLookup c t0) refs).
Proof.
  intros c t0 t1 unseen Hlate Hsig.
  assert (Hcold : coldKeys c t0 unseen t1 refs = omap (needsLookup c t0) refs).
  { unfold coldKeys. clear. induction refs as [|u refs IH]; [reflexivity|].
    cbn [omap list_omap]. unfold coldKey at 1. rewrite IH.
    destruct (needsLookup c t0 u); reflexivity. }
  rewrite <- Hcold in *.
  pose proof (batch_body_ok refs w) as Hbody. cbn zeta in Hbody.
  unfold seenBy, lookupInstant in Hbody. apply Z.ltb_ge in Hlate as Hlate'.
  rewrite Hlate' in Hbody. fold c t0 t1 unseen in Hbody.
  destruct Hbody as (w' & new & Hrun & Htr & Hcalls).
  - intros _ Hlt. lia.
  - apply signerAnswers_coldKeys, Hsig.
  - exists w', new. split; [apply batch_returns, Hrun|].
    split; [apply length_map|]. split; [exact Htr|].
    rewrite Hcalls. apply signEvents_coldKeys.
Qed.

(** ** Signer calls of a batch *)

(** C6, as amended: when the bulk read answers before the deadline and the
    signer answers, [resolveBatch] makes exactly one signer call for every
    position of the batch whose key neither tier serves, in the order of
    the batch, and no other signer call; so a key that no two such
    positions share is signed exactly once, and a key that either tier
    serves is not signed. *)
Theorem batch_signs_each_cold_position_once (refs : list string) (w : World) :
  let c := signedUrlCache w in
  let t0 := now w in
  let t1 := now w + delayOf (firstOutcome w) in
  let seen := fun k => redis_read (redis w) (now w) (redisKey k) in
  let cold := coldKeys c t0 seen t1 refs in
  delayOf (firstOutcome w) < MGET_DEADLINE_MS ->
  answered (firstOutcome w) = true ->
  Forall (fun k => exists v, signedUrlOf k t1 = Ok v) cold ->
  exists rs w' new,
    resolveBatch refs w = (Ok rs, w')
    /\ length rs = length refs
    /\ trace w' = trace w ++ new
    /\ signerCalls new = map (signCall t1) cold
    /\ (NoDup cold ->
        forall k, length (signerCallsOf k new) = if bool_decide (k ∈ cold) then 1%nat else 0%nat).
Proof.
  intros c t0 t1 seen cold Hlt Hans Hsig.
  pose proof (batch_body_ok refs w) as Hbody. cbn zeta in Hbody.
  unfold seenBy, lookupInstant in Hbody. apply Z.ltb_lt in Hlt as Hlt'.
  rewrite Hlt' in Hbody. fold c t0 t1 seen in Hbody.
  destruct Hbody as (w' & new & Hrun & Htr & Hcalls).
  - intros _ _. exact Hans.
  - apply signerAnswers_coldKeys, Hsig.
  - exists (map (finalValue c t0 seen t1) refs), w', new.
    split; [apply batch_returns, Hrun|]. split; [apply length_map|].
    split; [exact Htr|]. rewrite signEvents_coldKeys in Hcalls. fold cold in Hcalls.
    split; [exact Hcalls|]. intros Hnd k.
    rewrite <- signerCallsOf_signerCalls, Hcalls, signerCallsOf_map, length_map.
    pose proof (filter_eq_NoDup k cold Hnd) as Hf. subst cold seen t1 t0 c.
    rewrite Hf. destruct (bool_decide _); reflexivity.
Qed.

(** ** The batch against the single-key resolver *)

Lemma resolve_final u w v w' :
  let c := signedUrlCache w in
  let t0 := now w in
  let t1 := now w + delayOf (firstOutcome w) in
  let seen := fun k => redis_read (redis w) (now w) (redisKey k) in
  resolve u w = (Ok v, w') ->
  v = finalValue c t0 seen t1 u
  /\ (forall k, coldKey c t0 seen t1 u = Some k -> exists x, signedUrlOf k t1 = Ok x)
  /\ (forall k, needsLookup c t0 u = Some k -> answered (firstOutcome w) = true).
Proof.
  intros c t0 t1 seen Hrun. subst c t0 t1 seen.
  unfold finalValue, coldKey, needsLookup, firstOutcome, signedUrlOf in *.
  destruct (truthy (parseR2Url u)) as [k|] eqn:Hk.
  - rewrite (resolve_key u k w Hk) in Hrun.
    key_split k w; inversion Hrun; subst; clear Hrun; cbn [delayOf answered].
    + repeat split; intros; discriminate.
    + rewrite Hred. repeat split; intros; try discriminate; reflexivity.
    + rewrite Hred, Hsig. cbn. repeat split; intros; try reflexivity.
      match goal with H : Some _ = Some _ |- _ => injection H as <- end. eauto.
  - rewrite (resolve_opaque u w Hk) in Hrun. injection Hrun as <- <-.
    repeat split; intros; discriminate.
Qed.

(** C3, as amended: take any list of references and any world in which
    the bulk read settles before its deadline and in which [resolve]
    yields a URL for every reference of the list.  Then [resolveBatch],
    run in that same world, yields a list of the same length that holds at
    each position the very URL [resolve] yields there for the reference at
    that position; a reference that the parser does not recognize stands
    unchanged at its position. *)
Theorem batch_agrees_with_single (refs : list string) (w : World) :
  delayOf (firstOutcome w) < MGET_DEADLINE_MS ->
  (forall u, u ∈ refs -> exists v w', resolve u w = (Ok v, w')) ->
  exists rs w',
    resolveBatch refs w = (Ok rs, w')
    /\ length rs = length refs
    /\ (forall i u, refs !! i = Some u ->
          exists v w'', rs !! i = Some v /\ resolve u w = (Ok v, w''))
    /\ (forall i u, refs !! i = Some u -> parseR2Url u = None -> rs !! i = Some u).
Proof.
  intros Hlt Hall.
  pose proof (batch_body_ok refs w) as Hbody. cbn zeta in Hbody.
  unfold seenBy, lookupInstant in Hbody. apply Z.ltb_lt in Hlt as Hlt'.
  rewrite Hlt' in Hbody.
  set (c := signedUrlCache w) in *. set (t0 := now w) in *.
  set (t1 := now w + delayOf (firstOutcome w)) in *.
  set (seen := fun k => redis_read (redis w) t0 (redisKey k)) in *.
  destruct Hbody as (w' & new & Hrun & _ & _).
  - intros Hne _. destruct (memMissing c t0 refs 0) as [|m rest] eqn:Hm; [congruence|].
    assert (Hin : m ∈ memMissing c t0 refs 0) by (rewrite Hm; apply elem_of_cons; auto).
    destruct (memMissing_sound _ _ _ _ _ Hin) as (j & u & _ & Hj & Hk).
    destruct (Hall u) as (v & w'' & Hres); [eapply list_elem_of_lookup_2, Hj|].
    eapply (resolve_final u w v w'' Hres), Hk.
  - apply signerAnswers_coldKeys, Forall_forall. intros k Hin.
    apply list_elem_of_omap in Hin as (u & Hu & Hk).
    destruct (Hall u Hu) as (v & w'' & Hres).
    eapply (resolve_final u w v w'' Hres), Hk.
  - exists (map (finalValue c t0 seen t1) refs), w'.
    split; [apply batch_returns, Hrun|]. split; [apply length_map|]. split.
    + intros i u Hu. destruct (Hall u) as (v & w'' & Hres); [eapply list_elem_of_lookup_2, Hu|].
      exists v, w''. split; [|exact Hres]. rewrite list_lookup_fmap, Hu. cbn.
      f_equal. symmetry. apply (resolve_final u w v w'' Hres).
    + intros i u Hu Hp. rewrite list_lookup_fmap, Hu. cbn. f_equal.
      unfold finalValue. rewrite Hp. reflexivity.
Qed.

(** ** The [try] block whenever it returns *)

Lemma signerAnswers_dec t m : {signerAnswers t m} + {~ signerAnswers t m}.
Proof.
  unfold signerAnswers. destruct (signedUrlOf m.2 t) as [u|e].
  - left. eauto.
  - right. intros [u Hu]. discriminate Hu.
Qed.

Lemma signRemaining_throws results still w :
  ~ Forall (signerAnswers (now w)) still ->
  exists e w', signRemaining results still w = (Throw e, w').
Proof.
  intros Hnot. destruct still as [|m still]; [exfalso; apply Hnot; constructor|].
  unfold signRemaining. rewrite (bind_run Date_now _ w (now w) w eq_refl).
  destruct (all_settled_sign_throw (now w + SIGNED_URL_CACHE_DURATION) (now w) _ Hnot)
    as [err Herr].
  eexists _, _. eapply bind_throw. rewrite promise_all_sign, Herr. reflexivity.
Qed.

(** Whenever the [try] block returns, the bulk read has not rejected
    before the deadline and the signer has answered for every key still
    missing: otherwise the block would have thrown. *)
Lemma batch_body_returned refs w rs w' :
  let missing := memMissing (signedUrlCache w) (now w) refs 0 in
  batch_body refs w = (Ok rs, w') ->
  (missing <> [] -> delayOf (firstOutcome w) < MGET_DEADLINE_MS ->
   answered (firstOutcome w) = true)
  /\ Forall (signerAnswers (lookupInstant w)) (redisStill (seenBy w) (lookupInstant w) missing).
Proof.
  intros missing0 Hrun. subst missing0.
  set (c := signedUrlCache w). set (t0 := now w).
  set (missing := memMissing c t0 refs 0).
  set (t1 := lookupInstant w). set (seen := seenBy w).
  destruct (decide (missing = [])) as [Hnil|Hne].
  { split; [congruence|]. rewrite Hnil. constructor. }
  assert (Hbody : batch_body refs w
    = (let* scanned' := lookupMissing (memResults c t0 refs 0 (replicate (length refs) EmptyString))
                                      missing in
       signRemaining scanned'.1 scanned'.2)
        (set_trace (trace w ++ flat_map (memEventsOf c t0) refs) w)).
  { unfold batch_body. erewrite bind_run by apply scanMemory_run.
    cbn [fst snd]. rewrite app_nil_l. fold c t0 missing.
    destruct missing; [congruence|reflexivity]. }
  set (w1 := set_trace _ w) in Hbody.
  destruct (firstOutcome w) as [ms|ms] eqn:Ho.
  - split; [reflexivity|].
    destruct (@Forall_dec _ (signerAnswers t1) (signerAnswers_dec t1) (redisStill seen t1 missing))
      as [Hsig|Hnot]; [exact Hsig|].
    exfalso. rewrite Hbody in Hrun.
    erewrite bind_run in Hrun; [|apply lookupMissing_run; intros _; exact (f_equal answered Ho)].
    cbn [fst snd] in Hrun.
    match type of Hrun with signRemaining ?r ?s ?w2 = _ =>
      destruct (signRemaining_throws r s w2 Hnot) as (e & w3 & Hthrow) end.
    rewrite Hthrow in Hrun. discriminate Hrun.
  - destruct (Z.ltb_spec (Z.of_N ms) MGET_DEADLINE_MS) as [Hlt|Hge].
    + exfalso. rewrite Hbody in Hrun.
      erewrite bind_throw in Hrun; [discriminate Hrun|].
      apply (lookupMissing_rejected _ _ w1 ms); [exact Ho|exact Hlt].
    + split; [cbn; intros; lia|].
      destruct (@Forall_dec _ (signerAnswers t1) (signerAnswers_dec t1) (redisStill seen t1 missing))
        as [Hsig|Hnot]; [exact Hsig|].
      exfalso. rewrite Hbody in Hrun.
      erewrite bind_run in Hrun;
        [|apply lookupMissing_run; change (firstOutcome w1) with (firstOutcome w);
          rewrite Ho; cbn; intros; lia].
      cbn [fst snd] in Hrun.
      match type of Hrun with signRemaining ?r ?s ?w2 = _ =>
        destruct (signRemaining_throws r s w2 Hnot) as (e & w3 & Hthrow) end.
      rewrite Hthrow in Hrun. discriminate Hrun.
Qed.

(** Whenever the [try] block returns, it returns [finalValue] position by
    position: had the bulk read rejected or a signer call failed, the
    block would have thrown. *)
Lemma batch_body_inv refs w rs w' :
  batch_body refs w = (Ok rs, w') ->
  rs = map (finalValue (signedUrlCache w) (now w) (seenBy w) (lookupInstant w)) refs.
Proof.
  intros Hrun. destruct (batch_body_returned refs w rs w' Hrun) as [Hans Hsig].
  destruct (batch_body_ok refs w Hans Hsig) as (w2 & new & Hrun2 & _).
  rewrite Hrun in Hrun2. injection Hrun2 as -> _. reflexivity.
Qed.

(** Where the URL at a position of a batch comes from when the [try]
    block returns: from the entry of the local tier, inside its window
    at the start; or from the entry the bulk read has brought, inside its
    window when the read is over; or from the signer, called when the
    read is over. *)
Lemma batch_position refs w rs w' i u k :
  batch_body refs w = (Ok rs, w') ->
  refs !! i = Some u -> truthy (parseR2Url u) = Some k ->
  (exists e, memFresh (signedUrlCache w !! k) (now w) = Some e /\ rs !! i = Some (url e))
  \/ (memFresh (signedUrlCache w !! k) (now w) = None
      /\ exists e, redisFresh (seenBy w k) (lookupInstant w) = Some e /\ rs !! i = Some (url e))
  \/ (memFresh (signedUrlCache w !! k) (now w) = None
      /\ redisFresh (seenBy w k) (lookupInstant w) = None
      /\ exists v, signedUrlOf k (lookupInstant w) = Ok v /\ rs !! i = Some v).
Proof.
  intros Hrun Hi Hk. destruct (batch_body_returned refs w rs w' Hrun) as [_ Hsig].
  apply batch_body_inv in Hrun. subst rs. rewrite list_lookup_fmap, Hi.
  cbn [fmap option_fmap option_map].
  unfold finalValue. rewrite Hk.
  destruct (memFresh (signedUrlCache w !! k) (now w)) as [e|] eqn:Hm; [left; eauto|].
  right. destruct (redisFresh (seenBy w k) (lookupInstant w)) as [e|] eqn:Hr; [left; eauto|].
  right. split; [reflexivity|]. split; [reflexivity|].
  assert (Hin : (i, k) ∈ redisStill (seenBy w) (lookupInstant w)
                          (memMissing (signedUrlCache w) (now w) refs 0)).
  { apply list_elem_of_In, List.filter_In. split.
    - apply list_elem_of_In.
      apply (memMissing_complete (signedUrlCache w) (now w) refs 0 i u k Hi).
      unfold needsLookup. rewrite Hk, Hm. reflexivity.
    - unfold unserved. cbn [snd]. rewrite Hr. reflexivity. }
  rewrite Forall_forall in Hsig. destruct (Hsig _ Hin) as [v Hv]. cbn [snd] in Hv.
  exists v. rewrite Hv. auto.
Qed.

(** In the events [new], the URL [u] is handed out for the key [k] from
    a tier, or the signer yields it for [k]. *)
Definition accountedIn (new : list Event) (k u : string) : Prop :=
  (exists tier e t, Serve tier k e t ∈ new /\ url e = u)
  \/ (exists t, Sign (objectCommand k) SIGNED_URL_EXPIRY t (Ok u) ∈ new).

(** In the events [new], the value [u] returned for the reference [ref]
    is accounted for: it is the reference itself, which has no key, or a
    URL handed out from a tier or yielded by the signer for its key. *)
Definition answeredIn (new : list Event) (ref u : string) : Prop :=
  match truthy (parseR2Url ref) with
  | None => u = ref
  | Some k => accountedIn new k u
  end.

Lemma accountedIn_mono new new' k u :
  (forall ev, ev ∈ new -> ev ∈ new') -> accountedIn new k u -> accountedIn new' k u.
Proof.
  intros Hsub [(tier & e & t & Hin & Hu)|(t & Hin)].
  - left. exists tier, e, t. split; [apply Hsub, Hin|exact Hu].
  - right. exists t. apply Hsub, Hin.
Qed.

Lemma answeredIn_mono new new' ref u :
  (forall ev, ev ∈ new -> ev ∈ new') -> answeredIn new ref u -> answeredIn new' ref u.
Proof.
  unfold answeredIn. destruct (truthy (parseR2Url ref)); [apply accountedIn_mono|auto].
Qed.

Lemma elem_of_signerCalls ev tr : ev ∈ signerCalls tr -> ev ∈ tr.
Proof. intros H. apply list_elem_of_In, List.filter_In in H as [H _]. apply list_elem_of_In, H. Qed.

(** Whenever the [try] block returns, every value it returns is
    accounted for in the events it has added. *)
Lemma batch_body_acc refs w rs w' :
  batch_body refs w = (Ok rs, w') ->
  exists new, trace w' = trace w ++ new /\ Forall2 (answeredIn new) refs rs.
Proof.
  intros Hrun. destruct (batch_body_returned refs w rs w' Hrun) as [Hans Hsig].
  destruct (batch_body_run refs w Hans Hsig) as (w2 & rest & Hrun2 & Htr & Hrest & Hcalls).
  rewrite Hrun in Hrun2. injection Hrun2 as -> <-.
  set (c := signedUrlCache w) in *. set (t0 := now w) in *.
  set (t1 := lookupInstant w) in *. set (seen := seenBy w) in *.
  set (missing := memMissing c t0 refs 0) in *.
  exists (flat_map (memEventsOf c t0) refs ++ rest). split; [exact Htr|].
  apply Forall2_fmap_r, Forall_Forall2_diag, Forall_forall. intros u Hu.
  unfold compose, answeredIn, finalValue.
  destruct (truthy (parseR2Url u)) as [k|] eqn:Hk; [|reflexivity].
  destruct (memFresh (c !! k) t0) as [e|] eqn:Hm.
  - left. exists LocalTier, e, t0. split; [|reflexivity].
    apply elem_of_app. left. apply list_elem_of_In, in_flat_map. exists u.
    split; [apply list_elem_of_In, Hu|]. unfold memEventsOf. rewrite Hk, Hm. cbn. auto.
  - apply list_elem_of_lookup in Hu as [i Hi].
    assert (Hmiss : (i, k) ∈ missing).
    { apply (memMissing_complete c t0 refs 0 i u k Hi). unfold needsLookup. rewrite Hk, Hm.
      reflexivity. }
    destruct Hrest as [rest' ->]; [intros Hnil; rewrite Hnil in Hmiss; inversion Hmiss|].
    destruct (redisFresh (seen k) t1) as [e|] eqn:Hr.
    + left. exists DistributedTier, e, t1. split; [|reflexivity].
      apply elem_of_app. right. apply elem_of_cons. right. apply elem_of_app. left.
      apply list_elem_of_In, in_flat_map. exists (i, k).
      split; [apply list_elem_of_In, Hmiss|]. unfold redisEventsOf. cbn [snd]. rewrite Hr.
      cbn. auto.
    + assert (Hstill : (i, k) ∈ redisStill seen t1 missing).
      { apply list_elem_of_In, List.filter_In. split; [apply list_elem_of_In, Hmiss|].
        unfold unserved. cbn [snd]. rewrite Hr. reflexivity. }
      rewrite Forall_forall in Hsig. destruct (Hsig _ Hstill) as [v Hv]. cbn [snd] in Hv.
      rewrite Hv. cbn [urlOr]. right. exists t1. apply elem_of_signerCalls. rewrite Hcalls.
      apply list_elem_of_fmap. exists (i, k). split; [|exact Hstill].
      unfold signEventOf. cbn [snd]. rewrite Hv. reflexivity.
Qed.

(** ** Invariants of every path *)

(** The world only moves forward: the trace is extended and the clock
    does not go back. *)
Definition ext (w w' : World) : Prop :=
  (exists new, trace w' = trace w ++ new) /\ now w <= now w'.

Lemma ext_refl w : ext w w.
Proof. split; [exists []; symmetry; apply app_nil_r | lia]. Qed.

Lemma ext_trans w1 w2 w3 : ext w1 w2 -> ext w2 w3 -> ext w1 w3.
Proof.
  intros [[n1 H1] L1] [[n2 H2] L2]. split; [|lia].
  exists (n1 ++ n2). rewrite H2, H1, app_assoc. reflexivity.
Qed.

Section Invariants.

(** [good tr e]: the entry [e] is vouched for by the trace [tr].  It is
    kept when the trace grows, and a URL that the signer has just yielded
    is vouched for with the expiry the code records for it: the cache
    duration added to a clock reading between the call of the signer
    (the batch reads the clock before it calls) and the settling of its
    promise (the single-key resolver reads it after). *)
Variable good : list Event -> SignedUrlCache -> Prop.
Hypothesis good_mono : forall tr tr' e, good tr e -> good (tr ++ tr') e.
Hypothesis good_signed : forall tr cmd ts u x,
  ts + SIGNED_URL_CACHE_DURATION <= x
    <= ts + Z.of_N (signingTime cmd SIGNED_URL_EXPIRY ts) + SIGNED_URL_CACHE_DURATION ->
  good (tr ++ [Sign cmd SIGNED_URL_EXPIRY ts (Ok u)]) {| url := u; expiresAt := x |}.

(** The trace before the calls under observation. *)
Variable old : list Event.

Definition servedGood (tr : list Event) (ev : Event) : Prop :=
  match ev with
  | Serve _ _ e t => good tr e /\ t + SAFETY_BUFFER_MS < expiresAt e
  | _ => True
  end.

(** Both tiers hold vouched entries only, and every URL served since
    [old] was vouched for and inside its window when it was checked. *)
Record Inv (w : World) : Prop := {
  inv_cache : forall k e, signedUrlCache w !! k = Some e -> good (trace w) e;
  inv_redis : forall k e d, redis w !! k = Some (RObject e, d) -> good (trace w) e;
  inv_served : exists recent, trace w = old ++ recent /\ Forall (servedGood (trace w)) recent;
}.

Lemma servedGood_mono tr tr' ev : servedGood tr ev -> servedGood (tr ++ tr') ev.
Proof. destruct ev; cbn; auto. intros [Hg Hf]. split; [apply good_mono, Hg|exact Hf]. Qed.

Lemma good_ext w w' e : ext w w' -> good (trace w) e -> good (trace w') e.
Proof. intros [[new ->] _] Hg. apply good_mono, Hg. Qed.

(** A computation that keeps the invariant, moves the world forward and
    establishes [Q] on the value it returns. *)
Definition ok {A} (P : World -> Prop) (m : M A) (Q : A -> World -> Prop) : Prop :=
  forall w, Inv w -> P w ->
    Inv (m w).2 /\ ext w (m w).2 /\ forall a, (m w).1 = Ok a -> Q a (m w).2.

Definition Stable (P : World -> Prop) : Prop := forall w w', P w -> ext w w' -> P w'.

Lemma ok_ret {A} (a : A) (P : World -> Prop) : ok P (ret a) (fun a' w => a' = a /\ P w).
Proof.
  intros w HI HP. cbn. split; [exact HI|]. split; [apply ext_refl|].
  intros a' [= <-]. auto.
Qed.

Lemma ok_throw {A} (e : Error) P (Q : A -> World -> Prop) : ok P (throw e) Q.
Proof.
  intros w HI HP. cbn. split; [exact HI|]. split; [apply ext_refl|]. intros a Ha. discriminate Ha.
Qed.

Lemma ok_bind {A B} P (m : M A) Q (k : A -> M B) R :
  ok P m Q -> (forall a, ok (Q a) (k a) R) -> ok P (bind m k) R.
Proof.
  intros Hm Hk w HI HP. destruct (Hm w HI HP) as (HI1 & He1 & HQ).
  unfold bind. destruct (m w) as [[a|e] w1]; cbn [fst snd] in *.
  - destruct (Hk a w1 HI1 (HQ a eq_refl)) as (HI2 & He2 & HR).
    split; [exact HI2|]. split; [eapply ext_trans; eassumption|exact HR].
  - split; [exact HI1|]. split; [exact He1|]. intros b Hb. discriminate Hb.
Qed.

Lemma ok_conseq {A} (P P' : World -> Prop) (m : M A) (Q Q' : A -> World -> Prop) :
  ok P' m Q' -> (forall w, Inv w -> P w -> P' w) -> (forall a w, Inv w -> Q' a w -> Q a w) ->
  ok P m Q.
Proof.
  intros Hm HP' HQ' w HI HP. destruct (Hm w HI (HP' w HI HP)) as (HI1 & He1 & HQ).
  split; [exact HI1|]. split; [exact He1|]. intros a Ha. apply HQ'; [exact HI1|]. apply HQ, Ha.
Qed.

(** [try { m } catch (e) { h e }]: the handler starts from whatever world
    the body has left. *)
Lemma ok_try_catch {A} P (m : M A) (h : Error -> M A) Q :
  ok P m Q -> (forall e, ok (fun _ => True) (h e) Q) -> ok P (try_catch m h) Q.
Proof.
  intros Hm Hh w HI HP. destruct (Hm w HI HP) as (HI1 & He1 & HQ).
  unfold try_catch. destruct (m w) as [[a|e] w1]; cbn [fst snd] in *.
  - split; [exact HI1|]. split; [exact He1|]. exact HQ.
  - destruct (Hh e w1 HI1 I) as (HI2 & He2 & HR).
    split; [exact HI2|]. split; [eapply ext_trans; eassumption|exact HR].
Qed.


Lemma ok_frame {A} P (m : M A) Q (R : World -> Prop) :
  Stable R -> ok P m Q -> ok (fun w => P w /\ R w) m (fun a w => Q a w /\ R w).
Proof.
  intros HR Hm w HI [HP HRw]. destruct (Hm w HI HP) as (HI1 & He1 & HQ).
  split; [exact HI1|]. split; [exact He1|]. intros a Ha. split; [apply HQ, Ha|].
  eapply HR; eassumption.
Qed.

Lemma Stable_good e : Stable (fun w => good (trace w) e).
Proof. intros w w' Hg He. eapply good_ext; eassumption. Qed.

Lemma Stable_True : Stable (fun _ => True).
Proof. intros w w' _ _. exact I. Qed.

Lemma Stable_and (P R : World -> Prop) : Stable P -> Stable R -> Stable (fun w => P w /\ R w).
Proof. intros HP HR w w' [H1 H2] He. split; [eapply HP|eapply HR]; eassumption. Qed.

(** *** The invariant under the elementary updates *)

Lemma Inv_emit w ev :
  Inv w -> servedGood (trace w ++ [ev]) ev -> Inv (set_trace (trace w ++ [ev]) w).
Proof.
  intros [Hc Hr (recent & Htr & Hs)] Hev. split; cbn.
  - intros k e Hk. apply good_mono. eapply Hc, Hk.
  - intros k e d Hk. apply good_mono. eapply Hr, Hk.
  - exists (recent ++ [ev]). split; [rewrite Htr, app_assoc; reflexivity|].
    apply Forall_app. split.
    + eapply Forall_impl; [exact Hs|]. intros ev' Hev'. apply servedGood_mono, Hev'.
    + apply Forall_singleton, Hev.
Qed.

Lemma Inv_cache w k e :
  Inv w -> good (trace w) e -> Inv (set_cache (<[k := e]> (signedUrlCache w)) w).
Proof.
  intros [Hc Hr Hs] Hg. split; cbn; [|exact Hr|exact Hs].
  intros k' e' Hk. destruct (decide (k = k')) as [<-|Hne].
  - rewrite lookup_insert_eq in Hk. injection Hk as <-. exact Hg.
  - rewrite lookup_insert_ne in Hk by exact Hne. eapply Hc, Hk.
Qed.

Lemma Inv_redis w k e d :
  Inv w -> good (trace w) e -> Inv (set_redis (<[k := (RObject e, d)]> (redis w)) w).
Proof.
  intros [Hc Hr Hs] Hg. split; cbn; [exact Hc| |exact Hs].
  intros k' e' d' Hk. destruct (decide (k = k')) as [<-|Hne].
  - rewrite lookup_insert_eq in Hk. injection Hk as <- <-. exact Hg.
  - rewrite lookup_insert_ne in Hk by exact Hne. eapply Hr, Hk.
Qed.

Lemma Inv_now w t : Inv w -> Inv (set_now t w).
Proof. intros [Hc Hr Hs]. split; assumption. Qed.

Lemma Inv_net w n : Inv w -> Inv (set_net n w).
Proof. intros [Hc Hr Hs]. split; assumption. Qed.

Lemma ext_emit w ev : ext w (set_trace (trace w ++ [ev]) w).
Proof. split; [exists [ev]; reflexivity | cbn; lia]. Qed.

Lemma ext_same_trace w w' : trace w' = trace w -> now w <= now w' -> ext w w'.
Proof. intros Ht Hn. split; [exists []; rewrite Ht, app_nil_r; reflexivity|exact Hn]. Qed.

(** *** The collaborators *)

Lemma ok_emit ev :
  ok (fun w => servedGood (trace w ++ [ev]) ev) (emit ev) (fun _ _ => True).
Proof.
  intros w HI HP. cbn. split; [apply Inv_emit; assumption|]. split; [apply ext_emit|]. auto.
Qed.

Definition notServe (ev : Event) : Prop :=
  match ev with Serve _ _ _ _ => False | _ => True end.

Lemma notServe_good tr ev : notServe ev -> servedGood tr ev.
Proof. destruct ev; cbn; auto. contradiction. Qed.

Lemma ok_emit_call ev : notServe ev -> ok (fun _ => True) (emit ev) (fun _ _ => True).
Proof.
  intros Hev. eapply ok_conseq; [apply ok_emit| |auto].
  intros w _ _. apply notServe_good, Hev.
Qed.

(** [Date.now()] leaves the world as it is. *)
Lemma ok_now {B} P (k : Z -> M B) R :
  (forall t, ok (fun w => P w /\ now w = t) (k t) R) -> ok P (bind Date_now k) R.
Proof. intros Hk w HI HP. apply (Hk (now w) w HI). auto. Qed.

Lemma ok_settle {A B} P (r : Result A) (k : A -> M B) R :
  (forall a, r = Ok a -> ok P (k a) R) -> ok P (bind (settle r) k) R.
Proof.
  intros Hk w HI HP. destruct r as [a|e]; cbn.
  - apply (Hk a eq_refl w HI HP).
  - split; [exact HI|]. split; [apply ext_refl|]. intros b Hb. discriminate Hb.
Qed.

Lemma ok_cache_get k :
  ok (fun _ => True) (cache_get k) (fun o w => forall e, o = Some e -> good (trace w) e).
Proof.
  intros w HI _. cbn. split; [apply Inv_emit; [exact HI|exact I]|]. split; [apply ext_emit|].
  intros o [= <-] e He. apply good_mono. eapply inv_cache; eassumption.
Qed.

Lemma ok_cache_set k e :
  ok (fun w => good (trace w) e) (cache_set k e) (fun _ _ => True).
Proof.
  intros w HI Hg. cbn.
  pose proof (Inv_emit w (CacheSet k e) HI I) as HI1.
  split; [|split; [apply ext_emit|auto]].
  apply (Inv_cache _ k e HI1). cbn. apply good_mono, Hg.
Qed.

Lemma ok_wait {A} (p : Pending A) :
  ok (fun _ => 0 <= delay p) (wait p) (fun a _ => outcome p = Ok a).
Proof.
  intros w HI Hd. cbn. split; [apply Inv_now, HI|].
  split; [apply ext_same_trace; cbn; [reflexivity|lia]|]. auto.
Qed.

Lemma ok_redis_call {A} ev (served : M A) P Q :
  notServe ev -> Stable P -> ok P served Q ->
  ok P (redis_call ev served)
     (fun p w => 0 <= delay p /\ forall a, outcome p = Ok a -> Q a w).
Proof.
  intros Hev HP Hserved w HI HPw. unfold redis_call.
  pose proof (Inv_emit w ev HI (notServe_good _ _ Hev)) as HI1.
  pose proof (ext_emit w ev) as He1.
  set (w1 := set_trace (trace w ++ [ev]) w) in *.
  pose proof (Inv_net w1 (tl (net w1)) HI1) as HI2.
  assert (He2 : ext w (set_net (tl (net w1)) w1)).
  { eapply ext_trans; [exact He1|]. apply ext_same_trace; cbn; [reflexivity|lia]. }
  set (w2 := set_net (tl (net w1)) w1) in *.
  assert (Hrun : redis_call ev served w
                 = match hd (Answers 0) (net w) with
                   | Answers ms =>
                       match served w2 with
                       | (Ok a, w3) => (Ok {| delay := Z.of_N ms; outcome := Ok a |}, w3)
                       | (Throw e, w3) => (Throw e, w3)
                       end
                   | Rejects ms =>
                       (Ok {| delay := Z.of_N ms; outcome := Throw RedisError |}, w2)
                   end).
  { unfold redis_call. exec. destruct (hd (Answers 0) (net w)); reflexivity. }
  unfold redis_call in Hrun. rewrite Hrun. clear Hrun.
  destruct (hd (Answers 0) (net w)) as [ms|ms].
  - destruct (Hserved w2 HI2 (HP _ _ HPw He2)) as (HI3 & He3 & HQ).
    destruct (served w2) as [[a|e] w3]; cbn [fst snd] in *.
    + split; [exact HI3|]. split; [eapply ext_trans; eassumption|].
      intros p [= <-]. cbn. split; [lia|]. intros a' [= <-]. apply HQ. reflexivity.
    + split; [exact HI3|]. split; [eapply ext_trans; eassumption|]. intros p Hp. discriminate Hp.
  - cbn [fst snd]. split; [exact HI2|]. split; [exact He2|].
    intros p [= <-]. cbn. split; [lia|]. intros a Ha. discriminate Ha.
Qed.

Definition vouched (tr : list Event) (v : option RedisValue) : Prop :=
  forall e, v = Some (RObject e) -> good tr e.

Lemma vouched_read w key : Inv w -> vouched (trace w) (redis_read (redis w) (now w) key).
Proof.
  intros HI e He. apply redis_read_some in He as (d & Hd & _). eapply inv_redis; eassumption.
Qed.

Lemma ok_redis_get key :
  ok (fun _ => True) (redis_get key)
     (fun p w => 0 <= delay p /\ forall v, outcome p = Ok v -> vouched (trace w) v).
Proof.
  apply ok_redis_call; [exact I|apply Stable_True|].
  intros w HI _. cbn. split; [exact HI|]. split; [apply ext_refl|].
  intros v [= <-]. apply vouched_read, HI.
Qed.

Lemma ok_redis_mget keys :
  ok (fun _ => True) (redis_mget keys)
     (fun p w => 0 <= delay p /\ forall vs, outcome p = Ok vs -> Forall (vouched (trace w)) vs).
Proof.
  apply ok_redis_call; [exact I|apply Stable_True|].
  intros w HI _. cbn. split; [exact HI|]. split; [apply ext_refl|].
  intros vs [= <-]. apply Forall_fmap, Forall_forall. intros key _. apply vouched_read, HI.
Qed.

Lemma ok_redis_write key e ex :
  ok (fun w => good (trace w) e) (redis_write key e ex) (fun _ _ => True).
Proof.
  intros w HI Hg. cbn. split; [apply Inv_redis; assumption|].
  split; [apply ext_same_trace; cbn; [reflexivity|lia]|]. auto.
Qed.

Definition writesGood (tr : list Event) (writes : list (string * SignedUrlCache * Z)) : Prop :=
  Forall (fun x => good tr x.1.2) writes.

Lemma Stable_writesGood writes : Stable (fun w => writesGood (trace w) writes).
Proof.
  intros w w' Hg He. eapply Forall_impl; [exact Hg|]. intros x Hx. eapply good_ext; eassumption.
Qed.

Lemma ok_redis_write_all writes :
  ok (fun w => writesGood (trace w) writes) (redis_write_all writes) (fun _ _ => True).
Proof.
  induction writes as [|[[key e] ex] writes IH].
  - intros w HI _. cbn. split; [exact HI|]. split; [apply ext_refl|]. auto.
  - cbn [redis_write_all]. eapply ok_bind; [|intros ?; exact IH].
    eapply ok_conseq;
      [apply (ok_frame _ _ _ _ (Stable_writesGood writes) (ok_redis_write key e ex))| |].
    + intros w _ Hg. apply Forall_cons in Hg as [Hg1 Hg2]. split; assumption.
    + intros a w _ [_ Hg]. exact Hg.
Qed.

Lemma ok_redis_set key e ex :
  ok (fun w => good (trace w) e) (redis_set key e ex) (fun p _ => 0 <= delay p).
Proof.
  eapply ok_conseq; [apply (ok_redis_call (RedisSet key e ex) _ _ _ I (Stable_good e) (ok_redis_write key e ex))|auto|].
  intros p w _ [Hd _]. exact Hd.
Qed.

Lemma ok_pipeline_exec writes :
  ok (fun w => writesGood (trace w) writes) (pipeline_exec writes) (fun _ _ => True).
Proof.
  eapply ok_conseq;
    [apply (ok_redis_call (RedisPipeline writes) _ _ _ I (Stable_writesGood writes) (ok_redis_write_all writes))
    |auto|auto].
Qed.

Lemma ok_race {A} (p : Pending A) :
  ok (fun _ => 0 <= delay p) (race_deadline p) (fun o _ => forall a, o = Some a -> outcome p = Ok a).
Proof.
  unfold race_deadline. destruct (delay p <? MGET_DEADLINE_MS).
  - apply (ok_bind _ _ (fun a _ => outcome p = Ok a)); [apply ok_wait|]. intros a.
    eapply ok_conseq; [apply (ok_ret (Some a) (fun _ => outcome p = Ok a))|auto|].
    intros o w _ [-> Ha] a' [= <-]. exact Ha.
  - apply (ok_bind _ _ (fun _ _ => True)).
    + eapply ok_conseq; [apply (ok_wait {| delay := MGET_DEADLINE_MS; outcome := Ok tt |})| |auto].
      intros w _ _. cbn. unfold MGET_DEADLINE_MS. lia.
    + intros _. eapply ok_conseq; [apply (ok_ret None (fun _ => True))|auto|].
      intros o w _ [-> _] a Ha. discriminate Ha.
Qed.

(** The signer: what it yields is vouched for with the expiry the code
    records for it. *)
Lemma ok_sign_start cmd (t : Z) :
  ok (fun w => now w = t) (sign_start cmd SIGNED_URL_EXPIRY)
     (fun signing w => now w = t /\ 0 <= delay signing /\ forall u, outcome signing = Ok u ->
        good (trace w) {| url := u; expiresAt := t + SIGNED_URL_CACHE_DURATION |}).
Proof.
  intros w HI Ht. unfold sign_start. exec.
  split; [apply Inv_emit; [exact HI|exact I]|]. split; [apply ext_emit|].
  intros signing [= <-]. cbn [delay outcome]. split; [exact Ht|]. split; [lia|].
  intros u Hu. rewrite Hu, <- Ht. apply good_signed. lia.
Qed.

Lemma ok_sign cmd :
  ok (fun _ => True) (sign cmd SIGNED_URL_EXPIRY)
     (fun u w => good (trace w) {| url := u; expiresAt := now w + SIGNED_URL_CACHE_DURATION |}).
Proof.
  intros w HI _. unfold sign, sign_start. exec.
  pose proof (Inv_emit w (Sign cmd SIGNED_URL_EXPIRY (now w)
                            (getSignedUrl cmd SIGNED_URL_EXPIRY (now w))) HI I) as HI1.
  split; [exact (Inv_now _ _ HI1)|].
  split; [split; [exists [Sign cmd SIGNED_URL_EXPIRY (now w)
                            (getSignedUrl cmd SIGNED_URL_EXPIRY (now w))]; reflexivity
                 |cbn; lia]|].
  intros u Hu. cbn [fst] in Hu. cbn [snd trace now]. rewrite Hu. apply good_signed. lia.
Qed.

(** *** Promises *)

(** The suspended rest of an [async] function, created in [w0], may run in
    any later world. *)
Definition restOk {A} (w0 : World) (rest : M A) (Q : A -> World -> Prop) : Prop :=
  forall w, ext w0 w -> Inv w ->
    Inv (rest w).2 /\ ext w (rest w).2 /\ forall a, (rest w).1 = Ok a -> Q a (rest w).2.

Definition stepOk {A} (Q : A -> World -> Prop) (s : Step A) (w0 : World) : Prop :=
  match s with
  | Settled a => Q a w0
  | Suspended rest => restOk w0 rest Q
  end.

(** An [async] function: its synchronous part keeps [P], so that the
    next one of a [map] starts under [P] too. *)
Definition okA {A} (P : World -> Prop) (p : Async A) (Q : A -> World -> Prop) : Prop :=
  ok P p (stepOk Q) /\ forall w, P w -> P (p w).2.

Lemma stepOk_ext {A} (Q : A -> World -> Prop) s w0 w1 :
  (forall a, Stable (Q a)) -> stepOk Q s w0 -> ext w0 w1 -> stepOk Q s w1.
Proof.
  intros HQ Hs He. destruct s as [a|rest]; cbn in *.
  - eapply HQ; eassumption.
  - intros w Hw. apply Hs. eapply ext_trans; eassumption.
Qed.

Lemma ok_restOk {A} P (m : M A) Q w0 : ok P m Q -> Stable P -> P w0 -> restOk w0 m Q.
Proof. intros Hm HP HP0 w He HI. apply Hm; [exact HI|]. eapply HP; eassumption. Qed.

Lemma ok_await {A} P (p : Async A) Q : okA P p Q -> ok P (await p) Q.
Proof.
  intros [Hp _] w HI HP. destruct (Hp w HI HP) as (HI1 & He1 & Hs).
  unfold await, bind. destruct (p w) as [[s|e] w1]; cbn [fst snd] in *.
  - specialize (Hs s eq_refl). destruct s as [a|rest]; cbn in *.
    + split; [exact HI1|]. split; [exact He1|]. intros a' [= <-]. exact Hs.
    + destruct (Hs w1 (ext_refl w1) HI1) as (HI2 & He2 & HQ).
      split; [exact HI2|]. split; [eapply ext_trans; eassumption|exact HQ].
  - split; [exact HI1|]. split; [exact He1|]. intros a Ha. discriminate Ha.
Qed.

Definition startedOk {A} (Q : A -> World -> Prop) (w : World) (s : Result (Step A)) : Prop :=
  forall st, s = Ok st -> stepOk Q st w.

Lemma start_all_ok {A} P (Q : A -> World -> Prop) (ps : list (Async A)) :
  (forall a, Stable (Q a)) -> Forall (fun p => okA P p Q) ps ->
  forall w, Inv w -> P w ->
    Inv (start_all ps w).2 /\ ext w (start_all ps w).2
    /\ Forall (startedOk Q (start_all ps w).2) (start_all ps w).1.
Proof.
  intros HQ Hps. induction Hps as [|p ps Hp _ IH]; intros w HI HPw.
  - cbn. split; [exact HI|]. split; [apply ext_refl|]. constructor.
  - cbn [start_all]. destruct Hp as [Hp Hkeep].
    destruct (Hp w HI HPw) as (HI1 & He1 & Hs). specialize (Hkeep w HPw).
    destruct (p w) as [s w1]; cbn [fst snd] in *.
    destruct (IH w1 HI1 Hkeep) as (HI2 & He2 & Hss).
    destruct (start_all ps w1) as [ss w2]; cbn [fst snd] in *.
    split; [exact HI2|]. split; [eapply ext_trans; eassumption|].
    constructor; [|exact Hss].
    intros st ->. eapply stepOk_ext; [exact HQ|apply Hs; reflexivity|exact He2].
Qed.

Definition settledOk {A} (Q : A -> World -> Prop) (w : World) (r : Result A) : Prop :=
  forall a, r = Ok a -> Q a w.

Lemma finish_all_ok {A} (Q : A -> World -> Prop) (ss : list (Result (Step A))) :
  (forall a, Stable (Q a)) ->
  forall w, Inv w -> Forall (startedOk Q w) ss ->
    Inv (finish_all ss w).2 /\ ext w (finish_all ss w).2
    /\ Forall (settledOk Q (finish_all ss w).2) (finish_all ss w).1.
Proof.
  intros HQ. induction ss as [|s ss IH]; intros w HI Hss.
  - cbn. split; [exact HI|]. split; [apply ext_refl|]. constructor.
  - apply Forall_cons in Hss as [Hs Hss]. cbn [finish_all].
    assert (Hone : exists r w1,
               match s with
               | Ok (Settled a) => (Ok a, w)
               | Ok (Suspended rest) => rest w
               | Throw e => (Throw e, w)
               end = (r, w1) /\ Inv w1 /\ ext w w1 /\ settledOk Q w1 r).
    { destruct s as [[a|rest]|e].
      - exists (Ok a), w. split; [reflexivity|]. split; [exact HI|]. split; [apply ext_refl|].
        intros a' [= <-]. apply (Hs _ eq_refl).
      - destruct (Hs _ eq_refl w (ext_refl w) HI) as (HI1 & He1 & Hr).
        destruct (rest w) as [r w1]. exists r, w1. cbn [fst snd] in *. auto.
      - exists (Throw e), w. split; [reflexivity|]. split; [exact HI|]. split; [apply ext_refl|].
        intros a Ha. discriminate Ha. }
    destruct Hone as (r & w1 & -> & HI1 & He1 & Hr).
    assert (Hss1 : Forall (startedOk Q w1) ss).
    { eapply Forall_impl; [exact Hss|]. intros s' Hs' st Hst.
      eapply stepOk_ext; [exact HQ|apply Hs', Hst|exact He1]. }
    destruct (IH w1 HI1 Hss1) as (HI2 & He2 & Hrs).
    destruct (finish_all ss w1) as [rs w2]; cbn [fst snd] in *.
    split; [exact HI2|]. split; [eapply ext_trans; eassumption|].
    constructor; [|exact Hrs]. intros a Ha. eapply HQ; [apply Hr, Ha|exact He2].
Qed.

Lemma all_settled_Forall {A} (Q : A -> Prop) (rs : list (Result A)) l :
  all_settled rs = Ok l -> Forall (fun r => forall a, r = Ok a -> Q a) rs -> Forall Q l.
Proof.
  revert l. induction rs as [|[a|e] rs IH]; intros l Hl Hrs; cbn in Hl.
  - injection Hl as <-. constructor.
  - apply Forall_cons in Hrs as [Ha Hrs].
    destruct (all_settled rs) as [l'|e]; [|discriminate]. injection Hl as <-.
    constructor; [apply Ha; reflexivity|]. apply IH; [reflexivity|exact Hrs].
  - discriminate.
Qed.

(** [Promise.all]: when every promise keeps the invariant, in its
    synchronous part and in its rest, so does the whole. *)
Lemma ok_promise_all {A} P (Q : A -> World -> Prop) (ps : list (Async A)) :
  (forall a, Stable (Q a)) -> Forall (fun p => okA P p Q) ps ->
  ok P (promise_all ps) (fun l w => Forall (fun a => Q a w) l).
Proof.
  intros HQ Hps w HI HPw. unfold promise_all.
  destruct (start_all_ok P Q ps HQ Hps w HI HPw) as (HI1 & He1 & Hss).
  destruct (start_all ps w) as [ss w1]; cbn [fst snd] in *.
  destruct (finish_all_ok Q ss HQ w1 HI1 Hss) as (HI2 & He2 & Hrs).
  destruct (finish_all ss w1) as [rs w2]; cbn [fst snd] in *.
  split; [exact HI2|]. split; [eapply ext_trans; eassumption|].
  intros l Hl. eapply all_settled_Forall; [exact Hl|exact Hrs].
Qed.

(** *** The resolver *)

Lemma ok_pre {A} (P P' : World -> Prop) (m : M A) Q :
  ok P' m Q -> (forall w, Inv w -> P w -> P' w) -> ok P m Q.
Proof. intros Hm HP. eapply ok_conseq; [exact Hm|exact HP|auto]. Qed.

Lemma ok_post {A} P (m : M A) (Q Q' : A -> World -> Prop) :
  ok P m Q' -> (forall a w, Inv w -> Q' a w -> Q a w) -> ok P m Q.
Proof. intros Hm HQ. eapply ok_conseq; [exact Hm|auto|exact HQ]. Qed.

Lemma ok_done {A} P (a : A) : ok P (ret a) (fun _ _ => True).
Proof. eapply ok_post; [apply ok_ret|auto]. Qed.

(** Sequencing with a fact [R] that is carried over the first step. *)
Lemma ok_seq {A B} (P P' R : World -> Prop) (m : M A) Q (k : A -> M B) S :
  Stable R -> ok P' m Q -> (forall w, Inv w -> P w -> P' w /\ R w) ->
  (forall a, ok (fun w => Q a w /\ R w) (k a) S) -> ok P (bind m k) S.
Proof.
  intros HR Hm HP Hk. eapply ok_bind; [|exact Hk].
  eapply ok_pre; [apply (ok_frame _ _ _ _ HR Hm)|exact HP].
Qed.

Lemma good_eta tr e : good tr e -> good tr {| url := url e; expiresAt := expiresAt e |}.
Proof. destruct e. exact id. Qed.

Lemma ok_rest fileKey answer :
  ok (fun w => 0 <= delay answer /\ forall v, outcome answer = Ok v -> vouched (trace w) v)
     (getSignedDownloadUrl_rest fileKey answer) (fun _ _ => True).
Proof.
  unfold getSignedDownloadUrl_rest. apply ok_try_catch; [|intros e; apply ok_throw].
  apply (ok_seq _ _ (fun w => forall v, outcome answer = Ok v -> vouched (trace w) v)
                _ _ _ _ ltac:(intros w w' Hv He v Hov e Hve; eapply good_ext; [exact He|eapply Hv; eassumption])
                (ok_wait answer)); [auto|].
  intros cached. apply ok_now. intros t.
  destruct (redisFresh cached t) as [c|] eqn:Hc.
  - apply redisFresh_some in Hc as [-> Hfresh].
    apply (ok_seq _ _ (fun w => good (trace w) c) _ _ _ _ (Stable_good c) (ok_cache_set _ _)).
    + intros w _ [[Hout Hv] _]. assert (Hg : good (trace w) c) by (eapply Hv; eauto).
      split; [apply good_eta, Hg|exact Hg].
    + intros ?. apply (ok_seq _ _ (fun _ => True) _ _ _ _ Stable_True (ok_emit _)).
      * intros w _ [_ Hg]. split; [|exact I]. cbn. split; [apply good_mono, Hg|exact Hfresh].
      * intros ?. apply ok_done.
  - apply (ok_seq _ _ (fun _ => True) _ _ _ _ Stable_True (ok_sign _)); [auto|].
    intros signedUrl. apply ok_now. intros t'.
    set (e := {| url := signedUrl; expiresAt := t' + SIGNED_URL_CACHE_DURATION |}).
    apply (ok_seq _ _ (fun w => good (trace w) e) _ _ _ _ (Stable_good e) (ok_cache_set _ _)).
    + intros w _ [[Hg _] <-]. split; exact Hg.
    + intros ?. apply (ok_seq _ _ (fun _ => True) _ _ _ _ Stable_True (ok_redis_set _ _ _)).
      * intros w _ [_ Hg]. split; [exact Hg|exact I].
      * intros written. apply (ok_seq _ _ (fun _ => True) _ _ _ _ Stable_True (ok_wait written)).
        -- intros w _ [Hd _]. split; [exact Hd|exact I].
        -- intros ?. apply ok_done.
Qed.

Lemma okA_getSignedDownloadUrl fileKey :
  okA (fun _ => True) (getSignedDownloadUrl fileKey) (fun _ _ => True).
Proof.
  split; [|auto]. unfold getSignedDownloadUrl.
  apply (ok_seq _ _ (fun _ => True) _ _ _ _ Stable_True (ok_cache_get fileKey)); [auto|].
  intros memCached. apply ok_now. intros t.
  destruct (memFresh memCached t) as [e|] eqn:He.
  - apply memFresh_some in He as [-> Hfresh].
    apply (ok_seq _ _ (fun _ => True) _ _ _ _ Stable_True (ok_emit _)).
    + intros w _ [[Hg _] _]. split; [|exact I]. cbn.
      split; [apply good_mono, Hg; reflexivity|exact Hfresh].
    + intros ?. eapply ok_post; [apply ok_ret|]. intros s w _ [-> _]. exact I.
  - apply (ok_seq _ _ (fun _ => True) _ _ _ _ Stable_True (ok_redis_get _)); [auto|].
    intros answer. eapply ok_post; [apply ok_ret|].
    intros s w HI [-> [[Hd Hv] _]]. cbn.
    apply (ok_restOk _ _ _ _ (ok_rest fileKey answer)).
    + intros w1 w2 [Hd1 Hv1] Hext. split; [exact Hd1|].
      intros v Hov e Hve. eapply good_ext; [exact Hext|eapply Hv1; eassumption].
    + split; [exact Hd|exact Hv].
Qed.

Lemma okA_getAuthenticatedUrl fileUrl :
  okA (fun _ => True) (getAuthenticatedUrl fileUrl) (fun _ _ => True).
Proof.
  unfold getAuthenticatedUrl. destruct (truthy (parseR2Url fileUrl)) as [fileKey|].
  - apply okA_getSignedDownloadUrl.
  - split; [|auto]. eapply ok_post; [apply ok_ret|]. intros s w _ [-> _]. exact I.
Qed.

Lemma ok_resolve reference : ok (fun _ => True) (resolve reference) (fun _ _ => True).
Proof. apply ok_await, okA_getAuthenticatedUrl. Qed.

(** *** The batch *)

Lemma ok_scanMemory keys : forall index results missing,
  ok (fun _ => True) (scanMemory keys index results missing) (fun _ _ => True).
Proof.
  induction keys as [|[original key] keys IH]; intros index results missing.
  - cbn [scanMemory]. apply ok_done.
  - cbn [scanMemory]. destruct (truthy key) as [k|]; [|apply IH].
    apply (ok_seq _ _ (fun _ => True) _ _ _ _ Stable_True (ok_cache_get k)); [auto|].
    intros memCached. apply ok_now. intros t.
    destruct (memFresh memCached t) as [e|] eqn:He.
    + apply memFresh_some in He as [-> Hfresh].
      apply (ok_seq _ _ (fun _ => True) _ _ _ _ Stable_True (ok_emit _)).
      * intros w _ [[Hg _] _]. split; [|exact I]. cbn.
        split; [apply good_mono, Hg; reflexivity|exact Hfresh].
      * intros ?. eapply ok_pre; [apply IH|intros; exact I].
    + eapply ok_pre; [apply IH|intros; exact I].
Qed.

Lemma Stable_vouched vals : Stable (fun w => Forall (vouched (trace w)) vals).
Proof.
  intros w w' Hv He. eapply Forall_impl; [exact Hv|].
  intros v Hvv e Hve. eapply good_ext; [exact He|apply Hvv, Hve].
Qed.

Lemma ok_scanRedis vals : forall missing results still,
  ok (fun w => Forall (vouched (trace w)) vals) (scanRedis vals missing results still)
     (fun _ _ => True).
Proof.
  induction vals as [|val vals IH]; intros missing results still.
  - cbn [scanRedis]. apply ok_done.
  - destruct missing as [|[originalIndex k] rest]; cbn [scanRedis]; [apply ok_done|].
    apply ok_now. intros t.
    destruct (redisFresh val t) as [c|] eqn:Hc.
    + apply redisFresh_some in Hc as [-> Hfresh].
      apply (ok_seq _ _ (fun w => good (trace w) c /\ Forall (vouched (trace w)) vals)
                    _ _ _ _ (Stable_and _ _ (Stable_good c) (Stable_vouched vals)) (ok_emit _)).
      * intros w _ [Hv _]. apply Forall_cons in Hv as [Hc Hv].
        assert (Hg : good (trace w) c) by (apply Hc; reflexivity).
        split; [|split; assumption]. cbn. split; [apply good_mono, Hg|exact Hfresh].
      * intros ?. apply (ok_seq _ _ (fun w => Forall (vouched (trace w)) vals)
                                _ _ _ _ (Stable_vouched vals) (ok_cache_set _ _)).
        -- intros w _ [_ [Hg Hv]]. split; [apply good_eta, Hg|exact Hv].
        -- intros ?. eapply ok_pre; [apply IH|]. intros w _ [_ Hv]. exact Hv.
    + eapply ok_pre; [apply IH|]. intros w _ [Hv _]. apply Forall_cons in Hv as [_ Hv]. exact Hv.
Qed.

Lemma ok_lookupMissing results missing :
  ok (fun _ => True) (lookupMissing results missing) (fun _ _ => True).
Proof.
  unfold lookupMissing.
  apply (ok_seq _ _ (fun _ => True) _ _ _ _ Stable_True (ok_redis_mget _)); [auto|].
  intros redisPromise.
  apply (ok_seq _ _ (fun w => forall vs, outcome redisPromise = Ok vs ->
                                         Forall (vouched (trace w)) vs)
                _ _ _ _
                ltac:(intros w w' Hv He vs Hvs; eapply Stable_vouched; [apply Hv, Hvs|exact He])
                (ok_race redisPromise)).
  - intros w _ [[Hd Hv] _]. split; [exact Hd|exact Hv].
  - intros [vals|].
    + eapply ok_pre; [apply ok_scanRedis|]. intros w _ [Hsome Hv]. apply Hv, Hsome. reflexivity.
    + apply ok_done.
Qed.

Lemma okA_signOne (t : Z) m :
  okA (fun w => now w = t) (signOne (t + SIGNED_URL_CACHE_DURATION) m)
      (fun r w => good (trace w) r.2).
Proof.
  split; [|intros w Hw; exact Hw]. unfold signOne.
  apply (ok_seq _ _ (fun _ => True) _ _ _ _ Stable_True (ok_sign_start _ t)); [auto|].
  intros signing. eapply ok_post; [apply ok_ret|].
  intros s w HI [-> [[_ [Hd Hg]] _]]. cbn.
  set (vouchedFor := fun w : World => forall u, outcome signing = Ok u ->
         good (trace w) {| url := u; expiresAt := t + SIGNED_URL_CACHE_DURATION |}).
  assert (Hstable : Stable vouchedFor).
  { intros w1 w2 Hg1 He u Hu. eapply good_ext; [exact He|apply Hg1, Hu]. }
  apply (ok_restOk (fun w => 0 <= delay signing /\ vouchedFor w)).
  - unfold signOne_rest.
    apply (ok_seq _ _ vouchedFor _ _ _ _ Hstable (ok_wait signing)); [auto|].
    intros u.
    apply (ok_seq _ _ (fun w => good (trace w)
                          {| url := u; expiresAt := t + SIGNED_URL_CACHE_DURATION |})
                  _ _ _ _ (Stable_good _) (ok_cache_set _ _)).
    + intros w' _ [Hu Hg']. split; apply Hg', Hu.
    + intros ?. eapply ok_post; [apply ok_ret|]. intros x w' _ [-> [_ Hg']]. exact Hg'.
  - intros w1 w2 [Hd1 Hg1] He. split; [exact Hd1|]. eapply Hstable; eassumption.
  - split; [exact Hd|exact Hg].
Qed.

Lemma ok_signRemaining results still :
  ok (fun _ => True) (signRemaining results still) (fun _ _ => True).
Proof.
  unfold signRemaining. destruct still as [|m still]; [apply ok_done|].
  apply ok_now. intros t.
  apply (ok_seq _ _ (fun _ => True) _ _ _ _ Stable_True
           (ok_promise_all (fun w => now w = t) (fun r w => good (trace w) r.2)
              (map (signOne (t + SIGNED_URL_CACHE_DURATION)) (m :: still))
              ltac:(intros a; apply Stable_good)
              ltac:(apply Forall_fmap, Forall_forall; intros x _; apply okA_signOne))).
  - intros w _ [_ Ht]. split; [exact Ht|exact I].
  - intros signedResults. apply (ok_bind _ _ (fun _ _ => True)); [|intros ?; apply ok_done].
    destruct (0 <? length signedResults)%nat; [|apply ok_done].
    apply (ok_seq _ _ (fun _ => True) _ _ _ _ Stable_True (ok_pipeline_exec _)).
    + intros w _ [Hg _]. split; [|exact I]. apply Forall_fmap. exact Hg.
    + intros written. apply ok_done.
Qed.

Lemma ok_batch_body fileUrls : ok (fun _ => True) (batch_body fileUrls) (fun _ _ => True).
Proof.
  unfold batch_body.
  apply (ok_bind _ _ (fun _ _ => True)); [apply ok_scanMemory|].
  intros scanned. destruct scanned.2; [apply ok_done|].
  apply (ok_bind _ _ (fun _ _ => True)); [apply ok_lookupMissing|].
  intros scanned'. apply ok_signRemaining.
Qed.

Lemma ok_resolveBatch references :
  ok (fun _ => True) (resolveBatch references) (fun _ _ => True).
Proof.
  unfold resolveBatch, getAuthenticatedUrls. destruct references as [|u refs]; [apply ok_done|].
  apply ok_try_catch; [apply ok_batch_body|]. intros _.
  eapply ok_post; [apply (ok_promise_all (fun _ => True) (fun _ _ => True))|auto].
  - intros ?. apply Stable_True.
  - apply Forall_fmap, Forall_forall. intros x _. apply okA_getAuthenticatedUrl.
Qed.
(** *** What is returned, and where it comes from *)

(** Since [old], the URL [u] has been handed out for [k] from a tier, or
    the signer has yielded it for [k]. *)
Definition accounted (k u : string) (w : World) : Prop :=
  exists recent, trace w = old ++ recent /\ accountedIn recent k u.

Definition answerFor (ref u : string) (w : World) : Prop :=
  exists recent, trace w = old ++ recent /\ answeredIn recent ref u.

Lemma elem_of_app_l (ev : Event) l l' : ev ∈ l -> ev ∈ l ++ l'.
Proof. intros H. apply elem_of_app. left. exact H. Qed.

Lemma Stable_accounted k u : Stable (accounted k u).
Proof.
  intros w w' (recent & Htr & Hacc) [[new Hnew] _]. exists (recent ++ new).
  split; [rewrite Hnew, Htr, app_assoc; reflexivity|].
  eapply accountedIn_mono; [|exact Hacc]. intros ev. apply elem_of_app_l.
Qed.

Lemma Stable_answerFor ref u : Stable (answerFor ref u).
Proof.
  intros w w' (recent & Htr & Hacc) [[new Hnew] _]. exists (recent ++ new).
  split; [rewrite Hnew, Htr, app_assoc; reflexivity|].
  eapply answeredIn_mono; [|exact Hacc]. intros ev. apply elem_of_app_l.
Qed.

Lemma ok_emit_serve tier k e t :
  ok (fun w => good (trace w) e /\ t + SAFETY_BUFFER_MS < expiresAt e)
     (emit (Serve tier k e t)) (fun _ w => accounted k (url e) w).
Proof.
  intros w HI [Hg Hf]. cbn.
  split; [apply Inv_emit; [exact HI|cbn; split; [apply good_mono, Hg|exact Hf]]|].
  split; [apply ext_emit|]. intros _ _.
  destruct HI as [_ _ (recent & Htr & _)]. exists (recent ++ [Serve tier k e t]).
  split; [rewrite Htr, app_assoc; reflexivity|].
  left. exists tier, e, t. split; [|reflexivity].
  apply elem_of_app. right. apply list_elem_of_singleton. reflexivity.
Qed.

Lemma ok_sign_acc k :
  ok (fun _ => True) (sign (objectCommand k) SIGNED_URL_EXPIRY)
     (fun u w => good (trace w) {| url := u; expiresAt := now w + SIGNED_URL_CACHE_DURATION |}
                 /\ accounted k u w).
Proof.
  intros w HI _.
  destruct (ok_sign (objectCommand k) w HI I) as (HI1 & He1 & Hg).
  split; [exact HI1|]. split; [exact He1|]. intros u Hu. split; [apply Hg, Hu|].
  destruct HI as [_ _ (recent & Htr & _)]. revert Hu. unfold sign, sign_start. exec.
  intros Hu. rewrite Hu.
  exists (recent ++ [Sign (objectCommand k) SIGNED_URL_EXPIRY (now w) (Ok u)]).
  split; [rewrite Htr, app_assoc; reflexivity|].
  right. exists (now w). apply elem_of_app. right. apply list_elem_of_singleton. reflexivity.
Qed.

Lemma ok_rest_acc fileKey answer :
  ok (fun w => 0 <= delay answer /\ forall v, outcome answer = Ok v -> vouched (trace w) v)
     (getSignedDownloadUrl_rest fileKey answer) (accounted fileKey).
Proof.
  unfold getSignedDownloadUrl_rest. apply ok_try_catch; [|intros e; apply ok_throw].
  apply (ok_seq _ _ (fun w => forall v, outcome answer = Ok v -> vouched (trace w) v)
                _ _ _ _ ltac:(intros w w' Hv He v Hov e Hve; eapply good_ext; [exact He|eapply Hv; eassumption])
                (ok_wait answer)); [auto|].
  intros cached. apply ok_now. intros t.
  destruct (redisFresh cached t) as [c|] eqn:Hc.
  - apply redisFresh_some in Hc as [-> Hfresh].
    apply (ok_seq _ _ (fun w => good (trace w) c) _ _ _ _ (Stable_good c) (ok_cache_set _ _)).
    + intros w _ [[Hout Hv] _]. assert (Hg : good (trace w) c) by (eapply Hv; eauto).
      split; [apply good_eta, Hg|exact Hg].
    + intros ?. apply (ok_seq _ _ (fun _ => True) _ _ _ _ Stable_True (ok_emit_serve _ _ _ _)).
      * intros w _ [_ Hg]. split; [|exact I]. split; [exact Hg|exact Hfresh].
      * intros ?. eapply ok_post; [apply ok_ret|]. intros u w _ [-> [Hacc _]]. exact Hacc.
  - apply (ok_seq _ _ (fun _ => True) _ _ _ _ Stable_True (ok_sign_acc fileKey)); [auto|].
    intros signedUrl. apply ok_now. intros t'.
    set (e := {| url := signedUrl; expiresAt := t' + SIGNED_URL_CACHE_DURATION |}).
    set (R := fun w => good (trace w) e /\ accounted fileKey signedUrl w).
    assert (HR : Stable R) by (apply Stable_and; [apply Stable_good|apply Stable_accounted]).
    apply (ok_seq _ _ R _ _ _ _ HR (ok_cache_set _ _)).
    + intros w _ [[[Hg Hacc] _] <-]. split; [exact Hg|]. split; [exact Hg|exact Hacc].
    + intros ?. apply (ok_seq _ _ (accounted fileKey signedUrl) _ _ _ _
                         (Stable_accounted _ _) (ok_redis_set _ _ _)).
      * intros w _ [_ [Hg Hacc]]. split; [exact Hg|exact Hacc].
      * intros written.
        apply (ok_seq _ _ (accounted fileKey signedUrl) _ _ _ _
                 (Stable_accounted _ _) (ok_wait written)).
        -- intros w _ [Hd Hacc]. split; [exact Hd|exact Hacc].
        -- intros ?. eapply ok_post; [apply ok_ret|]. intros u w _ [-> [_ Hacc]]. exact Hacc.
Qed.

Lemma okA_getSignedDownloadUrl_acc fileKey :
  okA (fun _ => True) (getSignedDownloadUrl fileKey) (accounted fileKey).
Proof.
  split; [|auto]. unfold getSignedDownloadUrl.
  apply (ok_seq _ _ (fun _ => True) _ _ _ _ Stable_True (ok_cache_get fileKey)); [auto|].
  intros memCached. apply ok_now. intros t.
  destruct (memFresh memCached t) as [e|] eqn:He.
  - apply memFresh_some in He as [-> Hfresh].
    apply (ok_seq _ _ (fun _ => True) _ _ _ _ Stable_True (ok_emit_serve _ _ _ _)).
    + intros w _ [[Hg _] _]. split; [|exact I]. split; [apply Hg; reflexivity|exact Hfresh].
    + intros ?. eapply ok_post; [apply ok_ret|]. intros s w _ [-> [Hacc _]]. exact Hacc.
  - apply (ok_seq _ _ (fun _ => True) _ _ _ _ Stable_True (ok_redis_get _)); [auto|].
    intros answer. eapply ok_post; [apply ok_ret|].
    intros s w HI [-> [[Hd Hv] _]]. cbn.
    apply (ok_restOk _ _ _ _ (ok_rest_acc fileKey answer)).
    + intros w1 w2 [Hd1 Hv1] Hext. split; [exact Hd1|].
      intros v Hov e Hve. eapply good_ext; [exact Hext|eapply Hv1; eassumption].
    + split; [exact Hd|exact Hv].
Qed.

Lemma okA_getAuthenticatedUrl_acc fileUrl :
  okA (fun _ => True) (getAuthenticatedUrl fileUrl) (answerFor fileUrl).
Proof.
  unfold getAuthenticatedUrl, answerFor, answeredIn.
  destruct (truthy (parseR2Url fileUrl)) as [fileKey|].
  - apply okA_getSignedDownloadUrl_acc.
  - split; [|auto]. eapply ok_post; [apply ok_ret|]. intros s w HI [-> _]. cbn.
    destruct HI as [_ _ (recent & Htr & _)]. exists recent. auto.
Qed.

Lemma ok_resolve_acc reference :
  ok (fun _ => True) (resolve reference) (answerFor reference).
Proof. apply ok_await, okA_getAuthenticatedUrl_acc. Qed.

(** *** [Promise.all], position by position *)

Lemma start_all_each {A X} P (Q : X -> A -> World -> Prop) (xs : list X)
    (ps : list (Async A)) :
  (forall x a, Stable (Q x a)) -> Forall2 (fun x p => okA P p (Q x)) xs ps ->
  forall w, Inv w -> P w ->
    Inv (start_all ps w).2 /\ ext w (start_all ps w).2
    /\ Forall2 (fun x s => startedOk (Q x) (start_all ps w).2 s) xs (start_all ps w).1.
Proof.
  intros HQ Hps. induction Hps as [|x p xs ps Hp _ IH]; intros w HI HPw.
  - cbn. split; [exact HI|]. split; [apply ext_refl|]. constructor.
  - cbn [start_all]. destruct Hp as [Hp Hkeep].
    destruct (Hp w HI HPw) as (HI1 & He1 & Hs). specialize (Hkeep w HPw).
    destruct (p w) as [s w1]; cbn [fst snd] in *.
    destruct (IH w1 HI1 Hkeep) as (HI2 & He2 & Hss).
    destruct (start_all ps w1) as [ss w2]; cbn [fst snd] in *.
    split; [exact HI2|]. split; [eapply ext_trans; eassumption|].
    constructor; [|exact Hss].
    intros st ->. eapply stepOk_ext; [apply HQ|apply Hs; reflexivity|exact He2].
Qed.

Lemma finish_all_each {A X} (Q : X -> A -> World -> Prop) (xs : list X)
    (ss : list (Result (Step A))) :
  (forall x a, Stable (Q x a)) ->
  forall w, Inv w -> Forall2 (fun x s => startedOk (Q x) w s) xs ss ->
    Inv (finish_all ss w).2 /\ ext w (finish_all ss w).2
    /\ Forall2 (fun x r => settledOk (Q x) (finish_all ss w).2 r) xs (finish_all ss w).1.
Proof.
  intros HQ. revert xs. induction ss as [|s ss IH]; intros xs w HI Hss.
  - apply Forall2_nil_inv_r in Hss. subst xs. cbn.
    split; [exact HI|]. split; [apply ext_refl|]. constructor.
  - apply Forall2_cons_inv_r in Hss as (x & xs' & Hs & Hss & ->). cbn [finish_all].
    assert (Hone : exists r w1,
               match s with
               | Ok (Settled a) => (Ok a, w)
               | Ok (Suspended rest) => rest w
               | Throw e => (Throw e, w)
               end = (r, w1) /\ Inv w1 /\ ext w w1 /\ settledOk (Q x) w1 r).
    { destruct s as [[a|rest]|e].
      - exists (Ok a), w. split; [reflexivity|]. split; [exact HI|]. split; [apply ext_refl|].
        intros a' [= <-]. apply (Hs _ eq_refl).
      - destruct (Hs _ eq_refl w (ext_refl w) HI) as (HI1 & He1 & Hr).
        destruct (rest w) as [r w1]. exists r, w1. cbn [fst snd] in *. auto.
      - exists (Throw e), w. split; [reflexivity|]. split; [exact HI|]. split; [apply ext_refl|].
        intros a Ha. discriminate Ha. }
    destruct Hone as (r & w1 & -> & HI1 & He1 & Hr).
    assert (Hss1 : Forall2 (fun x s => startedOk (Q x) w1 s) xs' ss).
    { eapply Forall2_impl; [exact Hss|]. intros x' s' Hs' st Hst.
      eapply stepOk_ext; [apply HQ|apply Hs', Hst|exact He1]. }
    destruct (IH xs' w1 HI1 Hss1) as (HI2 & He2 & Hrs).
    destruct (finish_all ss w1) as [rs w2]; cbn [fst snd] in *.
    split; [exact HI2|]. split; [eapply ext_trans; eassumption|].
    constructor; [|exact Hrs]. intros a Ha. eapply HQ; [apply Hr, Ha|exact He2].
Qed.

Lemma all_settled_each {A X} (Q : X -> A -> Prop) (xs : list X) (rs : list (Result A)) l :
  all_settled rs = Ok l -> Forall2 (fun x r => forall a, r = Ok a -> Q x a) xs rs ->
  Forall2 Q xs l.
Proof.
  revert xs l. induction rs as [|[a|e] rs IH]; intros xs l Hl Hrs; cbn in Hl.
  - injection Hl as <-. apply Forall2_nil_inv_r in Hrs. subst xs. constructor.
  - apply Forall2_cons_inv_r in Hrs as (x & xs' & Ha & Hrs & ->).
    destruct (all_settled rs) as [l'|e]; [|discriminate]. injection Hl as <-.
    constructor; [apply Ha; reflexivity|]. apply IH; [reflexivity|exact Hrs].
  - discriminate.
Qed.

(** [Promise.all]: when the promise at each position keeps the invariant
    and establishes what is expected of that position, the list holds at
    each position a value of which this holds. *)
Lemma ok_promise_all_each {A X} P (Q : X -> A -> World -> Prop) (xs : list X)
    (ps : list (Async A)) :
  (forall x a, Stable (Q x a)) -> Forall2 (fun x p => okA P p (Q x)) xs ps ->
  ok P (promise_all ps) (fun l w => Forall2 (fun x a => Q x a w) xs l).
Proof.
  intros HQ Hps w HI HPw. unfold promise_all.
  destruct (start_all_each P Q xs ps HQ Hps w HI HPw) as (HI1 & He1 & Hss).
  destruct (start_all ps w) as [ss w1]; cbn [fst snd] in *.
  destruct (finish_all_each Q xs ss HQ w1 HI1 Hss) as (HI2 & He2 & Hrs).
  destruct (finish_all ss w1) as [rs w2]; cbn [fst snd] in *.
  split; [exact HI2|]. split; [eapply ext_trans; eassumption|].
  intros l Hl. eapply (all_settled_each (fun x a => Q x a w2)); [exact Hl|exact Hrs].
Qed.

(** *** The batch, on every path *)

Definition answersFor (refs rs : list string) (w : World) : Prop :=
  exists recent, trace w = old ++ recent /\ Forall2 (answeredIn recent) refs rs.

Lemma answersFor_each refs rs w :
  Inv w -> Forall2 (fun ref u => answerFor ref u w) refs rs -> answersFor refs rs w.
Proof.
  intros [_ _ (recent & Htr & _)] Hall. exists recent. split; [exact Htr|].
  eapply Forall2_impl; [exact Hall|]. intros ref u (recent' & Htr' & Hans).
  rewrite Htr in Htr'. apply app_inv_head in Htr'. subst recent'. exact Hans.
Qed.

Lemma ok_batch_body_acc fileUrls :
  ok (fun _ => True) (batch_body fileUrls) (answersFor fileUrls).
Proof.
  intros w HI _. destruct (ok_batch_body fileUrls w HI I) as (HI1 & He1 & _).
  split; [exact HI1|]. split; [exact He1|]. intros rs Hrs.
  destruct (batch_body fileUrls w) as [r w'] eqn:Hrun. cbn [fst snd] in *. subst r.
  destruct (batch_body_acc fileUrls w rs w' Hrun) as (new & Htr & Hall).
  destruct HI as [_ _ (recent & Hold & _)]. exists (recent ++ new).
  split; [rewrite Htr, Hold, app_assoc; reflexivity|].
  eapply Forall2_impl; [exact Hall|]. intros ref u. apply answeredIn_mono.
  intros ev Hev. apply elem_of_app. right. exact Hev.
Qed.

(** Whichever path a batch takes, the [try] block or the fallback, every
    value it returns is accounted for at its own position. *)
Lemma ok_resolveBatch_acc references :
  ok (fun _ => True) (resolveBatch references) (answersFor references).
Proof.
  unfold resolveBatch, getAuthenticatedUrls. destruct references as [|u refs].
  - eapply ok_post; [apply ok_ret|]. intros rs w HI [-> _].
    destruct HI as [_ _ (recent & Htr & _)]. exists recent. split; [exact Htr|constructor].
  - apply ok_try_catch; [apply ok_batch_body_acc|]. intros _.
    eapply ok_post;
      [apply (ok_promise_all_each (fun _ => True) answerFor (u :: refs))|].
    + intros ref a. apply Stable_answerFor.
    + apply Forall2_fmap_r, Forall_Forall2_diag, Forall_forall.
      intros x _. apply okA_getAuthenticatedUrl_acc.
    + intros rs w HI Hall. apply answersFor_each; assumption.
Qed.

End Invariants.

(** ** Expiry enforcement *)

(** What a run adds to the trace holds no URL served outside its window. *)
Lemma run_serves_fresh {A} (m : M A) (Q : A -> World -> Prop) w :
  ok (fun _ _ => True) (trace w) (fun _ => True) m Q ->
  exists new, trace (m w).2 = trace w ++ new /\ Forall servedFresh new.
Proof.
  intros Hm. destruct (Hm w) as ([_ _ (recent & Htr & Hs)] & _ & _); [|exact I|].
  - split; [auto|auto|]. exists []. split; [symmetry; apply app_nil_r|constructor].
  - exists recent. split; [exact Htr|]. eapply Forall_impl; [exact Hs|].
    intros [] H; cbn in *; try exact I. apply H.
Qed.

(** The local tier holds nothing for [k] that is inside its window. *)
Definition localStale (w : World) (k : string) : Prop :=
  forall e, signedUrlCache w !! k = Some e -> expiresAt e <= now w + SAFETY_BUFFER_MS.

(** What the distributed tier answers for [k] is not inside its window
    when the answer is checked, at [t1]. *)
Definition distributedStale (w : World) (k : string) (t1 : Z) : Prop :=
  forall e, redis_read (redis w) (now w) (redisKey k) = Some (RObject e) ->
            expiresAt e <= t1 + SAFETY_BUFFER_MS.

Lemma stale_memFresh w k : localStale w k -> memFresh (signedUrlCache w !! k) (now w) = None.
Proof. intros H. apply memFresh_none. exact H. Qed.

Lemma stale_redisFresh w k t1 :
  distributedStale w k t1 ->
  redisFresh (redis_read (redis w) (now w) (redisKey k)) t1 = None.
Proof. intros H. apply redisFresh_none. exact H. Qed.

(** What a run that returns adds to the trace, and what its value is
    accounted for by. *)
Lemma run_accounts {A} (m : M A) (Q : A -> World -> Prop) w :
  ok (fun _ _ => True) (trace w) (fun _ => True) m Q ->
  exists new, trace (m w).2 = trace w ++ new /\ Forall servedFresh new
              /\ forall a, (m w).1 = Ok a -> Q a (m w).2.
Proof.
  intros Hm. destruct (Hm w) as ([_ _ (recent & Htr & Hs)] & _ & HQ); [|exact I|].
  - split; [auto|auto|]. exists []. split; [symmetry; apply app_nil_r|constructor].
  - exists recent. split; [exact Htr|]. split; [|exact HQ]. eapply Forall_impl; [exact Hs|].
    intros [] H; cbn in *; try exact I. apply H.
Qed.

(** The signing phase calls the signer for every key still missing,
    whatever the signer answers. *)
Lemma signRemaining_trace results still w :
  exists rest, trace (signRemaining results still w).2
               = trace w ++ map (signEventOf (now w)) still ++ rest.
Proof.
  destruct still as [|m still]; [exists []; cbn; rewrite app_nil_r; reflexivity|].
  unfold signRemaining. rewrite (bind_run Date_now _ w (now w) w eq_refl).
  unfold bind at 1. rewrite promise_all_sign.
  destruct (all_settled _) as [signedResults|e].
  - destruct (0 <? length signedResults)%nat.
    + match goal with |- context [pipeline_exec ?ws] =>
        match goal with |- context [bind _ _ ?w1] =>
          destruct (pipeline_detached_run ws w1) as (w' & Hrun & _ & _ & _ & Htr) end end.
      erewrite bind_run by exact Hrun. cbn [ret snd]. rewrite Htr. cbn [trace].
      eexists. rewrite <- !app_assoc. reflexivity.
    + cbn [bind ret snd trace]. eexists. reflexivity.
  - cbn [snd trace]. eexists. reflexivity.
Qed.

(** So does the [try] block when the bulk read does not reject before
    the deadline. *)
Lemma batch_body_signs refs w :
  (delayOf (firstOutcome w) < MGET_DEADLINE_MS -> answered (firstOutcome w) = true) ->
  exists new,
    trace (batch_body refs w).2 = trace w ++ new
    /\ forall m, m ∈ redisStill (seenBy w) (lookupInstant w)
                       (memMissing (signedUrlCache w) (now w) refs 0) ->
                 signEventOf (lookupInstant w) m ∈ new.
Proof.
  intros Hans. unfold batch_body. erewrite bind_run by apply scanMemory_run.
  cbn [fst snd]. rewrite app_nil_l.
  destruct (memMissing (signedUrlCache w) (now w) refs 0) as [|m0 missing'] eqn:Hmiss.
  - eexists. split; [reflexivity|]. intros m Hm. inversion Hm.
  - set (w1 := set_trace _ w).
    erewrite bind_run by (apply lookupMissing_run; exact Hans). cbn [fst snd].
    change (seenBy w1) with (seenBy w). change (lookupInstant w1) with (lookupInstant w).
    match goal with |- context [signRemaining ?r ?s ?w2] =>
      destruct (signRemaining_trace r s w2) as [rest Htr] end.
    rewrite Htr. subst w1. cbn [trace now set_trace]. eexists.
    split; [rewrite <- !app_assoc; reflexivity|].
    intros m Hm. apply elem_of_app. right. apply elem_of_cons. right.
    apply elem_of_app. right. apply elem_of_app. left.
    apply list_elem_of_fmap. exists m. auto.
Qed.

(** Whatever a batch does after its [try] block only adds to the trace. *)
Lemma resolveBatch_after_body refs w :
  exists more, trace (resolveBatch refs w).2 = trace (batch_body refs w).2 ++ more.
Proof.
  unfold resolveBatch, getAuthenticatedUrls. destruct refs as [|u refs].
  - exists []. unfold batch_body. erewrite bind_run by apply scanMemory_run.
    cbn. rewrite !app_nil_r. reflexivity.
  - unfold try_catch. destruct (batch_body (u :: refs) w) as [[rs|e] w1]; cbn [snd].
    + exists []. rewrite app_nil_r. reflexivity.
    + destruct (run_serves_fresh (promise_all (map getAuthenticatedUrl (u :: refs)))
                  (fun l w => Forall (fun _ => True) l) w1) as (new & Htr & _);
        [|exists new; exact Htr].
      apply (ok_promise_all (fun _ _ => True)); auto.
      * intros a. apply Stable_True.
      * apply Forall_fmap, Forall_forall. intros x _. apply okA_getAuthenticatedUrl; auto.
Qed.

(** C2, as amended.  (1) Whenever [resolve] returns a URL for a
    reference with a key, it is the URL of the entry of the local tier, which satisfied
    [now + SAFETY_BUFFER_MS < expiresAt] when it was checked, or of the
    entry that the distributed tier answered, which satisfied it when the
    answer was checked, no signer call being made, or else the URL that
    the one signer call of this run has yielded.  (2) So it is at every
    position of a batch whose [try] block returns: the URL there is that
    of the entry of the local tier, inside its window at the start, or of
    the entry that the bulk read has brought before its deadline, inside
    its window when the read was over, or the one that the signer has
    yielded then.  (3) Whichever path a batch takes, the fallback
    included, every value it returns is, at its own position, the
    reference itself (which has no key), or the URL of an entry handed
    out for its key from a tier during the run, or a URL that the signer
    has yielded for its key during the run, and (4) every entry handed
    out from a tier by [resolve] or [resolveBatch], also in a run that
    throws, satisfied [now + SAFETY_BUFFER_MS < expiresAt] when it was
    checked.  (5) When neither tier holds for the key of a reference an
    entry inside its window and [redis.get] answers, [resolve] calls the
    signer for that key, once, and what it returns is what the signer
    has yielded.  (6) When neither tier holds for the key of a reference
    of a batch an entry inside its window and the bulk read does not
    reject before the deadline, the batch calls the signer for that key,
    whatever the signer answers. *)
Theorem stale_entries_are_never_served :
  (forall ref k w u w',
     truthy (parseR2Url ref) = Some k -> resolve ref w = (Ok u, w') ->
     exists new,
       trace w' = trace w ++ new
       /\ ((exists e, signedUrlCache w !! k = Some e
                      /\ now w + SAFETY_BUFFER_MS < expiresAt e
                      /\ u = url e /\ signerCalls new = [])
           \/ (exists ms e, firstOutcome w = Answers ms
                 /\ redis_read (redis w) (now w) (redisKey k) = Some (RObject e)
                 /\ now w + Z.of_N ms + SAFETY_BUFFER_MS < expiresAt e
                 /\ u = url e /\ signerCalls new = [])
           \/ (exists ms, firstOutcome w = Answers ms
                 /\ signedUrlOf k (now w + Z.of_N ms) = Ok u
                 /\ signerCalls new = [signCall (now w + Z.of_N ms) k])))
  /\ (forall refs w rs w' i u k,
        batch_body refs w = (Ok rs, w') ->
        refs !! i = Some u -> truthy (parseR2Url u) = Some k ->
        resolveBatch refs w = (Ok rs, w')
        /\ ((exists e, signedUrlCache w !! k = Some e
                       /\ now w + SAFETY_BUFFER_MS < expiresAt e
                       /\ rs !! i = Some (url e))
            \/ (exists e, delayOf (firstOutcome w) < MGET_DEADLINE_MS
                  /\ redis_read (redis w) (now w) (redisKey k) = Some (RObject e)
                  /\ lookupInstant w + SAFETY_BUFFER_MS < expiresAt e
                  /\ rs !! i = Some (url e))
            \/ (exists v, signedUrlOf k (lookupInstant w) = Ok v /\ rs !! i = Some v)))
  /\ (forall refs w rs w',
        resolveBatch refs w = (Ok rs, w') ->
        exists new, trace w' = trace w ++ new
                    /\ Forall servedFresh new /\ Forall2 (answeredIn new) refs rs)
  /\ (forall ref w,
        exists new, trace (resolve ref w).2 = trace w ++ new /\ Forall servedFresh new)
  /\ (forall refs w,
        exists new, trace (resolveBatch refs w).2 = trace w ++ new /\ Forall servedFresh new)
  /\ (forall ref k w ms,
        truthy (parseR2Url ref) = Some k ->
        localStale w k -> firstOutcome w = Answers ms ->
        distributedStale w k (now w + Z.of_N ms) ->
        exists new,
          trace (resolve ref w).2 = trace w ++ new
          /\ signerCalls new = [signCall (now w + Z.of_N ms) k]
          /\ forall u w', resolve ref w = (Ok u, w') ->
                          signedUrlOf k (now w + Z.of_N ms) = Ok u)
  /\ (forall refs w i u k,
        (delayOf (firstOutcome w) < MGET_DEADLINE_MS -> answered (firstOutcome w) = true) ->
        refs !! i = Some u -> truthy (parseR2Url u) = Some k ->
        localStale w k -> distributedStale w k (lookupInstant w) ->
        exists new,
          trace (resolveBatch refs w).2 = trace w ++ new
          /\ signCall (lookupInstant w) k ∈ signerCalls new).
Proof.
  split; [|split; [|split; [|split; [|split; [|split]]]]].
  - intros ref k w u w' Hk Hrun. rewrite (resolve_key ref k w Hk) in Hrun.
    unfold firstOutcome, signCall, signedUrlOf.
    key_split k w; inversion Hrun; subst; clear Hrun; cbn [trace set_trace];
      (eexists; split; [reflexivity|]).
    + apply memFresh_some in Hmem as [Hin Hlt]. left. exists e. auto.
    + apply redisFresh_some in Hred as [Hin Hlt]. right. left. exists ms, c. auto.
    + right. right. exists ms. rewrite Hsig. auto.
  - intros refs w rs w' i u k Hrun Hi Hk. split; [apply batch_returns, Hrun|].
    destruct (batch_position refs w rs w' i u k Hrun Hi Hk)
      as [(e & He & Hrs)|[(_ & e & He & Hrs)|(_ & _ & v & Hv & Hrs)]].
    + apply memFresh_some in He as [Hin Hlt]. left. exists e. auto.
    + apply redisFresh_some in He as [Hin Hlt]. right. left. exists e.
      unfold seenBy in Hin. destruct (Z.ltb_spec (delayOf (firstOutcome w)) MGET_DEADLINE_MS);
        [auto|discriminate Hin].
    + right. right. exists v. auto.
  - intros refs w rs w' Hrun.
    destruct (run_accounts (resolveBatch refs) (answersFor (trace w) refs) w)
      as (new & Htr & Hfresh & Hacc); [apply ok_resolveBatch_acc; auto|].
    rewrite Hrun in *. cbn [fst snd] in *. exists new. split; [exact Htr|].
    split; [exact Hfresh|]. destruct (Hacc rs eq_refl) as (recent & Htr' & Hall).
    rewrite Htr in Htr'. apply app_inv_head in Htr'. subst recent. exact Hall.
  - intros ref w. eapply run_serves_fresh. apply ok_resolve; auto.
  - intros refs w. eapply run_serves_fresh. apply ok_resolveBatch; auto.
  - intros ref k w ms Hk Hloc Hout Hdist. rewrite (resolve_key ref k w Hk).
    unfold firstOutcome in Hout.
    pose proof (stale_memFresh w k Hloc) as Hmem.
    pose proof (stale_redisFresh w k _ Hdist) as Hred. unfold signCall, signedUrlOf.
    destruct (getSignedUrl (objectCommand k) SIGNED_URL_EXPIRY (now w + Z.of_N ms))
      as [u|err] eqn:Hsig.
    + destruct (hd (Answers 0) (tl (net w))) as [ms'|ms'] eqn:Hset.
      * rewrite (key_signed k w _ _ _ Hmem Hout Hred Hsig Hset). cbn [snd trace].
        eexists. split; [reflexivity|]. split; [reflexivity|]. intros u' w' [= <- _]. reflexivity.
      * rewrite (key_set_rejected k w _ _ _ Hmem Hout Hred Hsig Hset). cbn [snd trace].
        eexists. split; [reflexivity|]. split; [reflexivity|]. intros u' w' Hrun. discriminate Hrun.
    + rewrite (key_signer_rejected k w _ _ Hmem Hout Hred Hsig). cbn [snd trace].
      eexists. split; [reflexivity|]. split; [reflexivity|]. intros u' w' Hrun. discriminate Hrun.
  - intros refs w i u k Hans Hu Hk Hloc Hdist.
    destruct (batch_body_signs refs w Hans) as (new & Htr & Hsigns).
    destruct (resolveBatch_after_body refs w) as [more Hmore].
    exists (new ++ more). split; [rewrite Hmore, Htr, app_assoc; reflexivity|].
    assert (Hin : (i, k) ∈ redisStill (seenBy w) (lookupInstant w)
                            (memMissing (signedUrlCache w) (now w) refs 0)).
    { apply list_elem_of_In, List.filter_In. split.
      - apply list_elem_of_In.
        apply (memMissing_complete (signedUrlCache w) (now w) refs 0 i u k Hu).
        unfold needsLookup. rewrite Hk, (stale_memFresh w k Hloc). reflexivity.
      - unfold unserved, seenBy. cbn [snd]. destruct (_ <? _); [|reflexivity].
        rewrite (stale_redisFresh w k _ Hdist). reflexivity. }
    rewrite signerCalls_app. apply elem_of_app. left.
    apply list_elem_of_In, List.filter_In. split; [|reflexivity].
    apply list_elem_of_In. exact (Hsigns _ Hin).
Qed.

(** ** The fallback *)

(** Whatever the [try] block throws, the batch is resolved again through
    [getAuthenticatedUrl], all references at once, from the world the
    block has left. *)
Lemma fallback_after_throw refs w e w1 :
  refs <> [] -> batch_body refs w = (Throw e, w1) ->
  resolveBatch refs w = promise_all (map getAuthenticatedUrl refs) w1.
Proof.
  intros Hne Hrun. unfold resolveBatch, getAuthenticatedUrls.
  destruct refs as [|u refs]; [congruence|]. unfold try_catch. rewrite Hrun. reflexivity.
Qed.

Lemma all_settled_ok {A} (rs : list (Result A)) l :
  all_settled rs = Ok l <-> rs = map Ok l.
Proof.
  revert l. induction rs as [|[a|e] rs IH]; intros l; cbn.
  - split; [intros [= <-]; reflexivity|]. destruct l; [reflexivity|discriminate].
  - destruct (all_settled rs) as [l'|e] eqn:Hl.
    + split.
      * intros [= <-]. cbn. f_equal. apply IH. reflexivity.
      * destruct l as [|a' l]; [discriminate|]. cbn. intros [= -> Hrs].
        apply IH in Hrs. injection Hrs as ->. reflexivity.
    + split; [discriminate|]. destruct l as [|a' l]; [discriminate|]. cbn. intros [= -> Hrs].
      apply IH in Hrs. discriminate Hrs.
  - split; [discriminate|]. destruct l; discriminate.
Qed.

(** [Promise.all] is all or nothing: one rejection rejects the whole. *)
Lemma promise_all_rejects {A} (ps : list (Async A)) w e :
  Throw e ∈ (finish_all (start_all ps w).1 (start_all ps w).2).1 ->
  exists e', (promise_all ps w).1 = Throw e'.
Proof.
  unfold promise_all. destruct (start_all ps w) as [ss w1]. cbn [fst snd].
  destruct (finish_all ss w1) as [rs w2]. cbn [fst snd]. intros Hin.
  destruct (all_settled rs) as [l|e'] eqn:Hl; [|eauto].
  apply all_settled_ok in Hl. subst rs. apply list_elem_of_fmap in Hin as (a & Ha & _).
  discriminate Ha.
Qed.

(** * The rest of the module, and its callers *)

(** ** Locators in general *)

(** [s.includes(c)] for a one-character [c]. *)
Fixpoint hasChar (c : ascii) (s : string) : bool :=
  match s with
  | EmptyString => false
  | String a s' => bool_decide (a = c) || hasChar c s'
  end.

(** [s.includes(p)] *)
Fixpoint includes (p s : string) : bool :=
  Js.startsWith p s ||
  match s with
  | EmptyString => false
  | String _ s' => includes p s'
  end.

Lemma append_cons (x : ascii) (a b : string) : String x a +:+ b = String x (a +:+ b).
Proof. reflexivity. Qed.

Lemma append_nil_l (a : string) : EmptyString +:+ a = a.
Proof. reflexivity. Qed.

Lemma append_assoc (a b c : string) : (a +:+ b) +:+ c = a +:+ (b +:+ c).
Proof. induction a as [|x a IH]; [reflexivity|]. rewrite !append_cons, IH. reflexivity. Qed.

Lemma append_nil_r (a : string) : a +:+ EmptyString = a.
Proof. induction a as [|x a IH]; [reflexivity|]. rewrite append_cons, IH. reflexivity. Qed.

Lemma rev_app_append (s acc : string) :
  String.rev_app s acc = String.rev_app s EmptyString +:+ acc.
Proof.
  revert acc. induction s as [|c s IH]; intros acc; cbn; [reflexivity|].
  rewrite (IH (String c acc)), (IH (String c EmptyString)). rewrite append_assoc. reflexivity.
Qed.

Lemma rev_cons (c : ascii) (cur : string) :
  String.rev (String c cur) = String.rev cur +:+ String c EmptyString.
Proof. unfold String.rev. cbn. apply rev_app_append. Qed.

Lemma split_go_nonempty sep cur s : Js.split_go sep cur s <> [].
Proof.
  revert cur. induction s as [|c s IH]; intros cur; cbn; [discriminate|].
  destruct (decide (c = sep)); [discriminate|apply IH].
Qed.

(** Up to the first separator [split] yields one piece. *)
Lemma split_go_piece sep (a b cur : string) :
  hasChar sep a = false ->
  Js.split_go sep cur (a +:+ String sep b)
  = (String.rev cur +:+ a) :: Js.split sep b.
Proof.
  revert cur. induction a as [|c a IH]; intros cur Ha.
  - rewrite append_nil_l, append_nil_r. cbn [Js.split_go].
    rewrite decide_True by reflexivity. reflexivity.
  - cbn in Ha. apply orb_false_iff in Ha as [Hc Ha].
    apply bool_decide_eq_false in Hc. rewrite append_cons. cbn [Js.split_go].
    rewrite decide_False by exact Hc.
    rewrite (IH _ Ha), rev_cons, append_assoc. reflexivity.
Qed.

Lemma split_go_whole sep (a cur : string) :
  hasChar sep a = false -> Js.split_go sep cur a = [String.rev cur +:+ a].
Proof.
  revert cur. induction a as [|c a IH]; intros cur Ha; cbn [Js.split_go].
  - rewrite append_nil_r. reflexivity.
  - cbn in Ha. apply orb_false_iff in Ha as [Hc Ha].
    apply bool_decide_eq_false in Hc.
    rewrite decide_False by exact Hc.
    rewrite (IH _ Ha), rev_cons, append_assoc. reflexivity.
Qed.

Lemma join_cons sep (p q : string) rest :
  Js.join sep (p :: q :: rest) = p +:+ sep +:+ Js.join sep (q :: rest).
Proof. reflexivity. Qed.

(** [s.split(sep).join(sep)] gives [s] back. *)
Lemma join_split_go sep (s cur : string) :
  Js.join (String sep EmptyString) (Js.split_go sep cur s) = String.rev cur +:+ s.
Proof.
  revert cur. induction s as [|c s IH]; intros cur; cbn [Js.split_go].
  - cbn [Js.join]. rewrite append_nil_r. reflexivity.
  - destruct (decide (c = sep)) as [->|Hc].
    + pose proof (split_go_nonempty sep EmptyString s) as Hne.
      specialize (IH EmptyString).
      destruct (Js.split_go sep EmptyString s) as [|p rest]; [contradiction|].
      rewrite join_cons, IH. reflexivity.
    + rewrite IH, rev_cons, append_assoc. reflexivity.
Qed.

Lemma join_split sep (s : string) :
  Js.join (String sep EmptyString) (Js.split sep s) = s.
Proof. apply (join_split_go sep s EmptyString). Qed.

(** The URL that [uploadFile] forms (line 108). *)
Definition r2Url (bucket fileName : string) : string :=
  "r2://" +:+ bucket +:+ "/" +:+ fileName.

Lemma parse_r2Url bucket fileName :
  hasChar "/" bucket = false -> parseR2Url (r2Url bucket fileName) = Some fileName.
Proof.
  intros Hb. unfold parseR2Url, r2Url.
  change (Js.startsWith "r2://" ("r2://" +:+ bucket +:+ "/" +:+ fileName)) with true.
  cbn match.
  change (Js.replace "r2://" EmptyString ("r2://" +:+ bucket +:+ "/" +:+ fileName))
    with (bucket +:+ String "/" fileName).
  unfold Js.split. rewrite (split_go_piece _ _ _ _ Hb). cbn [Js.shift tail].
  f_equal. apply (join_split "/"%char).
Qed.

Lemma parse_bucket bucket :
  hasChar "/" bucket = false -> parseR2Url ("r2://" +:+ bucket) = Some EmptyString.
Proof.
  intros Hb. unfold parseR2Url.
  change (Js.startsWith "r2://" ("r2://" +:+ bucket)) with true. cbn match.
  change (Js.replace "r2://" EmptyString ("r2://" +:+ bucket)) with bucket.
  unfold Js.split. rewrite (split_go_whole _ _ _ Hb). reflexivity.
Qed.

Lemma startsWith_split p s :
  Js.startsWith p s = true -> s = p +:+ Js.drop (String.length p) s.
Proof.
  revert s. induction p as [|a p IH]; intros s H; [reflexivity|].
  destruct s as [|b s]; [discriminate|]. cbn in H.
  destruct (decide (a = b)) as [->|]; [|discriminate].
  cbn [String.length Js.drop]. rewrite append_cons. f_equal. apply IH, H.
Qed.

Lemma startsWith_app_long p x y :
  (String.length p <= String.length x)%nat ->
  Js.startsWith p (x +:+ y) = Js.startsWith p x.
Proof.
  revert x. induction p as [|a p IH]; intros x Hlen; [reflexivity|].
  destruct x as [|b x]; [cbn in Hlen; lia|]. rewrite append_cons. cbn [Js.startsWith].
  destruct (decide (a = b)); [|reflexivity]. apply IH. cbn in Hlen. lia.
Qed.

Lemma length_append (a b : string) :
  String.length (a +:+ b) = (String.length a + String.length b)%nat.
Proof. induction a as [|x a IH]; [reflexivity|]. rewrite append_cons. cbn. rewrite IH. reflexivity. Qed.

Lemma span_until_spec sep s a b :
  Js.span_until sep s = (a, b) ->
  s = a +:+ b /\ hasChar sep a = false /\ (b = EmptyString \/ exists b', b = String sep b').
Proof.
  revert a b. induction s as [|c s IH]; intros a b H; cbn in H.
  - injection H as <- <-. auto.
  - destruct (decide (c = sep)) as [->|Hc].
    + injection H as <- <-. split; [reflexivity|]. split; [reflexivity|]. right. eauto.
    + destruct (Js.span_until sep s) as [a' b'] eqn:Hs. injection H as <- <-.
      destruct (IH a' b' eq_refl) as (-> & Ha & Hb).
      split; [reflexivity|]. split; [|exact Hb]. cbn.
      rewrite bool_decide_eq_false_2 by exact Hc. exact Ha.
Qed.

Lemma span_until_piece sep (a b : string) :
  hasChar sep a = false -> Js.span_until sep (a +:+ String sep b) = (a, String sep b).
Proof.
  induction a as [|c a IH]; intros Ha.
  - rewrite append_nil_l. cbn. rewrite decide_True by reflexivity. reflexivity.
  - cbn in Ha. apply orb_false_iff in Ha as [Hc Ha]. apply bool_decide_eq_false in Hc.
    rewrite append_cons. cbn [Js.span_until]. rewrite decide_False by exact Hc.
    rewrite (IH Ha). reflexivity.
Qed.

Lemma nonEmpty_true s : Js.nonEmpty s = true <-> s <> EmptyString.
Proof. destruct s; cbn; split; congruence. Qed.

(** The attempt of the legacy pattern at the start of
    [/file/<bucket>/<key>]. *)
Lemma legacy_match_here_shape bucket key :
  bucket <> EmptyString -> hasChar "/" bucket = false ->
  key <> EmptyString -> Js.noLineTerminator key = true ->
  legacy_match_here ("/file/" +:+ bucket +:+ "/" +:+ key) = Some key.
Proof.
  intros Hb Hs Hk Hl. unfold legacy_match_here.
  change (Js.startsWith "/file/" ("/file/" +:+ bucket +:+ "/" +:+ key)) with true.
  cbn match.
  change (Js.drop 6 ("/file/" +:+ bucket +:+ "/" +:+ key)) with (bucket +:+ String "/" key).
  rewrite (span_until_piece _ _ _ Hs).
  apply nonEmpty_true in Hb, Hk. rewrite Hb, Hk, Hl. reflexivity.
Qed.

Lemma legacy_match_here_sound s key :
  legacy_match_here s = Some key ->
  exists bucket, s = "/file/" +:+ bucket +:+ "/" +:+ key
    /\ bucket <> EmptyString /\ hasChar "/" bucket = false
    /\ key <> EmptyString /\ Js.noLineTerminator key = true.
Proof.
  unfold legacy_match_here. destruct (Js.startsWith "/file/" s) eqn:Hs; [|discriminate].
  apply startsWith_split in Hs. cbn [String.length] in Hs.
  destruct (Js.span_until "/" (Js.drop 6 s)) as [bucket rest] eqn:Hspan.
  apply span_until_spec in Hspan as (Hd & Hb & Hrest).
  destruct rest as [|c key']; [discriminate|].
  destruct Hrest as [|[b' [= -> ->]]]; [discriminate|].
  destruct (Js.nonEmpty bucket) eqn:Hne; [|discriminate].
  destruct (Js.nonEmpty b') eqn:Hnk; [|discriminate].
  destruct (Js.noLineTerminator b') eqn:Hl; [|discriminate].
  cbn. intros [= ->]. exists bucket. rewrite Hs at 1. rewrite Hd.
  split; [reflexivity|]. apply nonEmpty_true in Hne, Hnk. auto.
Qed.

Lemma legacy_match_sound s key :
  legacy_match s = Some key ->
  exists pre bucket, s = pre +:+ "/file/" +:+ bucket +:+ "/" +:+ key
    /\ bucket <> EmptyString /\ hasChar "/" bucket = false
    /\ key <> EmptyString /\ Js.noLineTerminator key = true.
Proof.
  induction s as [|c s IH]; cbn [legacy_match].
  - destruct (legacy_match_here EmptyString) eqn:H; [|discriminate].
    intros [= ->]. apply legacy_match_here_sound in H as (b & Hb & Hrest).
    exists EmptyString, b. auto.
  - destruct (legacy_match_here (String c s)) eqn:H.
    + intros [= ->]. apply legacy_match_here_sound in H as (b & Hb & Hrest).
      exists EmptyString, b. auto.
    + intros Hm. destruct (IH Hm) as (pre & b & -> & Hrest).
      exists (String c pre), b. auto.
Qed.

(** No attempt succeeds inside [pre] when the literal [/file/] does not
    occur before the one that follows [pre]. *)
Lemma legacy_match_skip pre rest :
  includes "/file/" (pre +:+ "/file") = false ->
  legacy_match (pre +:+ "/file/" +:+ rest) = legacy_match ("/file/" +:+ rest).
Proof.
  induction pre as [|c pre IH]; intros Hinc; [reflexivity|].
  rewrite append_cons in Hinc |- *. cbn [includes] in Hinc.
  apply orb_false_iff in Hinc as [Hhere Hinc].
  cbn [legacy_match]. unfold legacy_match_here at 1.
  replace (String c (pre +:+ "/file/" +:+ rest))
    with (String c (pre +:+ "/file") +:+ ("/" +:+ rest)).
  - rewrite startsWith_app_long, Hhere; [apply IH, Hinc|].
    cbn [String.length]. rewrite length_append. cbn. lia.
  - rewrite append_cons. f_equal. rewrite append_assoc. reflexivity.
Qed.

(** X1: the bucket of a reference is not looked at.  For a bucket name
    without [/], the parser reads from [r2://<bucket>/<key>] the key,
    whatever is in it, and resolving the reference is resolving that
    key in the configured bucket, whichever bucket the reference names;
    a reference that names a bucket and no key ([r2://<bucket>] or
    [r2://<bucket>/]) has the empty key and comes back unchanged with
    the world untouched. *)
Theorem reference_bucket_is_not_looked_at (bucket key : string) (w : World) :
  hasChar "/" bucket = false ->
  parseR2Url (r2Url bucket key) = Some key
  /\ (key <> EmptyString ->
      resolve (r2Url bucket key) w = await (getSignedDownloadUrl key) w)
  /\ resolve (r2Url bucket EmptyString) w = (Ok (r2Url bucket EmptyString), w)
  /\ resolve ("r2://" +:+ bucket) w = (Ok ("r2://" +:+ bucket), w).
Proof.
  intros Hb. pose proof (parse_r2Url bucket key Hb) as Hp. split; [exact Hp|]. split; [|split].
  - intros Hne. apply resolve_key. rewrite Hp. cbn.
    apply nonEmpty_true in Hne. rewrite Hne. reflexivity.
  - apply resolve_opaque. rewrite (parse_r2Url bucket EmptyString Hb). reflexivity.
  - apply resolve_opaque. rewrite (parse_bucket bucket Hb). reflexivity.
Qed.

(** X2: the legacy shape.  For a URL that does not start with [r2://],
    whatever key the parser yields is the end of the URL after a
    [/file/<bucket>/], with a non-empty bucket segment free of [/] and a
    non-empty key free of line terminators; and for a URL
    [<pre>/file/<bucket>/<key>] of that shape in which [/file/] does not
    occur before its place after [pre], the parser yields [key]. *)
Theorem legacy_url_key (url : string) :
  Js.startsWith "r2://" url = false ->
  (forall key, parseR2Url url = Some key ->
     exists pre bucket, url = pre +:+ "/file/" +:+ bucket +:+ "/" +:+ key
       /\ bucket <> EmptyString /\ hasChar "/" bucket = false
       /\ key <> EmptyString /\ Js.noLineTerminator key = true)
  /\ (forall pre bucket key,
        url = pre +:+ "/file/" +:+ bucket +:+ "/" +:+ key ->
        includes "/file/" (pre +:+ "/file") = false ->
        bucket <> EmptyString -> hasChar "/" bucket = false ->
        key <> EmptyString -> Js.noLineTerminator key = true ->
        parseR2Url url = Some key).
Proof.
  intros Hs. unfold parseR2Url. rewrite Hs. split.
  - intros key. apply legacy_match_sound.
  - intros pre bucket key -> Hinc Hb Hslash Hk Hl.
    rewrite legacy_match_skip by exact Hinc.
    assert (Hhere : legacy_match_here ("/file/" +:+ bucket +:+ "/" +:+ key) = Some key)
      by (apply legacy_match_here_shape; assumption).
    destruct ("/file/" +:+ bucket +:+ "/" +:+ key); cbn [legacy_match]; rewrite Hhere; reflexivity.
Qed.

(** ** The batch on every path *)

(** A promise that settles at once to [a] without touching the world. *)
Definition settlesTo {A} (p : Async A) (a : A) : Prop :=
  forall w, p w = (Ok (Settled a), w).

Lemma start_all_shape {A} (ps : list (Async A)) : forall w,
  length (start_all ps w).1 = length ps
  /\ forall i p a, ps !! i = Some p -> settlesTo p a ->
       (start_all ps w).1 !! i = Some (Ok (Settled a)).
Proof.
  induction ps as [|p ps IH]; intros w; [split; [reflexivity|intros i p a Hi; discriminate Hi]|].
  cbn [start_all]. destruct (p w) as [s w1] eqn:Hp.
  specialize (IH w1). destruct (start_all ps w1) as [ss w2]. cbn [fst] in *.
  destruct IH as [Hlen Hpos]. split; [cbn; rewrite Hlen; reflexivity|].
  intros [|i] q a Hi Hq; cbn in Hi |- *.
  - injection Hi as <-. rewrite Hq in Hp. injection Hp as <- _. reflexivity.
  - apply (Hpos i q a Hi Hq).
Qed.

Lemma finish_all_shape {A} (ss : list (Result (Step A))) : forall w,
  length (finish_all ss w).1 = length ss
  /\ forall i a, ss !! i = Some (Ok (Settled a)) -> (finish_all ss w).1 !! i = Some (Ok a).
Proof.
  induction ss as [|s ss IH]; intros w; [split; [reflexivity|intros i a Hi; discriminate Hi]|].
  cbn [finish_all].
  destruct (match s with
            | Ok (Settled a) => (Ok a, w)
            | Ok (Suspended rest) => rest w
            | Throw e => (Throw e, w)
            end) as [r w1] eqn:Hs.
  specialize (IH w1). destruct (finish_all ss w1) as [rs w2]. cbn [fst] in *.
  destruct IH as [Hlen Hpos]. split; [cbn; rewrite Hlen; reflexivity|].
  intros [|i] a Hi; cbn in Hi |- *.
  - injection Hi as ->. injection Hs as <- _. reflexivity.
  - apply (Hpos i a Hi).
Qed.

(** When [Promise.all] yields its list, the list is as long as the list of
    promises, and a promise that had settled at once stands in it with
    its value. *)
Lemma promise_all_shape {A} (ps : list (Async A)) w l w' :
  promise_all ps w = (Ok l, w') ->
  length l = length ps
  /\ forall i p a, ps !! i = Some p -> settlesTo p a -> l !! i = Some a.
Proof.
  unfold promise_all. pose proof (start_all_shape ps w) as [Hlen1 Hpos1].
  destruct (start_all ps w) as [ss w1]. cbn [fst] in *.
  pose proof (finish_all_shape ss w1) as [Hlen2 Hpos2].
  destruct (finish_all ss w1) as [rs w2]. cbn [fst] in *.
  intros [= Hall <-]. apply all_settled_ok in Hall. subst rs.
  rewrite length_map in Hlen2. split; [congruence|].
  intros i p a Hi Hp. specialize (Hpos2 i a (Hpos1 i p a Hi Hp)).
  rewrite list_lookup_fmap in Hpos2. destruct (l !! i) as [a'|]; [|discriminate].
  cbn in Hpos2. congruence.
Qed.

Lemma opaque_settles ref :
  truthy (parseR2Url ref) = None -> settlesTo (getAuthenticatedUrl ref) ref.
Proof. intros H w. unfold getAuthenticatedUrl. rewrite H. reflexivity. Qed.

Lemma finalValue_opaque c t0 seen t1 u :
  truthy (parseR2Url u) = None -> finalValue c t0 seen t1 u = u.
Proof. intros H. unfold finalValue. rewrite H. reflexivity. Qed.

(** The result of a batch that returns, on whichever path. *)
Lemma batch_aligned refs rs w w' :
  resolveBatch refs w = (Ok rs, w') ->
  length rs = length refs
  /\ forall i u, refs !! i = Some u -> truthy (parseR2Url u) = None -> rs !! i = Some u.
Proof.
  intros Hrun. destruct refs as [|u0 refs'] eqn:Hrefs.
  { cbn in Hrun. injection Hrun as <- _. split; [reflexivity|]. intros i u Hi. discriminate Hi. }
  assert (Hne : u0 :: refs' <> []) by discriminate.
  rewrite <- Hrefs in *. clear Hrefs.
  destruct (batch_body refs w) as [[rs0|e] w1] eqn:Hbody.
  - rewrite (batch_returns refs w rs0 w1 Hbody) in Hrun. injection Hrun as <- <-.
    apply batch_body_inv in Hbody. subst rs0. split; [apply length_map|].
    intros i u Hi Hu. rewrite list_lookup_fmap, Hi. cbn. f_equal.
    apply finalValue_opaque, Hu.
  - rewrite (fallback_after_throw refs w e w1) in Hrun; [|exact Hne|exact Hbody].
    apply promise_all_shape in Hrun as [Hlen Hpos]. rewrite length_map in Hlen.
    split; [exact Hlen|]. intros i u Hi Hu.
    apply (Hpos i (getAuthenticatedUrl u) u); [|apply opaque_settles, Hu].
    rewrite list_lookup_fmap, Hi. reflexivity.
Qed.

(** X3: on every path, the fallback and the deadline included, a batch
    that returns has returned one entry for each reference, in the order
    of the references, and a reference that has no key (unrecognized, or
    with an empty key) stands unchanged at its own position. *)
Theorem batch_result_is_aligned (refs rs : list string) (w w' : World) :
  resolveBatch refs w = (Ok rs, w') ->
  length rs = length refs
  /\ forall i u, refs !! i = Some u -> truthy (parseR2Url u) = None -> rs !! i = Some u.
Proof. apply batch_aligned. Qed.

(** ** A batch that the local tier serves, and what a batch leaves there *)

(** The events of a call that only consults the local tier. *)
Definition localOnly (ev : Event) : bool :=
  match ev with
  | CacheGet _ => true
  | Serve LocalTier _ _ _ => true
  | _ => false
  end.

Lemma memEvents_localOnly c t refs : Forall (fun ev => localOnly ev = true) (flat_map (memEventsOf c t) refs).
Proof.
  induction refs as [|u refs IH]; [constructor|]. cbn [flat_map].
  apply Forall_app. split; [|exact IH]. unfold memEventsOf.
  destruct (truthy (parseR2Url u)) as [k|]; [|constructor].
  destruct (memFresh (c !! k) t); repeat constructor.
Qed.

Lemma memMissing_nil c t refs : forall index,
  (forall u, u ∈ refs -> needsLookup c t u = None) -> memMissing c t refs index = [].
Proof.
  induction refs as [|u refs IH]; intros index Hall; [reflexivity|].
  cbn [memMissing]. rewrite (Hall u) by (apply elem_of_cons; auto).
  apply IH. intros u' Hin. apply Hall, elem_of_cons. auto.
Qed.

(** With nothing to look up the batch is over after the memory scan. *)
Lemma batch_local refs w seen t1 :
  (forall u, u ∈ refs -> needsLookup (signedUrlCache w) (now w) u = None) ->
  resolveBatch refs w
  = (Ok (map (finalValue (signedUrlCache w) (now w) seen t1) refs),
     set_trace (trace w ++ flat_map (memEventsOf (signedUrlCache w) (now w)) refs) w).
Proof.
  intros Hall. pose proof (memMissing_nil _ _ _ 0%nat Hall) as Hnil.
  assert (Hbody : batch_body refs w
    = (Ok (memResults (signedUrlCache w) (now w) refs 0 (replicate (length refs) EmptyString)),
       set_trace (trace w ++ flat_map (memEventsOf (signedUrlCache w) (now w)) refs) w)).
  { unfold batch_body. erewrite bind_run by apply scanMemory_run.
    cbn [fst snd]. rewrite app_nil_l, Hnil. reflexivity. }
  rewrite (batch_returns _ _ _ _ Hbody). f_equal. f_equal.
  apply agrees_all.
  pose proof (memResults_agrees (signedUrlCache w) (now w) seen t1 refs) as Hag.
  rewrite Hnil in Hag. exact Hag.
Qed.

Lemma needsLookup_fresh (c : gmap string SignedUrlCache) t u :
  (forall k, truthy (parseR2Url u) = Some k ->
     exists e, c !! k = Some e /\ t + SAFETY_BUFFER_MS < expiresAt e) ->
  needsLookup c t u = None.
Proof.
  intros H. unfold needsLookup. destruct (truthy (parseR2Url u)) as [k|]; [|reflexivity].
  destruct (H k eq_refl) as (e & He & Hlt). rewrite (memFresh_intro _ _ _ _ He Hlt). reflexivity.
Qed.

Lemma needsLookup_localValue c t u :
  needsLookup c t u = None -> exists v, localValue c t u = Some v.
Proof.
  unfold needsLookup, localValue. destruct (truthy (parseR2Url u)) as [k|]; [|eauto].
  destruct (memFresh (c !! k) t); [eauto|discriminate].
Qed.

(** X4: when the local tier holds, inside its window, an entry for the
    key of every reference of a batch, the batch is answered from the
    local tier alone: position by position the URL of the local entry
    (the reference itself where it has no key); nothing changes in the
    world but the trace, which gains local reads only, so there is no
    signer call and no call to the distributed tier, and the clock does
    not move. *)
Theorem batch_served_from_memory (refs : list string) (w : World) :
  (forall u k, u ∈ refs -> truthy (parseR2Url u) = Some k ->
     exists e, signedUrlCache w !! k = Some e /\ now w + SAFETY_BUFFER_MS < expiresAt e) ->
  exists rs new,
    resolveBatch refs w = (Ok rs, set_trace (trace w ++ new) w)
    /\ Forall2 (fun u v => localValue (signedUrlCache w) (now w) u = Some v) refs rs
    /\ Forall (fun ev => localOnly ev = true) new
    /\ signerCalls new = [].
Proof.
  intros Hall.
  assert (Hnone : forall u, u ∈ refs -> needsLookup (signedUrlCache w) (now w) u = None).
  { intros u Hu. apply needsLookup_fresh. intros k Hk. apply (Hall u k Hu Hk). }
  eexists _, _. split; [apply (batch_local refs w (fun _ => None) 0 Hnone)|].
  split; [|split; [apply memEvents_localOnly|apply signerCalls_mem]].
  apply Forall2_fmap_r, Forall_Forall2_diag, Forall_forall. intros u Hu.
  destruct (needsLookup_localValue _ _ _ (Hnone u Hu)) as [v Hv].
  unfold compose. rewrite (localValue_final _ _ _ _ _ _ Hv). exact Hv.
Qed.

Lemma redisBackfill_lookup seen t missing : forall (c : gmap string SignedUrlCache) k,
  redisBackfill seen t missing c !! k
  = if bool_decide (k ∈ map snd missing) then
      match redisFresh (seen k) t with
      | Some e => Some {| url := url e; expiresAt := expiresAt e |}
      | None => c !! k
      end
    else c !! k.
Proof.
  induction missing as [|m missing IH]; intros c k.
  - cbn. rewrite bool_decide_eq_false_2 by apply not_elem_of_nil. reflexivity.
  - cbn [redisBackfill map]. rewrite IH. destruct (decide (k = m.2)) as [->|Hne].
    + rewrite (bool_decide_eq_true_2 (m.2 ∈ m.2 :: _)) by (apply elem_of_cons; auto).
      destruct (redisFresh (seen m.2) t) as [e|] eqn:He.
      * destruct (bool_decide _); [reflexivity|apply lookup_insert_eq].
      * destruct (bool_decide _); reflexivity.
    + assert (Hc : forall c' : gmap string SignedUrlCache,
                match redisFresh (seen m.2) t with
                | Some e => <[m.2 := {| url := url e; expiresAt := expiresAt e |}]> c'
                | None => c'
                end !! k = c' !! k).
      { intros c'. destruct (redisFresh (seen m.2) t); [|reflexivity].
        apply lookup_insert_ne. congruence. }
      rewrite Hc. destruct (decide (k ∈ map snd missing)) as [Hin|Hnin].
      * rewrite !bool_decide_eq_true_2; [reflexivity|apply elem_of_cons; auto|exact Hin].
      * rewrite !bool_decide_eq_false_2; [reflexivity| |exact Hnin].
        intros Hin. apply elem_of_cons in Hin as [?|?]; [congruence|contradiction].
Qed.

Lemma signBackfill_lookup ex t still : forall (c : gmap string SignedUrlCache) k,
  signBackfill ex t still c !! k
  = if bool_decide (k ∈ map snd still) then
      match signedUrlOf k t with
      | Ok u => Some {| url := u; expiresAt := ex |}
      | Throw _ => c !! k
      end
    else c !! k.
Proof.
  induction still as [|m still IH]; intros c k.
  - cbn. rewrite bool_decide_eq_false_2 by apply not_elem_of_nil. reflexivity.
  - cbn [signBackfill map]. rewrite IH. destruct (decide (k = m.2)) as [->|Hne].
    + rewrite (bool_decide_eq_true_2 (m.2 ∈ m.2 :: _)) by (apply elem_of_cons; auto).
      destruct (signedUrlOf m.2 t) as [u|err] eqn:Hu.
      * destruct (bool_decide _); [reflexivity|apply lookup_insert_eq].
      * destruct (bool_decide _); reflexivity.
    + assert (Hc : forall c' : gmap string SignedUrlCache,
                match signedUrlOf m.2 t with
                | Ok u => <[m.2 := {| url := u; expiresAt := ex |}]> c'
                | Throw _ => c'
                end !! k = c' !! k).
      { intros c'. destruct (signedUrlOf m.2 t); [|reflexivity].
        apply lookup_insert_ne. congruence. }
      rewrite Hc. destruct (decide (k ∈ map snd still)) as [Hin|Hnin].
      * rewrite !bool_decide_eq_true_2; [reflexivity|apply elem_of_cons; auto|exact Hin].
      * rewrite !bool_decide_eq_false_2; [reflexivity| |exact Hnin].
        intros Hin. apply elem_of_cons in Hin as [?|?]; [congruence|contradiction].
Qed.

(** The local tier after the signing phase. *)
Lemma signRemaining_cache results still w :
  Forall (signerAnswers (now w)) still ->
  exists rs w',
    signRemaining results still w = (Ok rs, w')
    /\ now w' = now w + signingSpan (now w) still
    /\ signedUrlCache w'
       = signBackfill (now w + SIGNED_URL_CACHE_DURATION) (now w) still (signedUrlCache w).
Proof.
  intros Hok. destruct still as [|m still].
  - exists results, w. cbn. rewrite Z.add_0_r. repeat split; reflexivity.
  - unfold signRemaining.
    rewrite (bind_run Date_now _ w (now w) w eq_refl).
    erewrite bind_run; [|rewrite promise_all_sign, (all_settled_sign_ok _ _ _ Hok); reflexivity].
    rewrite length_map. cbn [length Nat.ltb Nat.leb].
    match goal with |- context [pipeline_exec ?ws] =>
      match goal with |- context [bind _ _ ?w1] =>
        destruct (pipeline_detached_run ws w1) as (w' & Hrun & Hnow & Hcache & _ & _) end end.
    erewrite bind_run; [|exact Hrun].
    eexists _, w'. split; [reflexivity|]. split; [exact Hnow|exact Hcache].
Qed.

(** The local tier after a batch that went through its [try] block. *)
Lemma batch_body_cache refs w :
  let c := signedUrlCache w in
  let t0 := now w in
  let missing := memMissing c t0 refs 0 in
  let t1 := lookupInstant w in
  let seen := seenBy w in
  (missing <> [] -> delayOf (firstOutcome w) < MGET_DEADLINE_MS ->
   answered (firstOutcome w) = true) ->
  Forall (signerAnswers t1) (redisStill seen t1 missing) ->
  exists rs w',
    batch_body refs w = (Ok rs, w')
    /\ now w <= now w'
    /\ signedUrlCache w'
       = signBackfill (t1 + SIGNED_URL_CACHE_DURATION) t1 (redisStill seen t1 missing)
           (redisBackfill seen t1 missing c).
Proof.
  intros c t0 missing t1 seen Hans Hsig.
  assert (Ht : t0 <= t1).
  { subst t0 t1. unfold lookupInstant.
    destruct (firstOutcome w); cbn [delayOf]; destruct (_ <? _); unfold MGET_DEADLINE_MS; lia. }
  unfold batch_body. erewrite bind_run by apply scanMemory_run.
  cbn [fst snd]. rewrite app_nil_l. fold c t0 missing in Hsig |- *.
  destruct missing as [|m0 missing'] eqn:Hmiss.
  - eexists _, _. split; [reflexivity|]. cbn [now signedUrlCache set_trace].
    split; [fold t0; lia|reflexivity].
  - set (w1 := set_trace _ w).
    assert (Hans1 : delayOf (firstOutcome w1) < MGET_DEADLINE_MS ->
                    answered (firstOutcome w1) = true) by (apply Hans; discriminate).
    erewrite bind_run by (apply lookupMissing_run; exact Hans1).
    cbn [fst snd].
    change (seenBy w1) with seen. change (lookupInstant w1) with t1.
    set (w2 := Build_World _ _ _ _ _).
    destruct (signRemaining_cache
                (redisResults seen t1 (m0 :: missing')
                   (memResults c t0 refs 0 (replicate (length refs) EmptyString)))
                (redisStill seen t1 (m0 :: missing')) w2 Hsig)
      as (rs & w' & Hrun & Hnow & Hcache).
    rewrite Hrun. exists rs, w'. split; [reflexivity|].
    rewrite Hnow, Hcache. subst w2 w1. cbn [now signedUrlCache set_trace].
    split; [|reflexivity]. fold t0.
    pose proof (signingSpan_nonneg t1 (redisStill seen t1 (m0 :: missing'))). lia.
Qed.

Lemma needsLookup_some c t u k :
  needsLookup c t u = Some k <-> truthy (parseR2Url u) = Some k /\ memFresh (c !! k) t = None.
Proof.
  unfold needsLookup. destruct (truthy (parseR2Url u)) as [k'|].
  - destruct (memFresh (c !! k') t) eqn:Hm; split.
    + discriminate.
    + intros [[= ->] Hn]. congruence.
    + intros [= ->]. auto.
    + intros [[= ->] _]. reflexivity.
  - split; [discriminate|]. intros [H _]. discriminate H.
Qed.

Lemma missing_key c t refs index k :
  k ∈ map snd (memMissing c t refs index) -> memFresh (c !! k) t = None.
Proof.
  intros Hin. apply list_elem_of_fmap in Hin as (m & -> & Hin).
  destruct (memMissing_sound _ _ _ _ _ Hin) as (j & u & _ & _ & Hk).
  apply needsLookup_some in Hk. apply Hk.
Qed.

Lemma still_subset seen t missing (k : string) :
  k ∈ map snd (redisStill seen t missing) ->
  k ∈ map snd missing /\ redisFresh (seen k) t = None.
Proof.
  intros Hin. apply list_elem_of_fmap in Hin as (m & -> & Hin).
  apply list_elem_of_In, List.filter_In in Hin as [Hin Hun]. split.
  - apply list_elem_of_fmap. exists m. split; [reflexivity|apply list_elem_of_In, Hin].
  - unfold unserved in Hun. destruct (redisFresh (seen m.2) t); [discriminate|reflexivity].
Qed.

(** What a batch leaves in the local tier for the key of each of its
    references: an entry with the URL it has returned for it. *)
Lemma batch_leaves_entry c t0 seen t1 refs u k :
  u ∈ refs -> truthy (parseR2Url u) = Some k ->
  Forall (signerAnswers t1) (redisStill seen t1 (memMissing c t0 refs 0)) ->
  exists e,
    signBackfill (t1 + SIGNED_URL_CACHE_DURATION) t1
      (redisStill seen t1 (memMissing c t0 refs 0))
      (redisBackfill seen t1 (memMissing c t0 refs 0) c) !! k = Some e
    /\ url e = finalValue c t0 seen t1 u
    /\ (expiresAt e = t1 + SIGNED_URL_CACHE_DURATION \/ t0 + SAFETY_BUFFER_MS < expiresAt e
        \/ t1 + SAFETY_BUFFER_MS < expiresAt e).
Proof.
  intros Hu Hk Hsig. rewrite signBackfill_lookup, redisBackfill_lookup.
  unfold finalValue. rewrite Hk.
  destruct (memFresh (c !! k) t0) as [e|] eqn:Hm.
  - rewrite bool_decide_eq_false_2.
    2:{ intros Hin. apply still_subset in Hin as [Hin _]. apply missing_key in Hin. congruence. }
    rewrite bool_decide_eq_false_2.
    2:{ intros Hin. apply missing_key in Hin. congruence. }
    apply memFresh_some in Hm as [-> Hlt]. exists e. auto.
  - assert (Hin : k ∈ map snd (memMissing c t0 refs 0)).
    { apply list_elem_of_lookup in Hu as [j Hj].
      apply list_elem_of_fmap. exists (j, k). split; [reflexivity|].
      apply (memMissing_complete c t0 refs 0 j u k Hj). apply needsLookup_some. auto. }
    destruct (redisFresh (seen k) t1) as [e|] eqn:He.
    + rewrite bool_decide_eq_false_2.
      2:{ intros Hin'. apply still_subset in Hin' as [_ Hn]. congruence. }
      rewrite (bool_decide_eq_true_2 _ Hin). apply redisFresh_some in He as [_ Hlt].
      eexists. split; [reflexivity|]. cbn. auto.
    + assert (Hin' : k ∈ map snd (redisStill seen t1 (memMissing c t0 refs 0))).
      { apply list_elem_of_fmap in Hin as (m & -> & Hin).
        apply list_elem_of_fmap. exists m. split; [reflexivity|].
        apply list_elem_of_In, List.filter_In. split; [apply list_elem_of_In, Hin|].
        unfold unserved. rewrite He. reflexivity. }
      rewrite (bool_decide_eq_true_2 _ Hin').
      apply list_elem_of_fmap in Hin' as (m & -> & Hm').
      rewrite Forall_forall in Hsig. destruct (Hsig m Hm') as [v Hv].
      rewrite Hv. eexists. split; [reflexivity|]. cbn. auto.
Qed.

(** X5: a batch warms the local tier.  When the bulk read does not reject
    before the deadline and the signer answers for the keys of the
    references, the batch returns, and it leaves in the local tier, for
    the key of each of its references, an entry with the URL it has
    returned for that reference.  So in any later world that has this
    local tier, with these entries inside their window, the same batch
    and each single [resolve] return the same URLs again from the local
    tier alone: no signer call, no call to the distributed tier. *)
Theorem batch_warms_the_local_tier (refs : list string) (w : World) :
  (delayOf (firstOutcome w) < MGET_DEADLINE_MS -> answered (firstOutcome w) = true) ->
  (forall u k, u ∈ refs -> truthy (parseR2Url u) = Some k ->
     exists v, getSignedUrl (objectCommand k) SIGNED_URL_EXPIRY (lookupInstant w) = Ok v) ->
  exists rs w1,
    resolveBatch refs w = (Ok rs, w1)
    /\ length rs = length refs
    /\ (forall i u k, refs !! i = Some u -> truthy (parseR2Url u) = Some k ->
          exists e, signedUrlCache w1 !! k = Some e /\ rs !! i = Some (url e))
    /\ forall w2,
         signedUrlCache w2 = signedUrlCache w1 ->
         (forall u k e, u ∈ refs -> truthy (parseR2Url u) = Some k ->
            signedUrlCache w1 !! k = Some e -> now w2 + SAFETY_BUFFER_MS < expiresAt e) ->
         (exists new,
            resolveBatch refs w2 = (Ok rs, set_trace (trace w2 ++ new) w2)
            /\ Forall (fun ev => localOnly ev = true) new)
         /\ (forall i u, refs !! i = Some u ->
               exists v new,
                 rs !! i = Some v
                 /\ resolve u w2 = (Ok v, set_trace (trace w2 ++ new) w2)
                 /\ Forall (fun ev => localOnly ev = true) new).
Proof.
  intros Hans0 Hsig0.
  set (missing := memMissing (signedUrlCache w) (now w) refs 0).
  assert (Hans : missing <> [] -> delayOf (firstOutcome w) < MGET_DEADLINE_MS ->
                 answered (firstOutcome w) = true) by (intros _; exact Hans0).
  assert (Hsig : Forall (signerAnswers (lookupInstant w))
                   (redisStill (seenBy w) (lookupInstant w) missing)).
  { apply Forall_forall. intros m Hm.
    apply list_elem_of_In, List.filter_In in Hm as [Hm _]. apply list_elem_of_In in Hm.
    destruct (memMissing_sound _ _ _ _ _ Hm) as (j & u & _ & Hj & Hk).
    apply needsLookup_some in Hk as [Hk _].
    apply (Hsig0 u m.2); [eapply list_elem_of_lookup_2, Hj|exact Hk]. }
  subst missing.
  destruct (batch_body_cache refs w Hans Hsig) as (rs & w1 & Hrun & _ & Hcache).
  pose proof (batch_body_inv _ _ _ _ Hrun) as Hrs.
  set (F := finalValue (signedUrlCache w) (now w) (seenBy w) (lookupInstant w)) in *.
  assert (Hentry : forall u k, u ∈ refs -> truthy (parseR2Url u) = Some k ->
            exists e, signedUrlCache w1 !! k = Some e /\ url e = F u).
  { intros u k Hu Hk. rewrite Hcache.
    destruct (batch_leaves_entry _ _ _ _ _ u k Hu Hk Hsig) as (e & He & Hurl & _). eauto. }
  exists rs, w1. split; [apply batch_returns, Hrun|].
  split; [rewrite Hrs; apply length_map|]. split.
  { intros i u k Hi Hk. destruct (Hentry u k) as (e & He & Hurl); [eapply list_elem_of_lookup_2, Hi|exact Hk|].
    exists e. split; [exact He|]. rewrite Hrs, list_lookup_fmap, Hi, Hurl. reflexivity. }
  intros w2 Hc2 Hwin.
  assert (Hloc : forall u, u ∈ refs ->
            localValue (signedUrlCache w2) (now w2) u = Some (F u)).
  { intros u Hu. unfold localValue. destruct (truthy (parseR2Url u)) as [k|] eqn:Hk.
    - destruct (Hentry u k Hu Hk) as (e & He & Hurl). rewrite Hc2.
      rewrite (memFresh_intro _ _ _ _ He (Hwin u k e Hu Hk He)). congruence.
    - subst F. rewrite (finalValue_opaque _ _ _ _ _ Hk). reflexivity. }
  split.
  - eexists. split; [|apply memEvents_localOnly].
    rewrite (batch_local refs w2 (fun _ => None) 0).
    + f_equal. f_equal. rewrite Hrs. apply map_ext_in. intros u Hu.
      apply (localValue_final _ _ _ _ _ _ (Hloc u (proj2 (list_elem_of_In _ _) Hu))).
    + intros u Hu. specialize (Hloc u Hu). unfold localValue, needsLookup in *.
      destruct (truthy (parseR2Url u)); [|reflexivity].
      destruct (memFresh _ _); [reflexivity|discriminate].
  - intros i u Hi. assert (Hu : u ∈ refs) by (eapply list_elem_of_lookup_2, Hi).
    exists (F u). specialize (Hloc u Hu). unfold localValue in Hloc.
    destruct (truthy (parseR2Url u)) as [k|] eqn:Hk.
    + destruct (memFresh (signedUrlCache w2 !! k) (now w2)) as [e|] eqn:Hm; [|discriminate].
      injection Hloc as Hurl. eexists. split; [rewrite Hrs, list_lookup_fmap, Hi; reflexivity|].
      rewrite (resolve_key u k w2 Hk), (key_local k w2 e Hm), Hurl.
      split; [reflexivity|]. repeat constructor.
    + exists []. split; [rewrite Hrs, list_lookup_fmap, Hi; reflexivity|].
      rewrite (resolve_opaque u w2 Hk). injection Hloc as <-.
      split; [|constructor]. rewrite app_nil_r. destruct w2; reflexivity.
Qed.

(** ** The margin between the recorded and the real expiry *)

(** The entry [e] holds a URL that a signer call of the trace has
    yielded with a validity of [SIGNED_URL_EXPIRY] seconds, and it
    records as its expiry the cache duration added to a clock reading
    between that call and the settling of its promise. *)
Definition backed (tr : list Event) (e : SignedUrlCache) : Prop :=
  exists cmd ts,
    Sign cmd SIGNED_URL_EXPIRY ts (Ok (url e)) ∈ tr
    /\ ts + SIGNED_URL_CACHE_DURATION <= expiresAt e
         <= ts + Z.of_N (signingTime cmd SIGNED_URL_EXPIRY ts) + SIGNED_URL_CACHE_DURATION.

Definition tiersBacked (w : World) : Prop :=
  (forall k e, signedUrlCache w !! k = Some e -> backed (trace w) e)
  /\ (forall k e d, redis w !! k = Some (RObject e, d) -> backed (trace w) e).

(** The validity that is left at [t] of a URL signed at [ts] for
    [SIGNED_URL_EXPIRY] seconds. *)
Definition validityLeft (ts t : Z) : Z := ts + SIGNED_URL_EXPIRY * 1000 - t.

(** A URL served at [t] of which more than 15 minutes of validity are
    left then, less the time its signer call took. *)
Definition servedWithMargin (tr : list Event) (ev : Event) : Prop :=
  match ev with
  | Serve _ _ e t =>
      exists cmd ts,
        Sign cmd SIGNED_URL_EXPIRY ts (Ok (url e)) ∈ tr
        /\ ts + SIGNED_URL_CACHE_DURATION <= expiresAt e
             <= ts + Z.of_N (signingTime cmd SIGNED_URL_EXPIRY ts) + SIGNED_URL_CACHE_DURATION
        /\ validityLeft ts t > 15 * 60 * 1000 - Z.of_N (signingTime cmd SIGNED_URL_EXPIRY ts)
  | _ => True
  end.

Lemma backed_mono tr tr' e : backed tr e -> backed (tr ++ tr') e.
Proof.
  intros (cmd & ts & Hin & He). exists cmd, ts. split; [|exact He].
  apply elem_of_app. left. exact Hin.
Qed.

Lemma backed_signed tr cmd ts u x :
  ts + SIGNED_URL_CACHE_DURATION <= x
    <= ts + Z.of_N (signingTime cmd SIGNED_URL_EXPIRY ts) + SIGNED_URL_CACHE_DURATION ->
  backed (tr ++ [Sign cmd SIGNED_URL_EXPIRY ts (Ok u)]) {| url := u; expiresAt := x |}.
Proof.
  intros Hx. exists cmd, ts. split; [|exact Hx]. apply elem_of_app. right.
  apply list_elem_of_singleton. reflexivity.
Qed.

Lemma backed_margin tr e t :
  backed tr e -> t + SAFETY_BUFFER_MS < expiresAt e ->
  exists cmd ts,
    Sign cmd SIGNED_URL_EXPIRY ts (Ok (url e)) ∈ tr
    /\ validityLeft ts t > 15 * 60 * 1000 - Z.of_N (signingTime cmd SIGNED_URL_EXPIRY ts).
Proof.
  intros (cmd & ts & Hin & He) Hfresh. exists cmd, ts. split; [exact Hin|].
  unfold validityLeft, SIGNED_URL_EXPIRY, SIGNED_URL_CACHE_DURATION, SAFETY_BUFFER_MS in *. lia.
Qed.

Lemma run_keeps_margin {A} (m : M A) (Q : A -> World -> Prop) w :
  ok backed (trace w) (fun _ => True) m Q -> tiersBacked w ->
  tiersBacked (m w).2
  /\ exists new, trace (m w).2 = trace w ++ new
                 /\ Forall (servedWithMargin (trace (m w).2)) new
                 /\ forall a, (m w).1 = Ok a -> Q a (m w).2.
Proof.
  intros Hm [Hc Hr]. destruct (Hm w) as ([Hc' Hr' (recent & Htr & Hs)] & _ & HQ); [|exact I|].
  - split; [exact Hc|exact Hr|]. exists []. split; [symmetry; apply app_nil_r|constructor].
  - split; [split; assumption|]. exists recent. split; [exact Htr|]. split; [|exact HQ].
    eapply Forall_impl; [exact Hs|]. intros [] H; cbn in *; try exact I.
    destruct H as [(cmd & ts & Hin & He) Hfresh]. exists cmd, ts.
    split; [exact Hin|]. split; [exact He|].
    unfold validityLeft, SIGNED_URL_EXPIRY, SIGNED_URL_CACHE_DURATION, SAFETY_BUFFER_MS in *. lia.
Qed.

(** The entry that a single-key resolution leaves in both tiers when it
    has called the signer. *)
Lemma key_signed_entry k w u w' new :
  await (getSignedDownloadUrl k) w = (Ok u, w') -> trace w' = trace w ++ new ->
  signerCalls new <> [] ->
  exists ts,
    signerCalls new = [Sign (objectCommand k) SIGNED_URL_EXPIRY ts (Ok u)]
    /\ now w <= ts
    /\ let e := {| url := u;
                   expiresAt := ts + signingTimeOf k ts + SIGNED_URL_CACHE_DURATION |} in
       signedUrlCache w' !! k = Some e
       /\ redis w' !! redisKey k
          = Some (RObject e, ts + signingTimeOf k ts + (SIGNED_URL_EXPIRY - 300) * 1000).
Proof.
  intros Hrun Htr Hcalls.
  key_split k w; inversion Hrun; subst; clear Hrun; cbn [trace set_trace] in Htr;
    apply app_inv_head in Htr; subst new; try (exfalso; apply Hcalls; reflexivity).
  exists (now w + Z.of_N ms). split; [reflexivity|]. split; [lia|].
  cbn [signedUrlCache redis]. split; apply lookup_insert_eq.
Qed.

(** What a single-key resolution returns without calling the signer
    comes from an entry of a tier, and, the tiers being backed, has at
    the moment it is returned the margin of [servedWithMargin]. *)
Lemma key_returns_with_margin k w u w' new :
  tiersBacked w ->
  await (getSignedDownloadUrl k) w = (Ok u, w') -> trace w' = trace w ++ new ->
  signerCalls new = [] ->
  exists cmd ts,
    Sign cmd SIGNED_URL_EXPIRY ts (Ok u) ∈ trace w
    /\ validityLeft ts (now w')
         > 15 * 60 * 1000 - Z.of_N (signingTime cmd SIGNED_URL_EXPIRY ts).
Proof.
  intros [Hc Hr] Hrun Htr Hcalls.
  key_split k w; inversion Hrun; subst; clear Hrun; cbn [trace set_trace now] in *;
    apply app_inv_head in Htr; subst new; try discriminate Hcalls.
  - apply memFresh_some in Hmem as [Hin Hlt].
    apply (backed_margin (trace w) e (now w)); [eapply Hc, Hin|exact Hlt].
  - apply redisFresh_some in Hred as [Hin Hlt].
    apply redis_read_some in Hin as (d & Hin & _).
    apply (backed_margin (trace w) c (now w + Z.of_N ms)); [eapply Hr, Hin|exact Hlt].
Qed.

(** C10, as amended.  The signer is asked for 3600 s and the cache
    duration is 50 minutes, 10 minutes less.  (1) The entry that the
    single-key resolver creates in both tiers after a signer call
    records the clock reading at which the signer's promise has settled
    plus 50 minutes, that is, the signing time plus the time the signer
    took plus 50 minutes.  (2) The entry that a batch creates for a key
    it has signed records the reading of the calls, the signing time,
    plus 50 minutes.  (3) When every entry of the two tiers records, for
    a signer call of the trace that yielded its URL, an expiry between
    these two, so does every entry after [resolve] or [resolveBatch],
    whichever path is taken; every URL these hand out from a tier has,
    at the clock reading of its check, more than 15 minutes of validity
    left less the time its signer call took; and every value they return
    is accounted for by such a handing out, or by a signer call of the
    run, or is the reference itself.  (4) What the single-key resolver
    returns without calling the signer has that margin at the reading at
    which it is returned. *)
Theorem cached_urls_keep_a_margin :
  SIGNED_URL_EXPIRY * 1000 - SIGNED_URL_CACHE_DURATION = 10 * 60 * 1000
  /\ (forall k w u w' new,
        await (getSignedDownloadUrl k) w = (Ok u, w') -> trace w' = trace w ++ new ->
        signerCalls new <> [] ->
        exists ts,
          signerCalls new = [Sign (objectCommand k) SIGNED_URL_EXPIRY ts (Ok u)]
          /\ now w <= ts
          /\ let e := {| url := u;
                         expiresAt := ts + signingTimeOf k ts + SIGNED_URL_CACHE_DURATION |} in
             signedUrlCache w' !! k = Some e
             /\ redis w' !! redisKey k
                = Some (RObject e, ts + signingTimeOf k ts + (SIGNED_URL_EXPIRY - 300) * 1000))
  /\ (forall refs w rs w' i u k,
        batch_body refs w = (Ok rs, w') ->
        refs !! i = Some u -> truthy (parseR2Url u) = Some k ->
        memFresh (signedUrlCache w !! k) (now w) = None ->
        redisFresh (seenBy w k) (lookupInstant w) = None ->
        exists v,
          resolveBatch refs w = (Ok rs, w')
          /\ Sign (objectCommand k) SIGNED_URL_EXPIRY (lookupInstant w) (Ok v) ∈ trace w'
          /\ rs !! i = Some v
          /\ signedUrlCache w' !! k
             = Some {| url := v; expiresAt := lookupInstant w + SIGNED_URL_CACHE_DURATION |})
  /\ (forall ref w,
        tiersBacked w ->
        tiersBacked (resolve ref w).2
        /\ exists new, trace (resolve ref w).2 = trace w ++ new
                       /\ Forall (servedWithMargin (trace (resolve ref w).2)) new
                       /\ forall u, (resolve ref w).1 = Ok u -> answeredIn new ref u)
  /\ (forall refs w,
        tiersBacked w ->
        tiersBacked (resolveBatch refs w).2
        /\ exists new, trace (resolveBatch refs w).2 = trace w ++ new
                       /\ Forall (servedWithMargin (trace (resolveBatch refs w).2)) new
                       /\ forall rs, (resolveBatch refs w).1 = Ok rs ->
                                     Forall2 (answeredIn new) refs rs)
  /\ (forall k w u w' new,
        tiersBacked w ->
        await (getSignedDownloadUrl k) w = (Ok u, w') -> trace w' = trace w ++ new ->
        signerCalls new = [] ->
        exists cmd ts,
          Sign cmd SIGNED_URL_EXPIRY ts (Ok u) ∈ trace w
          /\ validityLeft ts (now w')
               > 15 * 60 * 1000 - Z.of_N (signingTime cmd SIGNED_URL_EXPIRY ts)).
Proof.
  split; [reflexivity|]. split; [exact key_signed_entry|]. split; [|split; [|split]].
  - intros refs w rs w' i u k Hrun Hi Hk Hmem Hred.
    destruct (batch_body_returned refs w rs w' Hrun) as [Hans Hsig].
    destruct (batch_position refs w rs w' i u k Hrun Hi Hk)
      as [(e & He & _)|[(_ & e & He & _)|(_ & _ & v & Hv & Hrs)]]; [congruence|congruence|].
    exists v. split; [apply batch_returns, Hrun|]. split; [|split; [exact Hrs|]].
    + destruct (batch_body_run refs w Hans Hsig) as (w2 & rest & Hrun2 & Htr2 & _ & Hcalls).
      rewrite Hrun in Hrun2. injection Hrun2 as _ <-. rewrite Htr2.
      apply elem_of_app. right. apply elem_of_signerCalls. rewrite Hcalls.
      apply list_elem_of_fmap. exists (i, k). unfold signEventOf. cbn [snd]. rewrite Hv.
      split; [reflexivity|]. apply list_elem_of_In, List.filter_In. split.
      * apply list_elem_of_In.
        apply (memMissing_complete (signedUrlCache w) (now w) refs 0 i u k Hi).
        unfold needsLookup. rewrite Hk, Hmem. reflexivity.
      * unfold unserved. cbn [snd]. rewrite Hred. reflexivity.
    + destruct (batch_body_cache refs w Hans Hsig) as (rs2 & w2 & Hrun2 & _ & Hcache).
      rewrite Hrun in Hrun2. injection Hrun2 as _ <-. rewrite Hcache, signBackfill_lookup.
      rewrite bool_decide_eq_true_2.
      * rewrite Hv. reflexivity.
      * apply list_elem_of_fmap. exists (i, k). split; [reflexivity|].
        apply list_elem_of_In, List.filter_In. split.
        -- apply list_elem_of_In.
           apply (memMissing_complete (signedUrlCache w) (now w) refs 0 i u k Hi).
           unfold needsLookup. rewrite Hk, Hmem. reflexivity.
        -- unfold unserved. cbn [snd]. rewrite Hred. reflexivity.
  - intros ref w Hw.
    destruct (run_keeps_margin (resolve ref) (answerFor (trace w) ref) w)
      as (Hw' & new & Htr & Hserved & Hacc);
      [apply ok_resolve_acc; [apply backed_mono|apply backed_signed]|exact Hw|].
    split; [exact Hw'|]. exists new. split; [exact Htr|]. split; [exact Hserved|].
    intros u Hu. destruct (Hacc u Hu) as (recent & Htr' & Hans).
    rewrite Htr in Htr'. apply app_inv_head in Htr'. subst recent. exact Hans.
  - intros refs w Hw.
    destruct (run_keeps_margin (resolveBatch refs) (answersFor (trace w) refs) w)
      as (Hw' & new & Htr & Hserved & Hacc);
      [apply ok_resolveBatch_acc; [apply backed_mono|apply backed_signed]|exact Hw|].
    split; [exact Hw'|]. exists new. split; [exact Htr|]. split; [exact Hserved|].
    intros rs Hrs. destruct (Hacc rs Hrs) as (recent & Htr' & Hans).
    rewrite Htr in Htr'. apply app_inv_head in Htr'. subst recent. exact Hans.
  - exact key_returns_with_margin.
Qed.

(** ** What a signed URL leaves behind *)

(** X6: a URL signed by one process serves its peers.  When neither tier
    serves a key, the signer answers and [redis.set] answers, the entry
    is in the distributed tier with a TTL of 55 minutes, five more than
    its window, both reckoned from the reading [t'] at which the signer's
    promise has settled.  So a peer whose local tier does not serve the key, and
    whose [redis.get] is answered while the entry is inside its window,
    gets the very same URL from the distributed tier without calling the
    signer, and takes the entry, with its expiry, into its own local
    tier: the TTL never hides an entry that is still inside its window. *)
Theorem signed_url_serves_peers (k : string) (w : World) (ms ms' : N) (u : string) :
  memFresh (signedUrlCache w !! k) (now w) = None ->
  hd (Answers 0) (net w) = Answers ms ->
  redisFresh (redis_read (redis w) (now w) (redisKey k)) (now w + Z.of_N ms) = None ->
  getSignedUrl (objectCommand k) SIGNED_URL_EXPIRY (now w + Z.of_N ms) = Ok u ->
  hd (Answers 0) (tl (net w)) = Answers ms' ->
  let t := now w + Z.of_N ms in
  let t' := t + signingTimeOf k t in
  let e := {| url := u; expiresAt := t' + SIGNED_URL_CACHE_DURATION |} in
  exists w1,
    await (getSignedDownloadUrl k) w = (Ok u, w1)
    /\ forall w2 ms2,
         redis w2 = redis w1 ->
         memFresh (signedUrlCache w2 !! k) (now w2) = None ->
         hd (Answers 0) (net w2) = Answers ms2 ->
         now w2 + Z.of_N ms2 + SAFETY_BUFFER_MS < t' + SIGNED_URL_CACHE_DURATION ->
         exists w3 new,
           await (getSignedDownloadUrl k) w2 = (Ok u, w3)
           /\ trace w3 = trace w2 ++ new
           /\ signerCalls new = []
           /\ Serve DistributedTier k e (now w2 + Z.of_N ms2) ∈ new
           /\ signedUrlCache w3 !! k = Some e.
Proof.
  intros Hmem Hget Hred Hsig Hset t t' e.
  eexists. split; [apply (key_signed k w ms u ms' Hmem Hget Hred Hsig Hset)|].
  cbn [redis]. fold t. fold t'. fold e. intros w2 ms2 Hr2 Hmem2 Hget2 Hwin.
  assert (Hread : redisFresh (redis_read (redis w2) (now w2) (redisKey k))
                             (now w2 + Z.of_N ms2) = Some e).
  { unfold redis_read. rewrite Hr2, lookup_insert_eq.
    assert (Hlt : now w2 < t' + (SIGNED_URL_EXPIRY - 300) * 1000).
    { unfold SIGNED_URL_EXPIRY, SIGNED_URL_CACHE_DURATION, SAFETY_BUFFER_MS in *. lia. }
    apply Z.ltb_lt in Hlt. rewrite Hlt. cbn [redisFresh].
    assert (Hf : fresh e (now w2 + Z.of_N ms2) = true) by (apply fresh_lt; exact Hwin).
    rewrite Hf. reflexivity. }
  eexists _, _. split; [apply (key_distributed k w2 ms2 e Hmem2 Hget2 Hread)|].
  cbn [trace signedUrlCache]. split; [reflexivity|]. split; [reflexivity|].
  split; [|apply lookup_insert_eq].
  apply elem_of_cons; right. apply elem_of_cons; right. apply elem_of_cons; right.
  apply elem_of_cons; left. reflexivity.
Qed.

(** X7: a call that fails at [redis.set] has already put the URL it
    signed into the local tier.  So the same call made again while that
    entry is inside its window returns that URL from the local tier,
    with no signer call and no call to the distributed tier. *)
Theorem retry_after_failed_write (k : string) (w : World) (ms ms' : N) (u : string) :
  memFresh (signedUrlCache w !! k) (now w) = None ->
  hd (Answers 0) (net w) = Answers ms ->
  redisFresh (redis_read (redis w) (now w) (redisKey k)) (now w + Z.of_N ms) = None ->
  getSignedUrl (objectCommand k) SIGNED_URL_EXPIRY (now w + Z.of_N ms) = Ok u ->
  hd (Answers 0) (tl (net w)) = Rejects ms' ->
  let t := now w + Z.of_N ms in
  let e := {| url := u; expiresAt := t + signingTimeOf k t + SIGNED_URL_CACHE_DURATION |} in
  exists w1,
    await (getSignedDownloadUrl k) w = (Throw RedisError, w1)
    /\ redis w1 = redis w
    /\ signedUrlCache w1 !! k = Some e
    /\ (now w1 + SAFETY_BUFFER_MS < expiresAt e ->
        await (getSignedDownloadUrl k) w1
        = (Ok u, set_trace (trace w1 ++ [CacheGet k; Serve LocalTier k e (now w1)]) w1)).
Proof.
  intros Hmem Hget Hred Hsig Hset t e.
  pose proof (key_set_rejected k w ms u ms' Hmem Hget Hred Hsig Hset) as Hrun.
  cbn zeta in Hrun. fold t in Hrun. fold e in Hrun.
  match type of Hrun with _ = (_, ?w') => set (w1 := w') in * end.
  exists w1. split; [exact Hrun|]. split; [reflexivity|].
  assert (Hin : signedUrlCache w1 !! k = Some e) by apply lookup_insert_eq.
  split; [exact Hin|]. intros Hwin.
  apply (key_local k w1 e). apply memFresh_intro; [exact Hin|exact Hwin].
Qed.

(** ** A key the signer rejects *)

(** The rest of [getSignedDownloadUrl] when [redis.get] has rejected or
    has found nothing, and the signer rejects: it throws, in whatever
    world it is run. *)
Lemma rest_throws k (answer : Pending (option RedisValue)) w :
  (outcome answer = Ok None \/ exists e, outcome answer = Throw e) ->
  (forall t, exists e, getSignedUrl (objectCommand k) SIGNED_URL_EXPIRY t = Throw e) ->
  exists e, (getSignedDownloadUrl_rest k answer w).1 = Throw e.
Proof.
  intros Hans Hsig. unfold getSignedDownloadUrl_rest, objectCommand in *.
  destruct answer as [d o]. cbn [outcome] in Hans. exec.
  destruct Hans as [->|[e ->]].
  - cbn [redisFresh]. exec. destruct (Hsig (now w + d)) as [e He]. rewrite He. exec. eauto.
  - exec. eauto.
Qed.

(** The synchronous parts of the fallback read the tiers and write
    neither; the part for a key that no tier holds leaves a suspended
    body whose [redis.get] has rejected or found nothing. *)
Lemma start_all_reads refs k : forall w,
  signedUrlCache w !! k = None -> redis w !! redisKey k = None ->
  signedUrlCache (start_all (map getAuthenticatedUrl refs) w).2 = signedUrlCache w
  /\ redis (start_all (map getAuthenticatedUrl refs) w).2 = redis w
  /\ forall i u, refs !! i = Some u -> truthy (parseR2Url u) = Some k ->
       exists answer,
         (start_all (map getAuthenticatedUrl refs) w).1 !! i
         = Some (Ok (Suspended (getSignedDownloadUrl_rest k answer)))
         /\ (outcome answer = Ok None \/ exists e, outcome answer = Throw e).
Proof.
  induction refs as [|u0 refs IH]; intros w Hc Hr.
  - cbn. split; [reflexivity|]. split; [reflexivity|]. intros i u Hi. discriminate Hi.
  - cbn [map start_all].
    destruct (getAuthenticatedUrl u0 w) as [s w1] eqn:Hp.
    assert (Hw1 : signedUrlCache w1 = signedUrlCache w /\ redis w1 = redis w
                  /\ (truthy (parseR2Url u0) = Some k ->
                      exists answer,
                        s = Ok (Suspended (getSignedDownloadUrl_rest k answer))
                        /\ (outcome answer = Ok None \/ exists e, outcome answer = Throw e))).
    { unfold getAuthenticatedUrl in Hp.
      destruct (truthy (parseR2Url u0)) as [k0|] eqn:Hk0.
      - revert Hp. unfold getSignedDownloadUrl.
        cbv [cache_get Date_now emit bind ret set_trace].
        cbn [now signedUrlCache redis net trace].
        destruct (memFresh (signedUrlCache w !! k0) (now w)) as [e|] eqn:Hm.
        + intros [= <- <-]. split; [reflexivity|]. split; [reflexivity|].
          intros [= ->]. rewrite Hc in Hm. discriminate Hm.
        + cbv [redis_get redis_call emit net_next bind ret set_trace set_net].
          cbn [now signedUrlCache redis net trace].
          destruct (hd (Answers 0) (net w)) as [ms|ms];
            intros [= <- <-]; (split; [reflexivity|]; split; [reflexivity|]);
            intros [= ->]; eexists; (split; [reflexivity|]); cbn [outcome].
          * left. unfold redis_read. rewrite Hr. reflexivity.
          * right. eauto.
      - injection Hp as <- <-. split; [reflexivity|]. split; [reflexivity|]. discriminate. }
    destruct Hw1 as (Hc1 & Hr1 & Hstep).
    destruct (IH w1) as (Hc2 & Hr2 & Hpos); [congruence|congruence|].
    destruct (start_all (map getAuthenticatedUrl refs) w1) as [ss w2]. cbn [fst snd] in *.
    split; [congruence|]. split; [congruence|].
    intros [|i] u Hi Hk; cbn in Hi |- *.
    + injection Hi as ->. destruct (Hstep Hk) as (answer & -> & Hans). eauto.
    + apply (Hpos i u Hi Hk).
Qed.

Lemma finish_all_throws {A} (ss : list (Result (Step A))) : forall w i rest,
  ss !! i = Some (Ok (Suspended rest)) ->
  (forall w0, exists e, (rest w0).1 = Throw e) ->
  exists e, Throw e ∈ (finish_all ss w).1.
Proof.
  induction ss as [|s ss IH]; intros w i rest Hi Hrest; [discriminate Hi|].
  cbn [finish_all].
  destruct (match s with
            | Ok (Settled a) => (Ok a, w)
            | Ok (Suspended rest0) => rest0 w
            | Throw e => (Throw e, w)
            end) as [r w1] eqn:Hs.
  destruct i as [|i]; cbn in Hi.
  - injection Hi as ->. destruct (Hrest w) as [e He]. rewrite Hs in He. cbn in He. subst r.
    destruct (finish_all ss w1) as [rs w2]. cbn. exists e. apply elem_of_cons. auto.
  - destruct (IH w1 i rest Hi Hrest) as [e He].
    destruct (finish_all ss w1) as [rs w2]. cbn in *. exists e. apply elem_of_cons. auto.
Qed.

(** The fallback rejects when the signer rejects for the key of one of
    the references and no tier holds that key. *)
Lemma fallback_rejects refs u k w :
  u ∈ refs -> truthy (parseR2Url u) = Some k ->
  (forall t, exists e, getSignedUrl (objectCommand k) SIGNED_URL_EXPIRY t = Throw e) ->
  signedUrlCache w !! k = None -> redis w !! redisKey k = None ->
  exists e, (promise_all (map getAuthenticatedUrl refs) w).1 = Throw e.
Proof.
  intros Hu Hk Hsig Hc Hr. apply list_elem_of_lookup in Hu as [i Hi].
  destruct (start_all_reads refs k w Hc Hr) as (_ & _ & Hpos).
  destruct (Hpos i u Hi Hk) as (answer & Hstep & Hans).
  destruct (finish_all_throws _ (start_all (map getAuthenticatedUrl refs) w).2 i _ Hstep)
    as [e He].
  { intros w0. apply rest_throws; assumption. }
  eapply promise_all_rejects, He.
Qed.

Lemma signRemaining_throws_world results still w :
  ~ Forall (signerAnswers (now w)) still ->
  exists e w',
    signRemaining results still w = (Throw e, w')
    /\ signedUrlCache w'
       = signBackfill (now w + SIGNED_URL_CACHE_DURATION) (now w) still (signedUrlCache w)
    /\ redis w' = redis w.
Proof.
  intros Hnot. destruct still as [|m still]; [exfalso; apply Hnot; constructor|].
  unfold signRemaining. rewrite (bind_run Date_now _ w (now w) w eq_refl).
  destruct (all_settled_sign_throw (now w + SIGNED_URL_CACHE_DURATION) (now w) _ Hnot)
    as [err Herr].
  eexists _, _. split; [eapply bind_throw; rewrite promise_all_sign, Herr; reflexivity|].
  split; reflexivity.
Qed.

(** The [try] block throws when the signer rejects for the key of one of
    the references and no tier holds that key; and it leaves no entry
    for the key behind. *)
Lemma batch_body_fails refs u k w :
  u ∈ refs -> truthy (parseR2Url u) = Some k ->
  (forall t, exists e, getSignedUrl (objectCommand k) SIGNED_URL_EXPIRY t = Throw e) ->
  signedUrlCache w !! k = None -> redis w !! redisKey k = None ->
  exists e w1,
    batch_body refs w = (Throw e, w1)
    /\ signedUrlCache w1 !! k = None /\ redis w1 !! redisKey k = None.
Proof.
  intros Hu Hk Hsig Hc Hr.
  set (c := signedUrlCache w). set (t0 := now w).
  set (missing := memMissing c t0 refs 0).
  assert (Hneeds : needsLookup c t0 u = Some k).
  { apply needsLookup_some. split; [exact Hk|]. subst c. rewrite Hc. reflexivity. }
  assert (Hin : k ∈ map snd missing).
  { apply list_elem_of_lookup in Hu as [j Hj]. apply list_elem_of_fmap. exists (j, k).
    split; [reflexivity|]. apply (memMissing_complete c t0 refs 0 j u k Hj Hneeds). }
  assert (Hne : missing <> []).
  { intros Hnil. rewrite Hnil in Hin. apply elem_of_nil in Hin. exact Hin. }
  assert (Hbody : batch_body refs w
    = (let* scanned' := lookupMissing (memResults c t0 refs 0 (replicate (length refs) EmptyString))
                                      missing in
       signRemaining scanned'.1 scanned'.2)
        (set_trace (trace w ++ flat_map (memEventsOf c t0) refs) w)).
  { unfold batch_body. erewrite bind_run by apply scanMemory_run.
    cbn [fst snd]. rewrite app_nil_l. fold c t0 missing.
    destruct missing; [congruence|reflexivity]. }
  set (w1 := set_trace _ w) in Hbody. rewrite Hbody.
  assert (Hseen : forall t1, redisFresh (seenBy w1 k) t1 = None).
  { intros t1. unfold seenBy. destruct (_ <? _); [|reflexivity].
    unfold redis_read. subst w1. cbn [redis set_trace]. rewrite Hr. reflexivity. }
  assert (Hlate : (delayOf (firstOutcome w1) < MGET_DEADLINE_MS -> answered (firstOutcome w1) = true)
                  -> exists e w2,
                       (let* scanned' := lookupMissing
                            (memResults c t0 refs 0 (replicate (length refs) EmptyString)) missing in
                        signRemaining scanned'.1 scanned'.2) w1 = (Throw e, w2)
                       /\ signedUrlCache w2 !! k = None /\ redis w2 !! redisKey k = None).
  { intros Hans. erewrite bind_run by (apply lookupMissing_run; exact Hans). cbn [fst snd].
    set (t1 := lookupInstant w1). set (seen := seenBy w1).
    set (w2 := Build_World _ _ _ _ _).
    assert (Hstill : k ∈ map snd (redisStill seen t1 missing)).
    { apply list_elem_of_fmap in Hin as (m & -> & Hm). apply list_elem_of_fmap.
      exists m. split; [reflexivity|]. apply list_elem_of_In, List.filter_In.
      split; [apply list_elem_of_In, Hm|]. unfold unserved. subst seen. rewrite Hseen. reflexivity. }
    assert (Hnot : ~ Forall (signerAnswers (now w2)) (redisStill seen t1 missing)).
    { intros Hall. apply list_elem_of_fmap in Hstill as (m & Hmk & Hm).
      rewrite Forall_forall in Hall. destruct (Hall m Hm) as [v Hv].
      unfold signedUrlOf in Hv. rewrite <- Hmk in Hv.
      destruct (Hsig (now w2)) as [e He]. congruence. }
    destruct (signRemaining_throws_world
                (redisResults seen t1 missing
                   (memResults c t0 refs 0 (replicate (length refs) EmptyString)))
                _ w2 Hnot) as (e & w3 & Hrun & Hcache & Hredis).
    exists e, w3. split; [exact Hrun|]. rewrite Hcache, Hredis. subst w2 w1.
    cbn [signedUrlCache redis now set_trace]. split; [|exact Hr].
    rewrite signBackfill_lookup, redisBackfill_lookup.
    rewrite (bool_decide_eq_true_2 _ Hstill), (bool_decide_eq_true_2 _ Hin).
    unfold signedUrlOf. destruct (Hsig t1) as [e' He']. rewrite He'.
    subst seen. rewrite Hseen. exact Hc. }
  destruct (firstOutcome w1) as [ms|ms] eqn:Ho.
  - apply Hlate. reflexivity.
  - destruct (Z.ltb_spec (Z.of_N ms) MGET_DEADLINE_MS) as [Hlt|Hge].
    + eexists _, _. split; [eapply bind_throw; apply (lookupMissing_rejected _ _ w1 ms Ho Hlt)|].
      subst w1. cbn [signedUrlCache redis set_trace]. auto.
    + apply Hlate. cbn [delayOf]. intros. lia.
Qed.

(** X8: a batch is all or nothing.  When the signer rejects for the key
    of one of the references, a key that neither tier holds, the whole
    batch rejects, whatever the other references are and however the
    distributed tier answers: the [try] block throws, and so does the
    fallback that is run in its place. *)
Theorem batch_is_all_or_nothing (refs : list string) (u k : string) (w : World) :
  u ∈ refs -> truthy (parseR2Url u) = Some k ->
  (forall t, exists e, getSignedUrl (objectCommand k) SIGNED_URL_EXPIRY t = Throw e) ->
  signedUrlCache w !! k = None -> redis w !! redisKey k = None ->
  exists e, (resolveBatch refs w).1 = Throw e.
Proof.
  intros Hu Hk Hsig Hc Hr.
  destruct (batch_body_fails refs u k w Hu Hk Hsig Hc Hr) as (e & w1 & Hbody & Hc1 & Hr1).
  rewrite (fallback_after_throw refs w e w1); [|intros ->; apply elem_of_nil in Hu; exact Hu|exact Hbody].
  apply (fallback_rejects refs u k w1 Hu Hk Hsig Hc1 Hr1).
Qed.

(** ** The object store: [uploadFile] and [deleteFile] *)

(** A Node [Buffer]. *)
Definition Buffer : Type := list Byte.byte.

(** [new PutObjectCommand({ Bucket, Key, Body, ContentType })]; the
    fields [Bucket] and [Key] carry the name of the command, those names
    being taken by [GetObjectCommand]. *)
Record PutObjectCommand := {
  PutBucket : string;
  PutKey : string;
  Body : Buffer;
  ContentType : string;
}.

(** [new DeleteObjectCommand({ Bucket, Key })] *)
Record DeleteObjectCommand := {
  DeleteBucket : string;
  DeleteKey : string;
}.

Inductive Command :=
| PutObject (c : PutObjectCommand)
| DeleteObject (c : DeleteObjectCommand).

(** An object as the bucket keeps it. *)
Record R2Object := { body : Buffer; contentType : string }.

(** How one [send] goes: after [ms] milliseconds the store has carried
    the command out, or the SDK rejects with an error of that message. *)
Inductive SendOutcome :=
| Sent (ms : N)
| Failed (ms : N) (message : string).

(** What the functions of this part can throw: an [Error] made with a
    message (by the module, by the SDK), or a rejection of the resolver. *)
Inductive Exn :=
| JsError (message : string)
| Rejection (e : Error).

Inductive Outcome (A : Type) :=
| Returned (a : A)
| Thrown (e : Exn).
#[global] Arguments Returned {A} a.
#[global] Arguments Thrown {A} e.

(** The state of the module as a whole: the resolver's world, the
    objects of R2 by bucket and key, the script of the calls of [send]
    still to come (an exhausted script carries out at once), and the
    commands sent so far.  The lazily created client is not part of the
    state: no behaviour of the module depends on it. *)
Record Storage := {
  world : World;
  objects : gmap (string * string) R2Object;
  r2net : list SendOutcome;
  sent : list Command;
}.

Definition Op (A : Type) : Type := Storage -> Outcome A * Storage.

Definition done {A} (a : A) : Op A := fun s => (Returned a, s).
Definition raise {A} (e : Exn) : Op A := fun s => (Thrown e, s).
Definition andThen {A B} (m : Op A) (k : A -> Op B) : Op B :=
  fun s => match m s with
           | (Returned a, s') => k a s'
           | (Thrown e, s') => (Thrown e, s')
           end.
Definition try_catch_op {A} (m : Op A) (h : Exn -> Op A) : Op A :=
  fun s => match m s with
           | (Returned a, s') => (Returned a, s')
           | (Thrown e, s') => h e s'
           end.

Notation "'let+' x ':=' m 'in' k" := (andThen m (fun x => k))
  (at level 10, x name, m at level 100, k at level 200).

Definition set_world (w : World) (s : Storage) : Storage :=
  {| world := w; objects := objects s; r2net := r2net s; sent := sent s |}.

(** A call of the resolver from this layer. *)
Definition resolver {A} (m : M A) : Op A :=
  fun s => match m (world s) with
           | (Ok a, w) => (Returned a, set_world w s)
           | (Throw e, w) => (Thrown (Rejection e), set_world w s)
           end.

(** The promise of a [send]. *)
Record Sending := { took : Z; ended : Outcome unit }.

(** What a command does to the bucket: a put replaces whatever the key
    held, a delete of a key that holds nothing is no error. *)
Definition carry_out (command : Command) (o : gmap (string * string) R2Object)
  : gmap (string * string) R2Object :=
  match command with
  | PutObject c =>
      <[(PutBucket c, PutKey c) := {| body := Body c; contentType := ContentType c |}]> o
  | DeleteObject c => delete (DeleteBucket c, DeleteKey c) o
  end.

(** [getR2Client().send(command)]: the store carries the command out
    when the call is made; the answer travels for [took]. *)
Definition send (command : Command) : Op Sending :=
  fun s =>
    match hd (Sent 0) (r2net s) with
    | Sent ms =>
        (Returned {| took := Z.of_N ms; ended := Returned tt |},
         {| world := world s; objects := carry_out command (objects s);
            r2net := tl (r2net s); sent := sent s ++ [command] |})
    | Failed ms message =>
        (Returned {| took := Z.of_N ms; ended := Thrown (JsError message) |},
         {| world := world s; objects := objects s;
            r2net := tl (r2net s); sent := sent s ++ [command] |})
    end.

(** [await p] for the promise of a [send]. *)
Definition wait_send (p : Sending) : Op unit :=
  fun s => (ended p, set_world (set_now (now (world s) + took p) (world s)) s).

(** [const ALLOWED_IMAGE_TYPES] (line 53) *)
Definition ALLOWED_IMAGE_TYPES : list string :=
  ["image/jpeg"; "image/png"; "image/webp"; "image/gif"].

Definition invalidImageType (mimeType : string) : string :=
  "Invalid image type '" +:+ mimeType +:+ "'. Allowed types: "
  +:+ Js.join ", " ALLOWED_IMAGE_TYPES.

Definition invalidImageFile : string :=
  "Invalid image file. Please upload a valid JPEG, PNG, WebP, or GIF image.".

Section ObjectStore.

(** [sharp(buffer).resize(1024, null, { withoutEnlargement: true })
     .jpeg({ quality: 80 }).toBuffer()]: the re-encoded image, or the
    message of the error it rejects with.  No time is charged to it. *)
Variable sharp : Buffer -> Buffer + string.

(** The image that goes to R2 and its content type (lines 71-96). *)
Definition optimize (buffer : Buffer) (mimeType : string) (skipOptimization : bool)
  : Op (Buffer * string) :=
  if negb skipOptimization then
    try_catch_op
      (let+ optimizedBuffer :=
         match sharp buffer with
         | inl b => done b
         | inr message => raise (JsError message)
         end in
       done (optimizedBuffer, "image/jpeg"))
      (fun sharpError => raise (JsError invalidImageFile))
  else done (buffer, mimeType).

(** [uploadFile] (lines 55-131).  The parameters [mimeType],
    [background] and [skipOptimization] default to ['image/jpeg'],
    [false] and [false]. *)
Definition uploadFile (buffer : Buffer) (fileName mimeType : string)
    (background skipOptimization : bool) : Op string :=
  try_catch_op
    (if negb (bool_decide (mimeType ∈ ALLOWED_IMAGE_TYPES)) then
       raise (JsError (invalidImageType mimeType))
     else
       let+ optimized := optimize buffer mimeType skipOptimization in
       let command := {| PutBucket := R2_BUCKET_NAME; PutKey := fileName;
                         Body := optimized.1; ContentType := optimized.2 |} in
       let+ uploadPromise := send (PutObject command) in
       let fileUrl := r2Url R2_BUCKET_NAME fileName in
       if background then done fileUrl
       else
         let+ _ := wait_send uploadPromise in
         done fileUrl)
    (fun error => raise error).

(** [deleteFile] up to its [await]: the command is made and sent. *)
Definition deleteFile_send (fileName : string) : Op Sending :=
  let command := {| DeleteBucket := R2_BUCKET_NAME; DeleteKey := fileName |} in
  send (DeleteObject command).

(** [deleteFile] (lines 136-149) *)
Definition deleteFile (fileName : string) : Op unit :=
  try_catch_op
    (let+ p := deleteFile_send fileName in
     wait_send p)
    (fun error => raise error).

(** [deleteFile(fileName).catch(err => logger.warn(...))] without
    [await]: the command is sent, nobody waits for the answer and a
    rejection goes to the log. *)
Definition deleteFile_detached (fileName : string) : Op unit :=
  let+ _ := deleteFile_send fileName in
  done tt.

(** [getDownloadToken] (lines 365-369) *)
Definition getDownloadToken (fileName : string) : Op string := done EmptyString.

Ltac run_op :=
  cbv [uploadFile deleteFile deleteFile_send deleteFile_detached optimize try_catch_op andThen done raise send wait_send
       set_world];
  cbn [world objects r2net sent took ended fst snd now].

(** The three ways an upload can be refused or carried out. *)
Definition imageFor (buffer : Buffer) (mimeType : string) (skipOptimization : bool)
  : option (Buffer * string) :=
  if skipOptimization then Some (buffer, mimeType)
  else match sharp buffer with
       | inl b => Some (b, "image/jpeg")
       | inr _ => None
       end.

Lemma optimize_run buffer mimeType skipOptimization s :
  optimize buffer mimeType skipOptimization s
  = (match imageFor buffer mimeType skipOptimization with
     | Some img => Returned img
     | None => Thrown (JsError invalidImageFile)
     end, s).
Proof.
  unfold optimize, imageFor. destruct skipOptimization; cbn [negb]; [reflexivity|].
  run_op. destruct (sharp buffer); reflexivity.
Qed.

Lemma upload_refused_type buffer fileName mimeType background skipOptimization s :
  mimeType ∉ ALLOWED_IMAGE_TYPES ->
  uploadFile buffer fileName mimeType background skipOptimization s
  = (Thrown (JsError (invalidImageType mimeType)), s).
Proof.
  intros Hno. unfold uploadFile. rewrite bool_decide_eq_false_2 by exact Hno. reflexivity.
Qed.

Lemma upload_refused_image buffer fileName mimeType background skipOptimization s :
  mimeType ∈ ALLOWED_IMAGE_TYPES ->
  imageFor buffer mimeType skipOptimization = None ->
  uploadFile buffer fileName mimeType background skipOptimization s
  = (Thrown (JsError invalidImageFile), s).
Proof.
  intros Hin Himg. unfold uploadFile. rewrite bool_decide_eq_true_2 by exact Hin.
  cbn [negb]. unfold try_catch_op, andThen at 1. rewrite optimize_run, Himg. reflexivity.
Qed.

Definition putCommand (fileName : string) (img : Buffer * string) : Command :=
  PutObject {| PutBucket := R2_BUCKET_NAME; PutKey := fileName;
               Body := img.1; ContentType := img.2 |}.

Lemma upload_sent buffer fileName mimeType background skipOptimization s img ms :
  mimeType ∈ ALLOWED_IMAGE_TYPES ->
  imageFor buffer mimeType skipOptimization = Some img ->
  hd (Sent 0) (r2net s) = Sent ms ->
  uploadFile buffer fileName mimeType background skipOptimization s
  = (Returned (r2Url R2_BUCKET_NAME fileName),
     {| world := if background then world s
                 else set_now (now (world s) + Z.of_N ms) (world s);
        objects := <[(R2_BUCKET_NAME, fileName) := {| body := img.1; contentType := img.2 |}]>
                     (objects s);
        r2net := tl (r2net s);
        sent := sent s ++ [putCommand fileName img] |}).
Proof.
  intros Hin Himg Hnet. unfold uploadFile. rewrite bool_decide_eq_true_2 by exact Hin.
  cbn [negb]. unfold try_catch_op, andThen at 1. rewrite optimize_run, Himg.
  run_op. rewrite Hnet. destruct background; reflexivity.
Qed.

Lemma upload_failed buffer fileName mimeType background skipOptimization s img ms message :
  mimeType ∈ ALLOWED_IMAGE_TYPES ->
  imageFor buffer mimeType skipOptimization = Some img ->
  hd (Sent 0) (r2net s) = Failed ms message ->
  uploadFile buffer fileName mimeType background skipOptimization s
  = (if background then Returned (r2Url R2_BUCKET_NAME fileName)
     else Thrown (JsError message),
     {| world := if background then world s
                 else set_now (now (world s) + Z.of_N ms) (world s);
        objects := objects s;
        r2net := tl (r2net s);
        sent := sent s ++ [putCommand fileName img] |}).
Proof.
  intros Hin Himg Hnet. unfold uploadFile. rewrite bool_decide_eq_true_2 by exact Hin.
  cbn [negb]. unfold try_catch_op, andThen at 1. rewrite optimize_run, Himg.
  run_op. rewrite Hnet. destruct background; reflexivity.
Qed.

(** Whatever [uploadFile] returns is the URL of its key in the configured
    bucket, and a command went out for it. *)
Lemma upload_returns buffer fileName mimeType background skipOptimization s fileUrl s' :
  uploadFile buffer fileName mimeType background skipOptimization s = (Returned fileUrl, s') ->
  fileUrl = r2Url R2_BUCKET_NAME fileName
  /\ mimeType ∈ ALLOWED_IMAGE_TYPES
  /\ exists img, imageFor buffer mimeType skipOptimization = Some img
       /\ sent s' = sent s ++ [putCommand fileName img].
Proof.
  intros Hrun. destruct (decide (mimeType ∈ ALLOWED_IMAGE_TYPES)) as [Hin|Hno].
  2:{ rewrite upload_refused_type in Hrun by exact Hno. discriminate Hrun. }
  destruct (imageFor buffer mimeType skipOptimization) as [img|] eqn:Himg.
  2:{ rewrite upload_refused_image in Hrun by assumption. discriminate Hrun. }
  destruct (hd (Sent 0) (r2net s)) as [ms|ms message] eqn:Hnet.
  - rewrite (upload_sent _ _ _ _ _ _ img ms Hin Himg Hnet) in Hrun.
    injection Hrun as <- <-. eauto.
  - rewrite (upload_failed _ _ _ _ _ _ img ms message Hin Himg Hnet) in Hrun.
    destruct background; [|discriminate Hrun]. injection Hrun as <- <-. eauto.
Qed.

Lemma delete_sent fileName s ms :
  hd (Sent 0) (r2net s) = Sent ms ->
  deleteFile fileName s
  = (Returned tt,
     {| world := set_now (now (world s) + Z.of_N ms) (world s);
        objects := delete (R2_BUCKET_NAME, fileName) (objects s);
        r2net := tl (r2net s);
        sent := sent s ++ [DeleteObject {| DeleteBucket := R2_BUCKET_NAME;
                                           DeleteKey := fileName |}] |}).
Proof. intros Hnet. run_op. rewrite Hnet. reflexivity. Qed.

Lemma delete_failed fileName s ms message :
  hd (Sent 0) (r2net s) = Failed ms message ->
  deleteFile fileName s
  = (Thrown (JsError message),
     {| world := set_now (now (world s) + Z.of_N ms) (world s);
        objects := objects s;
        r2net := tl (r2net s);
        sent := sent s ++ [DeleteObject {| DeleteBucket := R2_BUCKET_NAME;
                                           DeleteKey := fileName |}] |}).
Proof. intros Hnet. run_op. rewrite Hnet. reflexivity. Qed.

Lemma r2Url_longer bucket fileName : r2Url bucket fileName <> fileName.
Proof.
  intros H. apply (f_equal String.length) in H. unfold r2Url in H.
  rewrite !length_append in H. cbn in H. lia.
Qed.

(** X9: the URL that [uploadFile] returns leads back to the uploaded
    object.  The bucket name holding no [/], [parseR2Url] reads from the
    URL the very key the object was put under, and resolving the URL is
    resolving that key: the single-key resolver is run for it (an empty
    key apart, for which the URL comes back unchanged). *)
Theorem uploaded_url_leads_to_its_object
    (buffer : Buffer) (fileName mimeType : string) (background skipOptimization : bool)
    (s s' : Storage) (fileUrl : string) :
  hasChar "/" R2_BUCKET_NAME = false ->
  uploadFile buffer fileName mimeType background skipOptimization s = (Returned fileUrl, s') ->
  (exists img, last (sent s')
     = Some (PutObject {| PutBucket := R2_BUCKET_NAME; PutKey := fileName;
                          Body := img.1; ContentType := img.2 |}))
  /\ parseR2Url fileUrl = Some fileName
  /\ (fileName <> EmptyString ->
      forall w, resolve fileUrl w = await (getSignedDownloadUrl fileName) w)
  /\ (fileName = EmptyString -> forall w, resolve fileUrl w = (Ok fileUrl, w)).
Proof.
  intros Hb Hrun. apply upload_returns in Hrun as (-> & _ & img & _ & Hsent).
  pose proof (parse_r2Url R2_BUCKET_NAME fileName Hb) as Hp.
  split; [exists img; rewrite Hsent, last_snoc; reflexivity|].
  split; [exact Hp|]. split.
  - intros Hne w. apply resolve_key. rewrite Hp. cbn.
    apply nonEmpty_true in Hne. rewrite Hne. reflexivity.
  - intros -> w. apply resolve_opaque. rewrite Hp. reflexivity.
Qed.

(** X10: what [uploadFile] refuses, it refuses before anything is sent.
    A declared type outside the four allowed ones is refused first, with
    a message that names it, whatever the image is; an image that sharp
    rejects is refused next, with one fixed message in place of sharp's.
    In both cases the state is untouched: no command has gone to R2 and
    the clock has not moved.  Conversely every other call sends exactly
    one [PutObjectCommand]. *)
Theorem refused_upload_sends_nothing
    (buffer : Buffer) (fileName mimeType : string) (background skipOptimization : bool)
    (s : Storage) :
  let run := uploadFile buffer fileName mimeType background skipOptimization s in
  (mimeType ∉ ALLOWED_IMAGE_TYPES ->
     run = (Thrown (JsError (invalidImageType mimeType)), s))
  /\ (mimeType ∈ ALLOWED_IMAGE_TYPES -> skipOptimization = false ->
      forall message, sharp buffer = inr message ->
        run = (Thrown (JsError invalidImageFile), s))
  /\ (mimeType ∈ ALLOWED_IMAGE_TYPES ->
      (skipOptimization = true \/ exists b, sharp buffer = inl b) ->
      exists img, sent run.2 = sent s ++ [putCommand fileName img]).
Proof.
  intros run. subst run. split; [|split].
  - apply upload_refused_type.
  - intros Hin -> message Hsharp. apply upload_refused_image; [exact Hin|].
    unfold imageFor. rewrite Hsharp. reflexivity.
  - intros Hin Himg.
    assert (Hsome : exists img, imageFor buffer mimeType skipOptimization = Some img).
    { unfold imageFor. destruct Himg as [->|[b Hb]]; [eauto|].
      destruct skipOptimization; [eauto|]. rewrite Hb. eauto. }
    destruct Hsome as [img Himg']. exists img.
    destruct (hd (Sent 0) (r2net s)) as [ms|ms message] eqn:Hnet.
    + rewrite (upload_sent _ _ _ _ _ _ img ms Hin Himg' Hnet). reflexivity.
    + rewrite (upload_failed _ _ _ _ _ _ img ms message Hin Himg' Hnet). reflexivity.
Qed.

(** X11: what an upload that R2 carries out leaves in the bucket: under
    the key [fileName] of the configured bucket, replacing whatever was
    there, the buffer as given with the declared type when optimization
    is skipped, and otherwise the output of sharp, declared
    [image/jpeg] whatever type the caller declared; no other object is
    touched. *)
Theorem upload_stores_the_image
    (buffer : Buffer) (fileName mimeType : string) (background skipOptimization : bool)
    (s : Storage) (ms : N) :
  mimeType ∈ ALLOWED_IMAGE_TYPES ->
  hd (Sent 0) (r2net s) = Sent ms ->
  let s' := (uploadFile buffer fileName mimeType background skipOptimization s).2 in
  (skipOptimization = true ->
     objects s' !! (R2_BUCKET_NAME, fileName)
     = Some {| body := buffer; contentType := mimeType |})
  /\ (skipOptimization = false -> forall b, sharp buffer = inl b ->
      objects s' !! (R2_BUCKET_NAME, fileName)
      = Some {| body := b; contentType := "image/jpeg" |})
  /\ (forall other, other <> (R2_BUCKET_NAME, fileName) ->
      objects s' !! other = objects s !! other).
Proof.
  intros Hin Hnet s'. subst s'. split; [|split].
  - intros ->. rewrite (upload_sent buffer fileName mimeType background true s
                          (buffer, mimeType) ms Hin eq_refl Hnet).
    cbn [snd objects]. apply lookup_insert_eq.
  - intros -> b Hb.
    assert (Himg : imageFor buffer mimeType false = Some (b, "image/jpeg"))
      by (unfold imageFor; rewrite Hb; reflexivity).
    rewrite (upload_sent _ _ _ _ _ _ _ ms Hin Himg Hnet).
    cbn [snd objects]. apply lookup_insert_eq.
  - intros other Hne.
    destruct (imageFor buffer mimeType skipOptimization) as [img|] eqn:Himg.
    + rewrite (upload_sent _ _ _ _ _ _ img ms Hin Himg Hnet).
      cbn [snd objects]. apply lookup_insert_ne. congruence.
    + rewrite (upload_refused_image _ _ _ _ _ _ Hin Himg). reflexivity.
Qed.

(** X12: a background upload does not wait for R2.  It returns the URL
    with the clock unmoved whether the store carries the command out or
    rejects it, and in the latter case the bucket is unchanged, so that
    the URL may name an object that was never stored; the same upload in
    the foreground waits for the answer and throws the error of the SDK. *)
Theorem background_upload_hides_failure
    (buffer : Buffer) (fileName mimeType : string) (skipOptimization : bool)
    (s : Storage) (img : Buffer * string) (ms : N) (message : string) :
  mimeType ∈ ALLOWED_IMAGE_TYPES ->
  imageFor buffer mimeType skipOptimization = Some img ->
  hd (Sent 0) (r2net s) = Failed ms message ->
  let bg := uploadFile buffer fileName mimeType true skipOptimization s in
  let fg := uploadFile buffer fileName mimeType false skipOptimization s in
  bg.1 = Returned (r2Url R2_BUCKET_NAME fileName)
  /\ world bg.2 = world s
  /\ objects bg.2 = objects s
  /\ fg.1 = Thrown (JsError message)
  /\ objects fg.2 = objects s
  /\ now (world fg.2) = now (world s) + Z.of_N ms.
Proof.
  intros Hin Himg Hnet bg fg. subst bg fg.
  rewrite !(upload_failed _ _ _ _ _ _ img ms message Hin Himg Hnet).
  repeat split; reflexivity.
Qed.

End ObjectStore.

(** X13: [deleteFile] does not tell the cache.  Whatever R2 answers, the
    call leaves both tiers and the trace as they were, only the clock
    moves on; so when the store has carried the delete out and the
    object is gone, a reference to it is still resolved to the cached
    URL for as long as the local entry is inside its window. *)
Theorem delete_leaves_the_cached_url (fileName : string) (s : Storage) (e : SignedUrlCache) :
  hasChar "/" R2_BUCKET_NAME = false ->
  fileName <> EmptyString ->
  signedUrlCache (world s) !! fileName = Some e ->
  let s' := (deleteFile fileName s).2 in
  let w' := world s' in
  signedUrlCache w' = signedUrlCache (world s)
  /\ redis w' = redis (world s)
  /\ trace w' = trace (world s)
  /\ (forall ms, hd (Sent 0) (r2net s) = Sent ms ->
      objects s' !! (R2_BUCKET_NAME, fileName) = None)
  /\ (now w' + SAFETY_BUFFER_MS < expiresAt e ->
      resolve (r2Url R2_BUCKET_NAME fileName) w'
      = (Ok (url e),
         set_trace (trace w' ++ [CacheGet fileName; Serve LocalTier fileName e (now w')]) w')).
Proof.
  intros Hb Hne He s' w'.
  assert (Hw : signedUrlCache w' = signedUrlCache (world s) /\ redis w' = redis (world s)
               /\ trace w' = trace (world s)).
  { subst w' s'. destruct (hd (Sent 0) (r2net s)) as [ms|ms message] eqn:Hnet.
    - rewrite (delete_sent _ _ ms Hnet). repeat split; reflexivity.
    - rewrite (delete_failed _ _ ms message Hnet). repeat split; reflexivity. }
  destruct Hw as (Hc & Hr & Ht). split; [exact Hc|]. split; [exact Hr|]. split; [exact Ht|].
  split.
  - intros ms Hnet. subst s'. rewrite (delete_sent _ _ ms Hnet). cbn [snd objects].
    apply lookup_delete_eq.
  - intros Hwin. rewrite (resolve_key _ fileName).
    + apply key_local. apply memFresh_intro; [rewrite Hc; exact He|exact Hwin].
    + rewrite (parse_r2Url _ _ Hb). cbn. apply nonEmpty_true in Hne. rewrite Hne. reflexivity.
Qed.

(** X14: [deleteFile] takes its argument as the key, verbatim.  Given
    the key an object was uploaded under, it removes the object; given
    the [r2://] URL that [uploadFile] returned for it, it sends a delete
    for a key of that very spelling, which R2 answers without an error,
    and the uploaded object stays in the bucket. *)
Theorem delete_takes_the_key_verbatim
    (fileName bucket : string) (s : Storage) (o : R2Object) (ms : N) :
  objects s !! (R2_BUCKET_NAME, fileName) = Some o ->
  hd (Sent 0) (r2net s) = Sent ms ->
  let byKey := deleteFile fileName s in
  let byUrl := deleteFile (r2Url bucket fileName) s in
  byKey.1 = Returned tt
  /\ objects byKey.2 !! (R2_BUCKET_NAME, fileName) = None
  /\ byUrl.1 = Returned tt
  /\ sent byUrl.2 = sent s ++ [DeleteObject {| DeleteBucket := R2_BUCKET_NAME;
                                              DeleteKey := r2Url bucket fileName |}]
  /\ objects byUrl.2 !! (R2_BUCKET_NAME, fileName) = Some o.
Proof.
  intros Ho Hnet byKey byUrl. subst byKey byUrl. rewrite !(delete_sent _ _ ms Hnet).
  cbn [fst snd objects sent]. split; [reflexivity|]. split; [apply lookup_delete_eq|].
  split; [reflexivity|]. split; [reflexivity|].
  rewrite lookup_delete_ne; [exact Ho|].
  intros [= H]. exact (r2Url_longer _ _ H).
Qed.

(** ** Callers of the batch resolver: the social service *)

(** What a URL field of a response holds: a string, [null], or
    [undefined]. *)
Inductive JsUrl :=
| JsString (s : string)
| JsNull
| JsUndefined.

(** [xs[i]] *)
Definition at_index (xs : list string) (i : nat) : JsUrl :=
  match xs !! i with
  | Some s => JsString s
  | None => JsUndefined
  end.

(** A column that passes [if (x)] or [!!x]: neither [NULL] nor the empty
    string. *)
Definition present (x : option string) : option string :=
  match x with
  | Some s => if Js.nonEmpty s then Some s else None
  | None => None
  end.

(** The columns of [users] that the social queries select, with [U] for
    what the photo column holds: [option string] in a row of the
    database, a JavaScript value in a response. *)
Record UserCard (U : Type) := {
  user_id : string;
  user_name : option string;
  username : option string;
  profilePhotoUrl : U;
}.
#[global] Arguments user_id {U} u.
#[global] Arguments user_name {U} u.
#[global] Arguments username {U} u.
#[global] Arguments profilePhotoUrl {U} u.

(** [{ ...f, profilePhotoUrl: v }] *)
Definition with_photo {U V} (f : UserCard U) (v : V) : UserCard V :=
  {| user_id := user_id f; user_name := user_name f; username := username f;
     profilePhotoUrl := v |}.

Section Cursor.

(** The rows of a query, the column that holds the URL, and the object
    made of a row and its signed URL. *)
Context {Row Item : Type}.
Variable column : Row -> option string.
Variable item : Row -> JsUrl -> Item.

(** [rows.map(r => r.column).filter(url => !!url)] *)
Definition urlsOf (rows : list Row) : list string :=
  omap (fun r => present (column r)) rows.

(** [rows.map(r => ({ ...r, column: r.column ? authUrls[authIndex++] :
    null }))]: the cursor [authIndex] moves on at every row that has a
    URL. *)
Fixpoint signRows (rows : list Row) (authUrls : list string) (authIndex : nat)
  : list Item :=
  match rows with
  | [] => []
  | r :: rest =>
      match present (column r) with
      | Some _ => item r (at_index authUrls authIndex) :: signRows rest authUrls (S authIndex)
      | None => item r JsNull :: signRows rest authUrls authIndex
      end
  end.

(** How many of the rows before row [i] have a URL. *)
Definition urlsBefore (rows : list Row) (i : nat) : nat :=
  length (urlsOf (take i rows)).

Lemma urlsOf_lookup rows i r u :
  rows !! i = Some r -> present (column r) = Some u ->
  urlsOf rows !! urlsBefore rows i = Some u.
Proof.
  intros Hi Hu.
  replace (urlsOf rows) with (urlsOf (take i rows ++ r :: drop (S i) rows))
    by (rewrite (take_drop_middle rows i r Hi); reflexivity).
  unfold urlsOf at 1. rewrite omap_app. unfold urlsBefore, urlsOf.
  rewrite lookup_app_r by lia. rewrite Nat.sub_diag.
  cbn [omap list_omap]. rewrite Hu. reflexivity.
Qed.

Lemma signRows_lookup authUrls rows : forall authIndex i r,
  rows !! i = Some r ->
  signRows rows authUrls authIndex !! i
  = Some (item r (match present (column r) with
                  | Some _ => at_index authUrls (authIndex + urlsBefore rows i)
                  | None => JsNull
                  end)).
Proof.
  induction rows as [|r0 rows IH]; intros authIndex i r Hi; [discriminate Hi|].
  destruct i as [|i]; cbn in Hi.
  - injection Hi as ->. cbn [signRows]. unfold urlsBefore, urlsOf.
    cbn [take omap list_omap length].
    rewrite Nat.add_0_r. destruct (present (column r)); reflexivity.
  - cbn [signRows]. unfold urlsBefore, urlsOf in *. cbn [take omap list_omap].
    destruct (present (column r0)) as [u0|]; cbn [length].
    + etransitivity; [exact (IH (S authIndex) i r Hi)|]. do 2 f_equal.
      destruct (present (column r)); [|reflexivity]. f_equal. lia.
    + exact (IH authIndex i r Hi).
Qed.

Lemma signRows_length authUrls rows : forall authIndex,
  length (signRows rows authUrls authIndex) = length rows.
Proof.
  induction rows as [|r rows IH]; intros authIndex; [reflexivity|].
  cbn [signRows]. destruct (present (column r)); cbn; rewrite IH; reflexivity.
Qed.

End Cursor.

(** [SocialService.getFollowers] (lines 255-279 of the social service)
    from the answer [followersList] of its query on; [getFollowing]
    (lines 284-308) does the same with the answer of its own query. *)
Definition getFollowers (followersList : list (UserCard (option string)))
  : M (list (UserCard JsUrl)) :=
  let profileUrls := urlsOf profilePhotoUrl followersList in
  let* authUrls := getAuthenticatedUrls profileUrls in
  ret (signRows profilePhotoUrl with_photo followersList authUrls 0).

(** How a URL field [y] of a response stands to the column [x] it was
    made from, [rs] being what the batch returned for [refs]: [null] for
    a column that is [NULL] or empty, and otherwise a string, the entry
    of the batch at a position whose reference is the column's own URL;
    for a URL that the resolver passes through, that URL. *)
Definition servedFrom (refs rs : list string) (x : option string) (y : JsUrl) : Prop :=
  match present x with
  | None => y = JsNull
  | Some u =>
      exists j v, refs !! j = Some u /\ rs !! j = Some v /\ y = JsString v
        /\ (truthy (parseR2Url u) = None -> v = u)
  end.

(** What the cursor hands to each row when the batch is aligned. *)
Lemma signRows_served {Row Item} (column : Row -> option string) (item : Row -> JsUrl -> Item)
    rows authUrls i r :
  length authUrls = length (urlsOf column rows) ->
  (forall j u, urlsOf column rows !! j = Some u -> truthy (parseR2Url u) = None ->
     authUrls !! j = Some u) ->
  rows !! i = Some r ->
  exists y, signRows column item rows authUrls 0 !! i = Some (item r y)
    /\ servedFrom (urlsOf column rows) authUrls (column r) y.
Proof.
  intros Hlen Hpos Hi. rewrite (signRows_lookup column item _ _ 0 i r Hi).
  eexists. split; [reflexivity|]. unfold servedFrom.
  destruct (present (column r)) as [u|] eqn:Hu; [|reflexivity].
  cbn [Nat.add]. pose proof (urlsOf_lookup column _ _ _ _ Hi Hu) as Hin.
  unfold at_index.
  destruct (authUrls !! urlsBefore column rows i) as [v|] eqn:Hv.
  - exists (urlsBefore column rows i), v.
    split; [exact Hin|]. split; [exact Hv|]. split; [reflexivity|]. intros Hop.
    specialize (Hpos _ _ Hin Hop). congruence.
  - exfalso. apply lookup_ge_None in Hv. apply lookup_lt_Some in Hin. lia.
Qed.

(** X15: every follower gets their own photo.  On whichever path the
    batch went, when [getFollowers] returns it returns one card per row,
    in the order of the rows and with the other columns untouched; a row
    without a photo ([NULL] or the empty string) has [null], and a row
    with a photo has a string, never [undefined]: the entry of the batch
    at a position whose reference is the photo of this very row, even
    when rows without a photo come before it.  So an external photo URL,
    which the resolver passes through, comes back as the photo of the
    same row. *)
Theorem followers_keep_their_own_photo
    (followersList : list (UserCard (option string))) (w w' : World)
    (cards : list (UserCard JsUrl)) :
  getFollowers followersList w = (Ok cards, w') ->
  exists authUrls,
    resolveBatch (urlsOf profilePhotoUrl followersList) w = (Ok authUrls, w')
    /\ length cards = length followersList
    /\ forall i f, followersList !! i = Some f ->
         exists card, cards !! i = Some card
           /\ user_id card = user_id f /\ user_name card = user_name f
           /\ username card = username f
           /\ servedFrom (urlsOf profilePhotoUrl followersList) authUrls
                (profilePhotoUrl f) (profilePhotoUrl card).
Proof.
  unfold getFollowers, bind.
  destruct (getAuthenticatedUrls (urlsOf profilePhotoUrl followersList) w)
    as [[authUrls|e] w1] eqn:Hrun; [|discriminate].
  intros [= <- <-]. exists authUrls. split; [exact Hrun|].
  apply batch_aligned in Hrun as [Hlen Hpos].
  split; [apply signRows_length|]. intros i f Hi.
  destruct (signRows_served profilePhotoUrl with_photo _ _ i f Hlen Hpos Hi) as (y & Hy & Hserved).
  eexists. split; [exact Hy|]. repeat (split; [reflexivity|]). exact Hserved.
Qed.

(** ** [LooksService.deleteLook] *)

(** A row of the table [looks], with [U] for what its two image columns
    hold: [option string] in the database ([None] is SQL's [NULL]), a
    JavaScript value in a response.  Instants are milliseconds. *)
Record Look (U : Type) := {
  look_id : string;
  look_userId : string;
  productUrl : option string;
  productName : option string;
  productImageUrl : option string;
  generatedImageUrl : U;
  baseImageUrl : U;
  isPublic : bool;
  viewCount : Z;
  look_createdAt : Z;
}.
#[global] Arguments look_id {U} l.
#[global] Arguments look_userId {U} l.
#[global] Arguments productUrl {U} l.
#[global] Arguments productName {U} l.
#[global] Arguments productImageUrl {U} l.
#[global] Arguments generatedImageUrl {U} l.
#[global] Arguments baseImageUrl {U} l.
#[global] Arguments isPublic {U} l.
#[global] Arguments viewCount {U} l.
#[global] Arguments look_createdAt {U} l.

(** A row of the table [reactions]. *)
Record Reaction := {
  reaction_id : string;
  reaction_userId : string;
  reaction_lookId : string;
  reaction_type : string;
  reaction_createdAt : Z;
}.

(** The two tables [deleteLook] works on.  The database is taken to
    answer: its rejections are not modelled, and no time is charged to
    it. *)
Record Database := {
  looks : list (Look (option string));
  reactions : list Reaction;
}.

(** [{ success: false, error, status }] or [{ success: true }] *)
Inductive ServiceResult :=
| Failure (error : string) (status : Z)
| Success.

(** [deleteLook] (lines 122-152 of the looks service) *)
Definition deleteLook (lookId userId : string) (d : Database)
  : Op (ServiceResult * Database) :=
  (* db.query.looks.findFirst({ where: eq(looks.id, lookId) }) *)
  match List.find (fun l => bool_decide (look_id l = lookId)) (looks d) with
  | None => done (Failure "Look not found" 404, d)
  | Some look =>
      if negb (bool_decide (look_userId look = userId)) then
        done (Failure "Not authorized to delete this look" 403, d)
      else
        (* db.delete(reactions).where(eq(reactions.lookId, lookId)) *)
        let d1 := {| looks := looks d;
                     reactions := List.filter
                       (fun r => negb (bool_decide (reaction_lookId r = lookId)))
                       (reactions d) |} in
        (* db.delete(looks).where(eq(looks.id, lookId)) *)
        let d2 := {| looks := List.filter
                       (fun l => negb (bool_decide (look_id l = lookId))) (looks d1);
                     reactions := reactions d1 |} in
        let+ _ :=
          match present (generatedImageUrl look) with
          | Some fileUrl => deleteFile_detached fileUrl
          | None => done tt
          end in
        done (Success, d2)
  end.

(** X16: deleting a look does not delete its image.  Take a look whose
    image was uploaded under the key [fileName] and which holds, as
    [saveLook] stores it, the URL that [uploadFile] returned.  When its
    owner deletes it, the row and its reactions are gone and the call
    reports success, but the one command sent to R2 is a delete for a
    key spelled like the URL, and the image is still in the bucket,
    whatever R2 answers. *)
Theorem deleted_look_keeps_its_image
    (lookId userId fileName : string) (d : Database) (s : Storage)
    (look : Look (option string)) (o : R2Object) :
  List.find (fun l => bool_decide (look_id l = lookId)) (looks d) = Some look ->
  look_userId look = userId ->
  generatedImageUrl look = Some (r2Url R2_BUCKET_NAME fileName) ->
  objects s !! (R2_BUCKET_NAME, fileName) = Some o ->
  exists d' s',
    deleteLook lookId userId d s = (Returned (Success, d'), s')
    /\ (forall l, l ∈ looks d' -> look_id l <> lookId)
    /\ (forall r, r ∈ reactions d' -> reaction_lookId r <> lookId)
    /\ sent s' = sent s ++ [DeleteObject {| DeleteBucket := R2_BUCKET_NAME;
                                           DeleteKey := r2Url R2_BUCKET_NAME fileName |}]
    /\ objects s' !! (R2_BUCKET_NAME, fileName) = Some o
    /\ world s' = world s.
Proof.
  intros Hfind Hown Hurl Ho. unfold deleteLook. rewrite Hfind.
  rewrite bool_decide_eq_true_2 by exact Hown. cbn [negb]. rewrite Hurl.
  cbn [present looks reactions].
  assert (Hne : Js.nonEmpty (r2Url R2_BUCKET_NAME fileName) = true) by reflexivity.
  rewrite Hne.
  assert (Hobj : forall s1, objects s1 !! (R2_BUCKET_NAME, fileName) = Some o ->
            carry_out (DeleteObject {| DeleteBucket := R2_BUCKET_NAME;
                                       DeleteKey := r2Url R2_BUCKET_NAME fileName |})
                      (objects s1) !! (R2_BUCKET_NAME, fileName) = Some o).
  { intros s1 H1. cbn [carry_out DeleteBucket DeleteKey].
    rewrite lookup_delete_ne; [exact H1|]. intros [= H]. exact (r2Url_longer _ _ H). }
  cbv [deleteFile_detached deleteFile_send andThen done send].
  destruct (hd (Sent 0) (r2net s)) as [ms|ms message];
    (eexists _, _; split; [reflexivity|]; cbn [looks reactions sent objects world];
     split; [|split; [|split; [reflexivity|split; [|reflexivity]]]]).
  all: try (intros l Hl; apply list_elem_of_In, List.filter_In in Hl as [_ Hl];
            apply negb_true_iff, bool_decide_eq_false in Hl; exact Hl).
  - apply Hobj, Ho.
  - exact Ho.
Qed.

(** [{ ...l, generatedImageUrl: g, baseImageUrl: b }] *)
Definition with_images {U V} (l : Look U) (g b : V) : Look V :=
  {| look_id := look_id l; look_userId := look_userId l; productUrl := productUrl l;
     productName := productName l; productImageUrl := productImageUrl l;
     generatedImageUrl := g; baseImageUrl := b;
     isPublic := isPublic l; viewCount := viewCount l;
     look_createdAt := look_createdAt l |}.

(** A row of the feed query, and an item of the feed (where the columns
    of the look stand at the top level of the object). *)
Record FeedRow (U : Type) := {
  look : Look U;
  creator : UserCard U;
  reactionCount : Z;
  hasReacted : bool;
}.
#[global] Arguments look {U} f.
#[global] Arguments creator {U} f.
#[global] Arguments reactionCount {U} f.
#[global] Arguments hasReacted {U} f.

(** [urls.forEach(url => map.set(url, authUrls[authIndex++]))] on a
    [Map<string, string>]: the map after it and the cursor after it. *)
Fixpoint fillMap (urls authUrls : list string) (authIndex : nat) (m : gmap string JsUrl)
  : gmap string JsUrl * nat :=
  match urls with
  | [] => (m, authIndex)
  | url :: rest =>
      fillMap rest authUrls (S authIndex) (<[url := at_index authUrls authIndex]> m)
  end.

(** [x ? map.get(x) : null] *)
Definition signedField (m : gmap string JsUrl) (x : option string) : JsUrl :=
  match present x with
  | Some u => default JsUndefined (m !! u)
  | None => JsNull
  end.

(** [SocialService.getFeed] (lines 29-98 of the social service) from the
    answer [feedLooks] of its query on. *)
Definition getFeed (feedLooks : list (FeedRow (option string))) : M (list (FeedRow JsUrl)) :=
  let generatedImageUrls := omap (fun f => present (generatedImageUrl (look f))) feedLooks in
  let creatorPhotoUrls := omap (fun f => present (profilePhotoUrl (creator f))) feedLooks in
  let allUrls := generatedImageUrls ++ creatorPhotoUrls in
  let* authenticatedUrls := getAuthenticatedUrls allUrls in
  let gen := fillMap generatedImageUrls authenticatedUrls 0 ∅ in
  let genUrlMap := gen.1 in
  let creatorUrlMap := (fillMap creatorPhotoUrls authenticatedUrls gen.2 ∅).1 in
  let baseImageUrls := omap (fun f => present (baseImageUrl (look f))) feedLooks in
  let* signedBaseUrls := getAuthenticatedUrls baseImageUrls in
  let baseUrlMap := (fillMap baseImageUrls signedBaseUrls 0 ∅).1 in
  ret (map (fun f =>
              {| look := with_images (look f)
                           (signedField genUrlMap (generatedImageUrl (look f)))
                           (signedField baseUrlMap (baseImageUrl (look f)));
                 creator := with_photo (creator f)
                              (signedField creatorUrlMap (profilePhotoUrl (creator f)));
                 reactionCount := reactionCount f;
                 hasReacted := hasReacted f |})
           feedLooks).

(** After [fillMap] a URL of the list is mapped to the entry of
    [authUrls] at one of its own positions. *)
Lemma fillMap_spec authUrls urls : forall authIndex m,
  (authIndex + length urls <= length authUrls)%nat ->
  (fillMap urls authUrls authIndex m).2 = (authIndex + length urls)%nat
  /\ forall u, u ∈ urls ->
       exists j v, urls !! j = Some u /\ authUrls !! (authIndex + j)%nat = Some v
         /\ (fillMap urls authUrls authIndex m).1 !! u = Some (JsString v).
Proof.
  induction urls as [|u0 urls IH]; intros authIndex m Hlen.
  - cbn. split; [lia|]. intros u Hu. apply elem_of_nil in Hu. contradiction.
  - cbn [fillMap length] in *.
    destruct (IH (S authIndex) (<[u0 := at_index authUrls authIndex]> m)) as [Hidx Hmap]; [lia|].
    split; [rewrite Hidx; lia|]. intros u Hu.
    destruct (decide (u ∈ urls)) as [Hin|Hnin].
    + destruct (Hmap u Hin) as (j & v & Hj & Hv & Hm). exists (S j), v.
      split; [exact Hj|]. split; [|exact Hm].
      replace (authIndex + S j)%nat with (S authIndex + j)%nat by lia. exact Hv.
    + apply elem_of_cons in Hu as [->|Hu]; [|contradiction].
      destruct (lookup_lt_is_Some_2 authUrls authIndex) as [v Hv]; [lia|].
      exists 0%nat, v. split; [reflexivity|]. rewrite Nat.add_0_r. split; [exact Hv|].
      assert (Hkeep : forall urls' idx (m' : gmap string JsUrl),
                u0 ∉ urls' -> (fillMap urls' authUrls idx m').1 !! u0 = m' !! u0).
      { clear. induction urls' as [|x urls' IH']; intros idx m' Hx; [reflexivity|].
        cbn [fillMap]. rewrite IH'.
        - apply lookup_insert_ne. intros ->. apply Hx, elem_of_cons. auto.
        - intros Hin. apply Hx, elem_of_cons. auto. }
      rewrite (Hkeep urls _ _ Hnin), lookup_insert_eq. unfold at_index. rewrite Hv. reflexivity.
Qed.

Lemma signedField_served refs rs (col : list string) authIndex m x :
  length rs = length refs ->
  (forall i u, refs !! i = Some u -> truthy (parseR2Url u) = None -> rs !! i = Some u) ->
  (forall j u, col !! j = Some u -> refs !! (authIndex + j)%nat = Some u) ->
  (forall u, present x = Some u -> u ∈ col) ->
  servedFrom refs rs x (signedField (fillMap col rs authIndex m).1 x).
Proof.
  intros Hlen Hpos Hcol Hx. unfold servedFrom, signedField.
  destruct (present x) as [u|]; [|reflexivity].
  assert (Hin : u ∈ col) by (apply Hx; reflexivity).
  assert (Hbound : (authIndex + length col <= length rs)%nat).
  { destruct (lookup_lt_is_Some_2 col (length col - 1)) as [ul Hul].
    - destruct col; [apply elem_of_nil in Hin; contradiction|cbn; lia].
    - apply Hcol in Hul. apply lookup_lt_Some in Hul. rewrite Hlen. lia. }
  destruct (fillMap_spec rs col authIndex m Hbound) as [_ Hmap].
  destruct (Hmap u Hin) as (j & v & Hj & Hv & Hm).
  rewrite Hm. cbn [default]. exists (authIndex + j)%nat, v.
  split; [apply Hcol, Hj|]. split; [exact Hv|]. split; [reflexivity|].
  intros Hop. specialize (Hpos _ _ (Hcol _ _ Hj) Hop). congruence.
Qed.

(** X17: every item of the feed gets its own images.  The feed resolves
    the generated images and the creators' photos in one batch and the
    base images in a second one, and maps the results back by URL.  On
    whichever path the batches went, when [getFeed] returns there is one
    item per row, in order, with the counters untouched, and each of the
    three URL fields is [null] for an absent column and otherwise a
    string, never [undefined]: the entry of its batch at a position
    whose reference is that very column, also when several rows share a
    URL (the photo of a creator with several looks), and the URL itself
    when the resolver passes it through. *)
Theorem feed_items_keep_their_own_images
    (feedLooks : list (FeedRow (option string))) (w w' : World)
    (items : list (FeedRow JsUrl)) :
  getFeed feedLooks w = (Ok items, w') ->
  let generatedImageUrls := omap (fun f => present (generatedImageUrl (look f))) feedLooks in
  let creatorPhotoUrls := omap (fun f => present (profilePhotoUrl (creator f))) feedLooks in
  let baseImageUrls := omap (fun f => present (baseImageUrl (look f))) feedLooks in
  exists authenticatedUrls w1 signedBaseUrls,
    resolveBatch (generatedImageUrls ++ creatorPhotoUrls) w = (Ok authenticatedUrls, w1)
    /\ resolveBatch baseImageUrls w1 = (Ok signedBaseUrls, w')
    /\ length items = length feedLooks
    /\ forall i f, feedLooks !! i = Some f ->
         exists item, items !! i = Some item
           /\ look_id (look item) = look_id (look f)
           /\ user_id (creator item) = user_id (creator f)
           /\ reactionCount item = reactionCount f
           /\ hasReacted item = hasReacted f
           /\ servedFrom (generatedImageUrls ++ creatorPhotoUrls) authenticatedUrls
                (generatedImageUrl (look f)) (generatedImageUrl (look item))
           /\ servedFrom (generatedImageUrls ++ creatorPhotoUrls) authenticatedUrls
                (profilePhotoUrl (creator f)) (profilePhotoUrl (creator item))
           /\ servedFrom baseImageUrls signedBaseUrls
                (baseImageUrl (look f)) (baseImageUrl (look item)).
Proof.
  intros Hrun gens photos bases. unfold getFeed, bind in Hrun. fold gens photos bases in Hrun.
  destruct (getAuthenticatedUrls (gens ++ photos) w) as [[auth|e] w1] eqn:Hfirst;
    [|discriminate].
  destruct (getAuthenticatedUrls bases w1) as [[base|e] w2] eqn:Hsecond; [|discriminate].
  injection Hrun as <- <-. exists auth, w1, base.
  split; [exact Hfirst|]. split; [exact Hsecond|].
  apply batch_aligned in Hfirst as [Hlen1 Hpos1]. apply batch_aligned in Hsecond as [Hlen2 Hpos2].
  split; [apply length_map|]. intros i f Hi.
  rewrite list_lookup_fmap, Hi. cbn [fmap option_fmap option_map]. eexists. split; [reflexivity|].
  cbn [look creator reactionCount hasReacted with_images with_photo look_id user_id
       generatedImageUrl baseImageUrl profilePhotoUrl].
  assert (Hf : f ∈ feedLooks) by (eapply list_elem_of_lookup_2, Hi).
  assert (Hgen2 : (fillMap gens auth 0 ∅).2 = length gens).
  { apply (fillMap_spec auth gens 0 ∅). rewrite Hlen1, length_app. lia. }
  split; [reflexivity|]. split; [reflexivity|]. split; [reflexivity|]. split; [reflexivity|].
  split; [|split].
  - apply signedField_served; [exact Hlen1|exact Hpos1| |].
    + intros j u Hj. cbn [Nat.add]. apply lookup_app_l_Some, Hj.
    + intros u Hu. apply list_elem_of_omap. exists f. auto.
  - rewrite Hgen2. apply signedField_served; [exact Hlen1|exact Hpos1| |].
    + intros j u Hj. rewrite lookup_app_r by lia.
      replace (length gens + j - length gens)%nat with j by lia. exact Hj.
    + intros u Hu. apply list_elem_of_omap. exists f. auto.
  - apply signedField_served; [exact Hlen2|exact Hpos2| |].
    + intros j u Hj. exact Hj.
    + intros u Hu. apply list_elem_of_omap. exists f. auto.
Qed.

Lemma fillMap_other authUrls urls : forall authIndex (m : gmap string JsUrl) u,
  u ∉ urls -> (fillMap urls authUrls authIndex m).1 !! u = m !! u.
Proof.
  induction urls as [|x urls IH]; intros authIndex m u Hu; [reflexivity|].
  cbn [fillMap]. rewrite IH.
  - apply lookup_insert_ne. intros ->. apply Hu, elem_of_cons. auto.
  - intros Hin. apply Hu, elem_of_cons. auto.
Qed.

(** ** [SocialService.getLeaderboard] *)

(** A row of the leaderboard query. *)
Record Leader (U : Type) := {
  leader_id : string;
  leader_name : option string;
  leader_username : option string;
  leader_profilePhotoUrl : U;
  streakCurrent : Z;
}.
#[global] Arguments leader_id {U} l.
#[global] Arguments leader_name {U} l.
#[global] Arguments leader_username {U} l.
#[global] Arguments leader_profilePhotoUrl {U} l.
#[global] Arguments streakCurrent {U} l.

(** [{ ...u, profilePhotoUrl: v }] *)
Definition with_leader_photo {U V} (u : Leader U) (v : V) : Leader V :=
  {| leader_id := leader_id u; leader_name := leader_name u;
     leader_username := leader_username u; leader_profilePhotoUrl := v;
     streakCurrent := streakCurrent u |}.

(** What the distributed tier holds under the key [social:leaderboard]:
    nothing, or a leaderboard and the instant at which its TTL lapses.
    No other key of the store is read or written here, and the keys of
    the signed URLs all start with [signed_url:], so this slot is kept
    apart from [redis] of the world. *)
Definition Slot : Type := option (list (Leader JsUrl) * Z).

(** [SOCIAL_TTL.LEADERBOARD] (seconds) *)
Definition LEADERBOARD_TTL : Z := 60 * 60.

(** [redis.get(SOCIAL_CACHE.LEADERBOARD)] *)
Definition leaderboard_get (slot : Slot) : M (Pending (option (list (Leader JsUrl)))) :=
  let* o := net_next in
  let* t := Date_now in
  match o with
  | Answers ms =>
      ret {| delay := Z.of_N ms;
             outcome := Ok (match slot with
                            | Some (value, deadline) =>
                                if t <? deadline then Some value else None
                            | None => None
                            end) |}
  | Rejects ms => ret {| delay := Z.of_N ms; outcome := Throw RedisError |}
  end.

(** [redis.set(SOCIAL_CACHE.LEADERBOARD, result, { ex })]: the promise
    and the slot after the call. *)
Definition leaderboard_set (result : list (Leader JsUrl)) (ex : Z) (slot : Slot)
  : M (Pending unit * Slot) :=
  let* o := net_next in
  let* t := Date_now in
  match o with
  | Answers ms =>
      ret ({| delay := Z.of_N ms; outcome := Ok tt |}, Some (result, t + ex * 1000))
  | Rejects ms =>
      ret ({| delay := Z.of_N ms; outcome := Throw RedisError |}, slot)
  end.

(** [SocialService.getLeaderboard] (lines 313-351 of the social service)
    from the answer [leaderboard] of its query; the value is the
    response and the slot after the call. *)
Definition getLeaderboard (leaderboard : list (Leader (option string))) (slot : Slot)
  : M (list (Leader JsUrl) * Slot) :=
  let* cached :=
    try_catch
      (let* p := leaderboard_get slot in
       wait p)
      (fun err => ret None) in
  match cached with
  | Some hit => ret (hit, slot)
  | None =>
      let profileUrls := urlsOf leader_profilePhotoUrl leaderboard in
      let* authUrls := getAuthenticatedUrls profileUrls in
      let result := signRows leader_profilePhotoUrl with_leader_photo leaderboard authUrls 0 in
      let* written := leaderboard_set result LEADERBOARD_TTL slot in
      let* _ := try_catch (wait written.1) (fun err => ret tt) in
      ret (result, written.2)
  end.

(** X18: a leaderboard is handed out for an hour, whatever becomes of
    its URLs.  When the slot is empty, the batch returns and [redis.set]
    answers, the response is stored with a TTL of 3600 s.  From then on
    every call whose [redis.get] is answered before that TTL lapses
    returns the stored response as it is, whatever rows the database
    holds by then: the tiers of the signed URLs are not consulted, the
    signer is not called, and no expiry is compared with the clock,
    although an entry of the local tier is vouched for at most 50
    minutes after its URL was signed. *)
Theorem leaderboard_is_served_for_an_hour
    (leaderboard : list (Leader (option string))) (w : World) (ms ms' : N)
    (authUrls : list string) (w2 : World) :
  hd (Answers 0) (net w) = Answers ms ->
  resolveBatch (urlsOf leader_profilePhotoUrl leaderboard)
    (set_now (now w + Z.of_N ms) (set_net (tl (net w)) w)) = (Ok authUrls, w2) ->
  hd (Answers 0) (net w2) = Answers ms' ->
  let result := signRows leader_profilePhotoUrl with_leader_photo leaderboard authUrls 0 in
  let slot := Some (result, now w2 + LEADERBOARD_TTL * 1000) in
  (getLeaderboard leaderboard None w).1 = Ok (result, slot)
  /\ forall rows (w4 : World) (ms4 : N),
       hd (Answers 0) (net w4) = Answers ms4 ->
       now w4 < now w2 + 3600000 ->
       getLeaderboard rows slot w4
       = (Ok (result, slot), set_now (now w4 + Z.of_N ms4) (set_net (tl (net w4)) w4)).
Proof.
  intros Hget Hbatch Hset result slot. split.
  - unfold getLeaderboard, leaderboard_get, leaderboard_set.
    cbv [try_catch bind net_next Date_now ret wait set_net set_now].
    cbn [now signedUrlCache redis net trace delay outcome fst snd].
    rewrite Hget. cbn [now signedUrlCache redis net trace delay outcome fst snd].
    cbv [set_now set_net] in Hbatch. cbn [now signedUrlCache redis net trace] in Hbatch.
    unfold resolveBatch in Hbatch. rewrite Hbatch.
    cbn [net now]. rewrite Hset. reflexivity.
  - intros rows w4 ms4 Hget4 Hlt.
    unfold getLeaderboard, leaderboard_get.
    cbv [try_catch bind net_next Date_now ret wait set_net set_now].
    cbn [now signedUrlCache redis net trace delay outcome fst snd].
    rewrite Hget4. subst slot. cbn [now signedUrlCache redis net trace delay outcome].
    assert (Hlt' : (now w4 <? now w2 + LEADERBOARD_TTL * 1000) = true)
      by (apply Z.ltb_lt; unfold LEADERBOARD_TTL; lia).
    rewrite Hlt'. reflexivity.
Qed.

(** ** [StudioService.getProjectAssets] *)

(** A row of the table [studio_assets]. *)
Record Asset := {
  asset_id : string;
  asset_projectId : string;
  asset_userId : string;
  asset_type : string;
  asset_url : string;
  asset_name : option string;
  asset_metadata : option string;
  asset_createdAt : Z;
}.

(** A condition made by drizzle's [eq(column, value)]: a JavaScript
    object. *)
Inductive SQL :=
| ColumnEq (column : Asset -> string) (value : string).

Definition holds (c : SQL) (a : Asset) : bool :=
  match c with
  | ColumnEq column value => bool_decide (column a = value)
  end.

(** JavaScript's [a && b] on two objects: an object is truthy, so the
    value is [b] (drizzle's conjunction is the function [and]). *)
Definition js_and (a b : SQL) : SQL := b.

Definition newerFirst (a b : Asset) : Prop := asset_createdAt b <= asset_createdAt a.

#[local] Instance newerFirst_dec a b : Decision (newerFirst a b) := Z_le_dec _ _.

(** [db.select().from(studioAssets).where(c)
     .orderBy(desc(studioAssets.createdAt)).limit(limit).offset(offset)]
    on the rows [table]; among rows of one instant the order is the
    database's choice, here the one of a stable sort. *)
Definition selectAssets (table : list Asset) (c : SQL) (limit offset : nat) : list Asset :=
  take limit (drop offset (merge_sort newerFirst (List.filter (holds c) table))).

(** An asset of the response: the row, and the properties [r2Url] (absent
    when no URL was signed) and [url] laid over it. *)
Record AssetOut := {
  row : Asset;
  out_r2Url : JsUrl;
  out_url : string;
}.

(** [v || d] for a string or [undefined] [v] *)
Definition or_else (v : JsUrl) (d : string) : string :=
  match v with
  | JsString s => if Js.nonEmpty s then s else d
  | _ => d
  end.

(** [getProjectAssets] (lines 521-551 of the studio service) on the rows
    [table] of [studio_assets]; [page] and [limit] default to 1 and 20. *)
Definition getProjectAssets (table : list Asset) (projectId : string) (type : option string)
    (page limit : nat) : M (list AssetOut) :=
  let offset := ((page - 1) * limit)%nat in
  let query :=
    match present type with
    | Some t => js_and (ColumnEq asset_projectId projectId) (ColumnEq asset_type t)
    | None => ColumnEq asset_projectId projectId
    end in
  let assets := selectAssets table query limit offset in
  let r2Urls := List.filter (Js.startsWith "r2://") (map asset_url assets) in
  if (0 <? length r2Urls)%nat then
    let* signedUrls := getAuthenticatedUrls r2Urls in
    let urlMap := (fillMap r2Urls signedUrls 0 ∅).1 in
    ret (map (fun asset =>
                {| row := asset;
                   out_r2Url := JsString (asset_url asset);
                   out_url := or_else (default JsUndefined (urlMap !! asset_url asset))
                                      (asset_url asset) |})
             assets)
  else
    ret (map (fun asset =>
                {| row := asset; out_r2Url := JsUndefined; out_url := asset_url asset |})
             assets).

Lemma selectAssets_sound table c limit offset a :
  a ∈ selectAssets table c limit offset -> a ∈ table /\ holds c a = true.
Proof.
  unfold selectAssets. intros Hin.
  apply (subseteq_take limit), (subseteq_drop offset) in Hin.
  rewrite merge_sort_Permutation in Hin.
  apply list_elem_of_In, List.filter_In in Hin as [Hin Hc].
  split; [apply list_elem_of_In, Hin|exact Hc].
Qed.

Lemma selectAssets_complete table c limit a :
  a ∈ table -> holds c a = true ->
  (length (List.filter (holds c) table) <= limit)%nat ->
  a ∈ selectAssets table c limit 0.
Proof.
  intros Hin Hc Hlen. unfold selectAssets. cbn [drop].
  rewrite take_ge.
  - rewrite merge_sort_Permutation. apply list_elem_of_In, List.filter_In.
    split; [apply list_elem_of_In, Hin|exact Hc].
  - rewrite merge_sort_Permutation. exact Hlen.
Qed.

Lemma getProjectAssets_rows table projectId type page limit w out w' :
  getProjectAssets table projectId type page limit w = (Ok out, w') ->
  map row out
  = selectAssets table
      (match present type with
       | Some t => ColumnEq asset_type t
       | None => ColumnEq asset_projectId projectId
       end) limit ((page - 1) * limit).
Proof.
  unfold getProjectAssets, js_and.
  destruct (present type) as [t|];
    (destruct (0 <? length _)%nat;
     [ unfold bind; destruct (getAuthenticatedUrls _ w) as [[signedUrls|e] w1]; [|discriminate]
     | ];
     intros [= <- _]; rewrite map_map; cbn [row]; apply map_id).
Qed.

(** X19: the filter by type drops the filter by project.  With a type
    given, the condition handed to the query is the value of
    [eq(projectId) && eq(type)], which is its second operand; so every
    asset returned has the type asked for, whatever project it belongs
    to, and on a first page that is long enough every asset of that
    type in the table is returned, those of other projects included.
    With no type given every asset returned belongs to the project. *)
Theorem assets_by_type_come_from_every_project
    (table : list Asset) (projectId : string) (type : option string)
    (page limit : nat) (w w' : World) (out : list AssetOut) :
  getProjectAssets table projectId type page limit w = (Ok out, w') ->
  (present type = None ->
     forall o, o ∈ out -> row o ∈ table /\ asset_projectId (row o) = projectId)
  /\ (forall t, present type = Some t ->
        (forall o, o ∈ out -> row o ∈ table /\ asset_type (row o) = t)
        /\ (page = 1%nat ->
            (length (List.filter (fun a => bool_decide (asset_type a = t)) table) <= limit)%nat ->
            forall a, a ∈ table -> asset_type a = t -> exists o, o ∈ out /\ row o = a)).
Proof.
  intros Hrun. apply getProjectAssets_rows in Hrun. split.
  - intros Hnone o Ho. rewrite Hnone in Hrun.
    assert (Hin : row o ∈ map row out) by (apply list_elem_of_fmap; eauto).
    rewrite Hrun in Hin. apply selectAssets_sound in Hin as [Hin Hc].
    split; [exact Hin|]. cbn in Hc. apply bool_decide_eq_true in Hc. exact Hc.
  - intros t Ht. rewrite Ht in Hrun. split.
    + intros o Ho.
      assert (Hin : row o ∈ map row out) by (apply list_elem_of_fmap; eauto).
      rewrite Hrun in Hin. apply selectAssets_sound in Hin as [Hin Hc].
      split; [exact Hin|]. cbn in Hc. apply bool_decide_eq_true in Hc. exact Hc.
    + intros -> Hlen a Ha Hta. cbn [Nat.sub Nat.mul] in Hrun.
      assert (Hin : a ∈ map row out).
      { rewrite Hrun. apply selectAssets_complete; [exact Ha| |exact Hlen].
        cbn. apply bool_decide_eq_true. exact Hta. }
      apply list_elem_of_fmap in Hin as (o & -> & Ho). eauto.
Qed.

(** X20: what [getProjectAssets] does to the URLs.  Only the [r2://]
    URLs of the page go to the batch resolver.  When there is none, the
    rows come back as they are and the world is untouched.  Otherwise
    every asset carries its stored URL as [r2Url]; an asset with another
    kind of URL keeps it as [url], and an asset with an [r2://] URL gets
    the entry of the batch at a position whose reference is its own
    URL, or its stored URL should that entry be empty. *)
Theorem assets_get_their_own_url
    (table : list Asset) (projectId : string) (type : option string)
    (page limit : nat) (w w' : World) (out : list AssetOut) :
  getProjectAssets table projectId type page limit w = (Ok out, w') ->
  let r2Urls := List.filter (Js.startsWith "r2://") (map (fun o => asset_url (row o)) out) in
  (r2Urls = [] ->
     w' = w /\ forall o, o ∈ out -> out_r2Url o = JsUndefined /\ out_url o = asset_url (row o))
  /\ (r2Urls <> [] ->
      exists signedUrls,
        resolveBatch r2Urls w = (Ok signedUrls, w')
        /\ forall o, o ∈ out ->
             out_r2Url o = JsString (asset_url (row o))
             /\ (Js.startsWith "r2://" (asset_url (row o)) = false ->
                 out_url o = asset_url (row o))
             /\ (Js.startsWith "r2://" (asset_url (row o)) = true ->
                 exists j v, r2Urls !! j = Some (asset_url (row o))
                   /\ signedUrls !! j = Some v
                   /\ out_url o = if Js.nonEmpty v then v else asset_url (row o))).
Proof.
  intros Hrun. pose proof (getProjectAssets_rows _ _ _ _ _ _ _ _ Hrun) as Hrows.
  cbn zeta. rewrite <- (map_map row asset_url), Hrows.
  unfold getProjectAssets, js_and in Hrun.
  set (assets := selectAssets table _ limit ((page - 1) * limit)) in *.
  set (r2Urls := List.filter (Js.startsWith "r2://") (map asset_url assets)) in *.
  destruct r2Urls as [|u0 rest] eqn:Hr2.
  - cbn [length Nat.ltb Nat.leb] in Hrun. injection Hrun as <- <-.
    split; [|congruence]. intros _. split; [reflexivity|].
    intros o Ho. apply list_elem_of_fmap in Ho as (a & -> & _). split; reflexivity.
  - rewrite <- Hr2 in *.
    assert (Hpos : (0 <? length r2Urls)%nat = true) by (rewrite Hr2; reflexivity).
    rewrite Hpos in Hrun. unfold bind in Hrun.
    destruct (getAuthenticatedUrls r2Urls w) as [[signedUrls|e] w1] eqn:Hbatch; [|discriminate].
    injection Hrun as <- <-. split; [rewrite Hr2; congruence|]. intros _.
    exists signedUrls. split; [exact Hbatch|].
    apply batch_aligned in Hbatch as [Hlen _].
    intros o Ho. apply list_elem_of_fmap in Ho as (a & -> & Ha).
    cbn [row out_r2Url out_url]. split; [reflexivity|]. split.
    + intros Hext. rewrite fillMap_other; [reflexivity|].
      intros Hin. apply list_elem_of_In, List.filter_In in Hin as [_ Hin]. congruence.
    + intros Hr.
      assert (Hin : asset_url a ∈ r2Urls).
      { apply list_elem_of_In, List.filter_In. split; [|exact Hr].
        apply list_elem_of_In, list_elem_of_fmap. eauto. }
      destruct (fillMap_spec signedUrls r2Urls 0 ∅) as [_ Hmap]; [lia|].
      destruct (Hmap _ Hin) as (j & v & Hj & Hv & Hm). exists j, v.
      split; [exact Hj|]. split; [exact Hv|]. rewrite Hm. reflexivity.
Qed.

(** ** [StudioService.getDownloadUrl] *)

Lemma replace_unfold p r s :
  Js.replace p r s
  = if Js.startsWith p s then r +:+ Js.drop (String.length p) s
    else match s with
         | EmptyString => EmptyString
         | String c s' => String c (Js.replace p r s')
         end.
Proof. destruct s; reflexivity. Qed.

Lemma startsWith_app p s : Js.startsWith p (p +:+ s) = true.
Proof.
  induction p as [|a p IH]; [reflexivity|]. rewrite append_cons. cbn [Js.startsWith].
  rewrite decide_True by reflexivity. exact IH.
Qed.

Lemma drop_app p s : Js.drop (String.length p) (p +:+ s) = s.
Proof. induction p as [|a p IH]; [reflexivity|]. rewrite append_cons. exact IH. Qed.

Lemma replace_prefix p r s : Js.replace p r (p +:+ s) = r +:+ s.
Proof. rewrite replace_unfold, startsWith_app, drop_app. reflexivity. Qed.

Lemma replace_absent p r s : includes p s = false -> Js.replace p r s = s.
Proof.
  induction s as [|c s IH]; intros H; rewrite replace_unfold; cbn [includes] in H;
    apply orb_false_iff in H as [H1 H2]; rewrite H1; [reflexivity|].
  rewrite (IH H2). reflexivity.
Qed.

(** [parts.pop()]: the last element. *)
Definition pop (parts : list string) : option string := last parts.

(** [fileKey.split('/').pop() || 'download.png'] *)
Definition downloadName (fileKey : string) : string :=
  match present (pop (Js.split "/" fileKey)) with
  | Some name => name
  | None => "download.png"
  end.

Section Download.

(** For a URL that is not an [r2://] one: what [new URL(url)], the test
    [urlObj.hostname.includes('r2.cloudflarestorage.com')] and
    [decodeURIComponent(urlObj.pathname.substring(1))] yield together:
    the key, when the URL parses, has such a host and decodes; nothing
    when one of them throws or the host is another one. *)
Variable hostedKey : string -> option string.

(** [getDownloadUrl] (lines 589-615 of the studio service) *)
Definition getDownloadUrl (url : string) : M string :=
  if Js.startsWith "r2://" url then
    let fileKey := Js.replace ("r2://" +:+ R2_BUCKET_NAME +:+ "/") EmptyString url in
    let fileName := downloadName fileKey in
    getSignedDownloadUrlForAttachment fileKey fileName
  else
    try_catch
      (match hostedKey url with
       | Some fileKey =>
           let fileName := downloadName fileKey in
           getSignedDownloadUrlForAttachment fileKey fileName
       | None => ret url
       end)
      (fun e => ret url).

(** X21: the key that [getDownloadUrl] has signed.  For a reference into
    the configured bucket it is the key that [parseR2Url] reads from the
    reference, signed as an attachment named after its last segment.
    For an [r2://] reference into any other bucket (one in which the
    prefix of the configured bucket does not occur) it is the whole
    reference, where the resolver would sign the parser's key.  And a
    rejection of the signer reaches the caller for an [r2://] reference,
    while for a hosted URL it is dropped and the URL comes back
    unchanged. *)
Theorem download_url_key (w : World) :
  (forall key,
     hasChar "/" R2_BUCKET_NAME = false ->
     parseR2Url (r2Url R2_BUCKET_NAME key) = Some key
     /\ getDownloadUrl (r2Url R2_BUCKET_NAME key) w
        = resolveAttachment key (downloadName key) w)
  /\ (forall bucket key,
        includes ("r2://" +:+ R2_BUCKET_NAME +:+ "/") (r2Url bucket key) = false ->
        getDownloadUrl (r2Url bucket key) w
        = resolveAttachment (r2Url bucket key) (downloadName (r2Url bucket key)) w)
  /\ (forall url key e,
        Js.startsWith "r2://" url = false -> hostedKey url = Some key ->
        getSignedUrl (attachmentCommand key (downloadName key)) 3600 (now w) = Throw e ->
        (getDownloadUrl url w).1 = Ok url
        /\ (resolveAttachment key (downloadName key) w).1 = Throw e).
Proof.
  split; [|split].
  - intros key Hb. split; [apply parse_r2Url, Hb|].
    unfold getDownloadUrl, r2Url at 1.
    change (Js.startsWith "r2://" ("r2://" +:+ R2_BUCKET_NAME +:+ "/" +:+ key)) with true.
    cbn match. unfold r2Url.
    replace ("r2://" +:+ R2_BUCKET_NAME +:+ "/" +:+ key)
      with (("r2://" +:+ R2_BUCKET_NAME +:+ "/") +:+ key)
      by (rewrite !append_assoc; reflexivity).
    rewrite replace_prefix. reflexivity.
  - intros bucket key Hinc. unfold getDownloadUrl.
    change (Js.startsWith "r2://" (r2Url bucket key)) with true. cbn match.
    rewrite (replace_absent _ _ _ Hinc). reflexivity.
  - intros url key e Hs Hk Hsig. unfold getDownloadUrl. rewrite Hs, Hk.
    unfold try_catch. fold (resolveAttachment key (downloadName key)).
    rewrite attachment_run, Hsig. split; reflexivity.
Qed.

End Download.

End Resolver.

(** * The development at work on the concrete environment *)

Example parse_canonical :
  parseR2Url "r2://bucket/users/a.jpg" = Some "users/a.jpg".
Proof. reflexivity. Qed.

Example parse_bucket_only : parseR2Url "r2://bucket" = Some EmptyString.
Proof. reflexivity. Qed.

Example parse_legacy :
  parseR2Url "https://f005.backblazeb2.com/file/snatch/users/a.jpg" = Some "users/a.jpg".
Proof. reflexivity. Qed.

Example parse_opaque : parseR2Url "https://cdn.example.com/logo.png" = None.
Proof. reflexivity. Qed.

Example parse_drops_the_bucket :
  parseR2Url "r2://snatch/a.jpg" = parseR2Url "r2://archive/a.jpg".
Proof. reflexivity. Qed.

Lemma demo_signer_answers k t :
  k <> "missing.jpg" -> exists u, Demo.signer (objectCommand Demo.bucket k) SIGNED_URL_EXPIRY t = Ok u.
Proof.
  intros Hk. unfold Demo.signer, objectCommand. cbn [Key].
  destruct (decide (k = "missing.jpg")); [contradiction|]. eauto.
Qed.


Lemma run_yields {A} (m : M A) w :
  match (m w).1 with Ok _ => True | Throw _ => False end -> exists a w', m w = (Ok a, w').
Proof. destruct (m w) as [[a|e] w']; cbn; [eauto|contradiction]. Qed.

(** C1: a rejected call of the distributed tier does reach the caller.
    With an empty local tier, [resolve] throws when [redis.get] rejects,
    and it throws when [redis.set] rejects although the URL has been
    signed; [resolveBatch] throws when [mget] rejects and the [get] of the
    fallback rejects too.  Only the rejection of the bulk write, which
    nobody waits for, is dropped. *)
Theorem distributed_failures_reach_the_caller :
  (resolve Demo.bucket Demo.signer Demo.signingTime "r2://snatch/a.jpg"
     (Demo.scripted 0 [Rejects 20])).1 = Throw RedisError
  /\ (resolve Demo.bucket Demo.signer Demo.signingTime "r2://snatch/a.jpg"
        (Demo.scripted 0 [Answers 20; Rejects 20])).1 = Throw RedisError
  /\ length (signerCalls (trace (resolve Demo.bucket Demo.signer Demo.signingTime "r2://snatch/a.jpg"
        (Demo.scripted 0 [Answers 20; Rejects 20])).2)) = 1%nat
  /\ (resolveBatch Demo.bucket Demo.signer Demo.signingTime ["r2://snatch/a.jpg"]
        (Demo.scripted 0 [Rejects 20; Rejects 20])).1 = Throw RedisError
  /\ (resolveBatch Demo.bucket Demo.signer Demo.signingTime ["r2://snatch/a.jpg"]
        (Demo.scripted 0 [Answers 20; Rejects 20])).1
     = Ok ["https://r2.example/a.jpg?X-Amz-Date=20&X-Amz-Expires=3600"].
Proof. repeat split; vm_compute; reflexivity. Qed.

(** C4: the fallback does not resolve one reference after another.  Take
    the same reference twice and let [mget] reject: the fallback starts
    both resolutions before either has filled the local tier, so the
    signer is called twice, where resolving them one after another from
    the same world calls it once.  A key the signer rejects does fail the
    whole batch. *)
Theorem fallback_resolves_all_at_once :
  (batch_body Demo.bucket Demo.signer Demo.signingTime ["r2://snatch/a.jpg"; "r2://snatch/a.jpg"]
     (Demo.scripted 0 [Rejects 5])).1 = Throw RedisError
  /\ length (signerCalls (trace
       (resolveBatch Demo.bucket Demo.signer Demo.signingTime ["r2://snatch/a.jpg"; "r2://snatch/a.jpg"]
          (Demo.scripted 0 [Rejects 5])).2)) = 2%nat
  /\ length (signerCalls (trace
       (sequentially Demo.bucket Demo.signer Demo.signingTime ["r2://snatch/a.jpg"; "r2://snatch/a.jpg"]
          (batch_body Demo.bucket Demo.signer Demo.signingTime ["r2://snatch/a.jpg"; "r2://snatch/a.jpg"]
             (Demo.scripted 0 [Rejects 5])).2).2)) = 1%nat
  /\ (resolveBatch Demo.bucket Demo.signer Demo.signingTime ["r2://snatch/a.jpg"; "r2://snatch/missing.jpg"]
        (Demo.scripted 0 [Rejects 5])).1 = Throw SignerError.
Proof. repeat split; vm_compute; reflexivity. Qed.

(** C3, against the claim as stated: with key 1 inside its window in the
    distributed tier and a bulk read that takes 3000 ms, [resolve] yields
    the cached URL and [resolveBatch], in the same world, a newly signed
    one. *)
Lemma slow_bulk_read_breaks_the_agreement :
  (resolve Demo.bucket Demo.signer Demo.signingTime "r2://snatch/k1.jpg" (Demo.warm3 [Answers 3000])).1
    = Ok "https://r2.example/k1.jpg?cached"
  /\ (resolveBatch Demo.bucket Demo.signer Demo.signingTime ["r2://snatch/k1.jpg"] (Demo.warm3 [Answers 3000])).1
    = Ok ["https://r2.example/k1.jpg?X-Amz-Date=3000&X-Amz-Expires=3600"].
Proof. split; vm_compute; reflexivity. Qed.

(** C6, against the claim as stated: two different references to the key
    [a.jpg], which neither tier holds, get two signer calls for that key;
    and key 1, which the distributed tier holds inside its window, gets a
    signer call when the bulk read is late. *)
Lemma signer_calls_are_not_one_per_cold_key :
  (NoDup ["r2://snatch/a.jpg"; "r2://archive/a.jpg"]
   /\ map parseR2Url ["r2://snatch/a.jpg"; "r2://archive/a.jpg"] = [Some "a.jpg"; Some "a.jpg"]
   /\ length (signerCallsOf "a.jpg" (trace
        (resolveBatch Demo.bucket Demo.signer Demo.signingTime ["r2://snatch/a.jpg"; "r2://archive/a.jpg"]
           (Demo.cold 0)).2)) = 2%nat)
  /\ length (signerCallsOf "k1.jpg" (trace
       (resolveBatch Demo.bucket Demo.signer Demo.signingTime Demo.refs5 (Demo.warm3 [Answers 3000])).2)) = 1%nat.
Proof.
  split; [split; [|split]|]; try (vm_compute; reflexivity).
  apply NoDup_cons. split; [|apply NoDup_singleton].
  intros H. apply list_elem_of_singleton in H. discriminate H.
Qed.

(** The world after a first resolution of [a.jpg] from cold tiers. *)
Definition afterFirst : World :=
  (await (getSignedDownloadUrl Demo.bucket Demo.signer Demo.signingTime "a.jpg") (Demo.cold 0)).2.




Lemma demo_five_keys_answer t :
  Forall (fun k => exists v, signedUrlOf Demo.bucket Demo.signer k t = Ok v)
         ["k1.jpg"; "k2.jpg"; "k3.jpg"; "k4.jpg"; "k5.jpg"].
Proof. repeat constructor; apply demo_signer_answers; discriminate. Defined.

Lemma hanging_bulk_read_witness :
  MGET_DEADLINE_MS <= delayOf (firstOutcome (Demo.warm3 [Answers 3000]))
  /\ Forall (fun k => exists v, signedUrlOf Demo.bucket Demo.signer k (1000 + MGET_DEADLINE_MS) = Ok v)
            (omap (needsLookup ∅ 1000) Demo.refs5)
  /\ exists w' new,
       resolveBatch Demo.bucket Demo.signer Demo.signingTime Demo.refs5 (Demo.warm3 [Answers 3000])
       = (Ok (map (finalValue Demo.bucket Demo.signer ∅ 1000 (fun _ => None)
                     (1000 + MGET_DEADLINE_MS)) Demo.refs5), w')
       /\ length (map (finalValue Demo.bucket Demo.signer ∅ 1000 (fun _ => None)
                         (1000 + MGET_DEADLINE_MS)) Demo.refs5) = length Demo.refs5
       /\ trace w' = trace (Demo.warm3 [Answers 3000]) ++ new
       /\ signerCalls new
          = map (signCall Demo.bucket Demo.signer (1000 + MGET_DEADLINE_MS))
                (omap (needsLookup ∅ 1000) Demo.refs5).
Proof.
  assert (H1 : MGET_DEADLINE_MS <= delayOf (firstOutcome (Demo.warm3 [Answers 3000])))
    by (vm_compute; discriminate).
  assert (H2 : Forall (fun k => exists v,
                 signedUrlOf Demo.bucket Demo.signer k (1000 + MGET_DEADLINE_MS) = Ok v)
                 (omap (needsLookup ∅ 1000) Demo.refs5))
    by apply demo_five_keys_answer.
  split; [exact H1|]. split; [exact H2|].
  exact (batch_survives_hanging_bulk_read Demo.bucket Demo.signer Demo.signingTime Demo.refs5
           (Demo.warm3 [Answers 3000]) H1 H2).
Defined.

Lemma three_of_five_cached_witness :
  delayOf (firstOutcome Demo.warm3') < MGET_DEADLINE_MS
  /\ answered (firstOutcome Demo.warm3') = true
  /\ coldKeys (signedUrlCache Demo.warm3') 1000
       (fun k => redis_read (redis Demo.warm3') 1000 (redisKey k)) (1000 + 0) Demo.refs5
     = ["k4.jpg"; "k5.jpg"]
  /\ exists rs w' new,
       resolveBatch Demo.bucket Demo.signer Demo.signingTime Demo.refs5 Demo.warm3' = (Ok rs, w')
       /\ length rs = length Demo.refs5
       /\ trace w' = trace Demo.warm3' ++ new
       /\ signerCalls new = map (signCall Demo.bucket Demo.signer (1000 + 0)) ["k4.jpg"; "k5.jpg"]
       /\ (NoDup ["k4.jpg"; "k5.jpg"] ->
           forall k, length (signerCallsOf k new)
                     = if bool_decide (k ∈ ["k4.jpg"; "k5.jpg"]) then 1%nat else 0%nat).
Proof.
  assert (H1 : delayOf (firstOutcome Demo.warm3') < MGET_DEADLINE_MS) by reflexivity.
  assert (H2 : answered (firstOutcome Demo.warm3') = true) by reflexivity.
  assert (H3 : coldKeys (signedUrlCache Demo.warm3') 1000
                 (fun k => redis_read (redis Demo.warm3') 1000 (redisKey k)) (1000 + 0) Demo.refs5
               = ["k4.jpg"; "k5.jpg"]) by (vm_compute; reflexivity).
  split; [exact H1|]. split; [exact H2|]. split; [exact H3|].
  rewrite <- H3.
  apply (batch_signs_each_cold_position_once Demo.bucket Demo.signer Demo.signingTime Demo.refs5 Demo.warm3' H1 H2).
  change (now Demo.warm3' + delayOf (firstOutcome Demo.warm3')) with (1000 + 0).
  change (now Demo.warm3') with 1000. rewrite H3.
  repeat constructor; apply demo_signer_answers; discriminate.
Defined.

Lemma batch_agrees_witness :
  delayOf (firstOutcome Demo.warm3') < MGET_DEADLINE_MS
  /\ (forall u, u ∈ Demo.refs5 ->
        exists v w', resolve Demo.bucket Demo.signer Demo.signingTime u Demo.warm3' = (Ok v, w'))
  /\ exists rs w',
       resolveBatch Demo.bucket Demo.signer Demo.signingTime Demo.refs5 Demo.warm3' = (Ok rs, w')
       /\ length rs = length Demo.refs5
       /\ (forall i u, Demo.refs5 !! i = Some u ->
             exists v w'', rs !! i = Some v
                           /\ resolve Demo.bucket Demo.signer Demo.signingTime u Demo.warm3' = (Ok v, w''))
       /\ (forall i u, Demo.refs5 !! i = Some u -> parseR2Url u = None -> rs !! i = Some u).
Proof.
  assert (H1 : delayOf (firstOutcome Demo.warm3') < MGET_DEADLINE_MS) by reflexivity.
  assert (H2 : forall u, u ∈ Demo.refs5 ->
                 exists v w', resolve Demo.bucket Demo.signer Demo.signingTime u Demo.warm3' = (Ok v, w')).
  { intros u Hu. apply run_yields. unfold Demo.refs5 in Hu.
    repeat (apply elem_of_cons in Hu as [->|Hu]; [vm_compute; exact I|]).
    apply elem_of_nil in Hu. contradiction. }
  split; [exact H1|]. split; [exact H2|].
  exact (batch_agrees_with_single Demo.bucket Demo.signer Demo.signingTime Demo.refs5 Demo.warm3' H1 H2).
Defined.

(** C2, against the claim as stated: an entry past its window without a
    signer call in its place.  In [Demo.staleLocal] the entry of the
    local tier is past its window, and [resolve] hands out the entry of
    the distributed tier without calling the signer; in [Demo.lapsing]
    the entries of both tiers are past their window, and when the read of
    the distributed tier rejects, [resolve] and [resolveBatch] throw
    without calling the signer. *)
Lemma stale_entry_without_signer_call :
  (signedUrlCache Demo.staleLocal !! "a.jpg"
     = Some (Demo.entry "https://r2.example/a.jpg?local" 301000)
   /\ 301000 <= now Demo.staleLocal + SAFETY_BUFFER_MS
   /\ (resolve Demo.bucket Demo.signer Demo.signingTime "r2://snatch/a.jpg" Demo.staleLocal).1
      = Ok "https://r2.example/a.jpg?shared"
   /\ signerCalls (trace (resolve Demo.bucket Demo.signer Demo.signingTime
                            "r2://snatch/a.jpg" Demo.staleLocal).2) = [])
  /\ (signedUrlCache Demo.lapsing !! "a.jpg"
        = Some (Demo.entry "https://r2.example/a.jpg?local" 301000)
      /\ 301000 <= now Demo.lapsing + SAFETY_BUFFER_MS
      /\ (resolve Demo.bucket Demo.signer Demo.signingTime "r2://snatch/a.jpg"
            (set_net [Rejects 20] Demo.lapsing)).1 = Throw RedisError
      /\ signerCalls (trace (resolve Demo.bucket Demo.signer Demo.signingTime
                               "r2://snatch/a.jpg" (set_net [Rejects 20] Demo.lapsing)).2) = []
      /\ (resolveBatch Demo.bucket Demo.signer Demo.signingTime ["r2://snatch/a.jpg"]
            (set_net [Rejects 20; Rejects 20] Demo.lapsing)).1 = Throw RedisError
      /\ signerCalls (trace (resolveBatch Demo.bucket Demo.signer Demo.signingTime
                               ["r2://snatch/a.jpg"]
                               (set_net [Rejects 20; Rejects 20] Demo.lapsing)).2) = []).
Proof.
  split; [split; [|split; [|split]]|split; [|split; [|split; [|split; [|split]]]]];
    vm_compute; try reflexivity; discriminate.
Qed.

Lemma lapsing_local_stale : localStale Demo.lapsing "a.jpg".
Proof.
  intros e H. vm_compute in H. injection H as <-. vm_compute. discriminate.
Defined.

Lemma lapsing_distributed_stale : distributedStale Demo.lapsing "a.jpg" (now Demo.lapsing + Z.of_N 20).
Proof.
  intros e H. vm_compute in H. injection H as <-. vm_compute. discriminate.
Defined.

(** The world after the resolution of [a.jpg] in [Demo.lapsing], and
    after the batch of the five references in [Demo.warm3]. *)
Definition afterLapse : World :=
  (resolve Demo.bucket Demo.signer Demo.signingTime "r2://snatch/a.jpg" Demo.lapsing).2.

Definition afterBatch : World :=
  (resolveBatch Demo.bucket Demo.signer Demo.signingTime Demo.refs5 (Demo.warm3 [Answers 30])).2.

Definition batchUrls : list string :=
  ["https://r2.example/k1.jpg?cached"; "https://r2.example/k2.jpg?cached";
   "https://r2.example/k3.jpg?cached";
   "https://r2.example/k4.jpg?X-Amz-Date=1030&X-Amz-Expires=3600";
   "https://r2.example/k5.jpg?X-Amz-Date=1030&X-Amz-Expires=3600"].

Lemma stale_entries_witness :
  (resolve Demo.bucket Demo.signer Demo.signingTime "r2://snatch/a.jpg" Demo.lapsing
     = (Ok "https://r2.example/a.jpg?X-Amz-Date=1020&X-Amz-Expires=3600", afterLapse)
   /\ exists new,
        trace afterLapse = trace Demo.lapsing ++ new
        /\ ((exists e, signedUrlCache Demo.lapsing !! "a.jpg" = Some e
                       /\ now Demo.lapsing + SAFETY_BUFFER_MS < expiresAt e
                       /\ "https://r2.example/a.jpg?X-Amz-Date=1020&X-Amz-Expires=3600" = url e
                       /\ signerCalls new = [])
            \/ (exists ms e, firstOutcome Demo.lapsing = Answers ms
                  /\ redis_read (redis Demo.lapsing) (now Demo.lapsing) (redisKey "a.jpg")
                     = Some (RObject e)
                  /\ now Demo.lapsing + Z.of_N ms + SAFETY_BUFFER_MS < expiresAt e
                  /\ "https://r2.example/a.jpg?X-Amz-Date=1020&X-Amz-Expires=3600" = url e
                  /\ signerCalls new = [])
            \/ (exists ms, firstOutcome Demo.lapsing = Answers ms
                  /\ signedUrlOf Demo.bucket Demo.signer "a.jpg" (now Demo.lapsing + Z.of_N ms)
                     = Ok "https://r2.example/a.jpg?X-Amz-Date=1020&X-Amz-Expires=3600"
                  /\ signerCalls new
                     = [signCall Demo.bucket Demo.signer (now Demo.lapsing + Z.of_N ms) "a.jpg"])))
  /\ (batch_body Demo.bucket Demo.signer Demo.signingTime Demo.refs5 (Demo.warm3 [Answers 30])
        = (Ok batchUrls, afterBatch)
      /\ Demo.refs5 !! 0%nat = Some "r2://snatch/k1.jpg"
      /\ truthy (parseR2Url "r2://snatch/k1.jpg") = Some "k1.jpg"
      /\ ((exists e, signedUrlCache (Demo.warm3 [Answers 30]) !! "k1.jpg" = Some e
                     /\ now (Demo.warm3 [Answers 30]) + SAFETY_BUFFER_MS < expiresAt e
                     /\ batchUrls !! 0%nat = Some (url e))
          \/ (exists e, delayOf (firstOutcome (Demo.warm3 [Answers 30])) < MGET_DEADLINE_MS
                /\ redis_read (redis (Demo.warm3 [Answers 30])) (now (Demo.warm3 [Answers 30]))
                      (redisKey "k1.jpg") = Some (RObject e)
                /\ lookupInstant (Demo.warm3 [Answers 30]) + SAFETY_BUFFER_MS < expiresAt e
                /\ batchUrls !! 0%nat = Some (url e))
          \/ (exists v, signedUrlOf Demo.bucket Demo.signer "k1.jpg"
                          (lookupInstant (Demo.warm3 [Answers 30])) = Ok v
                        /\ batchUrls !! 0%nat = Some v)))
  /\ (resolveBatch Demo.bucket Demo.signer Demo.signingTime Demo.refs5 (Demo.warm3 [Answers 30])
        = (Ok batchUrls, afterBatch)
      /\ exists new,
           trace afterBatch = trace (Demo.warm3 [Answers 30]) ++ new
           /\ Forall servedFresh new
           /\ Forall2 (answeredIn Demo.bucket new) Demo.refs5 batchUrls)
  /\ (localStale Demo.lapsing "a.jpg"
      /\ firstOutcome Demo.lapsing = Answers 20
      /\ distributedStale Demo.lapsing "a.jpg" (now Demo.lapsing + Z.of_N 20)
      /\ exists new,
           trace (resolve Demo.bucket Demo.signer Demo.signingTime "r2://snatch/a.jpg"
                    Demo.lapsing).2
           = trace Demo.lapsing ++ new
           /\ signerCalls new
              = [signCall Demo.bucket Demo.signer (now Demo.lapsing + Z.of_N 20) "a.jpg"]
           /\ forall u w',
                resolve Demo.bucket Demo.signer Demo.signingTime "r2://snatch/a.jpg"
                  Demo.lapsing = (Ok u, w') ->
                signedUrlOf Demo.bucket Demo.signer "a.jpg" (now Demo.lapsing + Z.of_N 20) = Ok u)
  /\ (["r2://snatch/b.jpg"; "r2://snatch/a.jpg"] !! 1%nat = Some "r2://snatch/a.jpg"
      /\ truthy (parseR2Url "r2://snatch/a.jpg") = Some "a.jpg"
      /\ answered (firstOutcome Demo.lapsing) = true
      /\ lookupInstant Demo.lapsing = 1020
      /\ localStale Demo.lapsing "a.jpg"
      /\ distributedStale Demo.lapsing "a.jpg" (lookupInstant Demo.lapsing)
      /\ exists new,
           trace (resolveBatch Demo.bucket Demo.signer Demo.signingTime
                    ["r2://snatch/b.jpg"; "r2://snatch/a.jpg"] Demo.lapsing).2
           = trace Demo.lapsing ++ new
           /\ signCall Demo.bucket Demo.signer (lookupInstant Demo.lapsing) "a.jpg"
              ∈ signerCalls new).
Proof.
  pose proof (stale_entries_are_never_served Demo.bucket Demo.signer Demo.signingTime)
    as (Hone & Hblock & Hbatch & _ & _ & Hkey & Hsigns).
  assert (H1 : resolve Demo.bucket Demo.signer Demo.signingTime "r2://snatch/a.jpg"
                 Demo.lapsing
               = (Ok "https://r2.example/a.jpg?X-Amz-Date=1020&X-Amz-Expires=3600", afterLapse))
    by (vm_compute; reflexivity).
  assert (H2 : resolveBatch Demo.bucket Demo.signer Demo.signingTime Demo.refs5
                 (Demo.warm3 [Answers 30]) = (Ok batchUrls, afterBatch))
    by (vm_compute; reflexivity).
  assert (H3 : batch_body Demo.bucket Demo.signer Demo.signingTime Demo.refs5
                 (Demo.warm3 [Answers 30]) = (Ok batchUrls, afterBatch))
    by (vm_compute; reflexivity).
  split; [|split; [|split; [|split]]].
  - split; [exact H1|]. exact (Hone "r2://snatch/a.jpg" "a.jpg" Demo.lapsing _ _ eq_refl H1).
  - split; [exact H3|]. split; [reflexivity|]. split; [reflexivity|].
    exact (proj2 (Hblock Demo.refs5 (Demo.warm3 [Answers 30]) batchUrls afterBatch 0%nat
                    "r2://snatch/k1.jpg" "k1.jpg" H3 eq_refl eq_refl)).
  - split; [exact H2|]. exact (Hbatch _ _ _ _ H2).
  - split; [exact lapsing_local_stale|]. split; [reflexivity|].
    split; [exact lapsing_distributed_stale|].
    exact (Hkey "r2://snatch/a.jpg" "a.jpg" Demo.lapsing 20%N eq_refl
             lapsing_local_stale eq_refl lapsing_distributed_stale).
  - split; [reflexivity|]. split; [reflexivity|]. split; [reflexivity|].
    split; [reflexivity|]. split; [exact lapsing_local_stale|].
    split; [exact lapsing_distributed_stale|].
    apply (Hsigns ["r2://snatch/b.jpg"; "r2://snatch/a.jpg"] Demo.lapsing 1%nat
             "r2://snatch/a.jpg" "a.jpg").
    + intros _. reflexivity.
    + reflexivity.
    + reflexivity.
    + exact lapsing_local_stale.
    + exact lapsing_distributed_stale.
Defined.

(** The world after a first resolution of [r2://snatch/a.jpg] from cold
    tiers at clock reading 1000, the signer taking 40 ms. *)
Definition signedAt1000 : World :=
  (resolve Demo.bucket Demo.signer Demo.signingTime "r2://snatch/a.jpg" (Demo.cold 1000)).2.

Definition aUrl : string := "https://r2.example/a.jpg?X-Amz-Date=1000&X-Amz-Expires=3600".

(** C10, against the claim as stated.  The URL of [a.jpg] is signed at
    1000 for 3600 s; the entry made of it records 3001040, which is not
    the signing time plus 50 minutes, the clock having been read 40 ms
    later, when the signer's promise had settled.  A resolution at
    2701039 finds the entry inside its window and returns the URL with
    less than 15 minutes of validity left.  And a batch that finds the
    entry inside its window at 2700000 returns 2039 ms later, after its
    bulk read and the signing of the other key, with less than 15
    minutes left as well. *)
Lemma returned_with_less_than_15_minutes :
  resolve Demo.bucket Demo.signer Demo.signingTime "r2://snatch/a.jpg" (Demo.cold 1000)
    = (Ok aUrl, signedAt1000)
  /\ signerCalls (trace signedAt1000)
     = [Sign (objectCommand Demo.bucket "a.jpg") SIGNED_URL_EXPIRY 1000 (Ok aUrl)]
  /\ signedUrlCache signedAt1000 !! "a.jpg" = Some (Demo.entry aUrl 3001040)
  /\ redis signedAt1000 !! redisKey "a.jpg" = Some (RObject (Demo.entry aUrl 3001040), 3301040)
  /\ 3001040 <> 1000 + SIGNED_URL_CACHE_DURATION
  /\ (let w := set_now 2701039 signedAt1000 in
      resolve Demo.bucket Demo.signer Demo.signingTime "r2://snatch/a.jpg" w
        = (Ok aUrl,
           set_trace (trace w ++ [CacheGet "a.jpg";
                                  Serve LocalTier "a.jpg" (Demo.entry aUrl 3001040) 2701039]) w)
      /\ validityLeft 1000 2701039 < 15 * 60 * 1000)
  /\ (let w := set_net [Answers 1999] (set_now 2700000 signedAt1000) in
      let run := resolveBatch Demo.bucket Demo.signer Demo.signingTime
                   ["r2://snatch/a.jpg"; "r2://snatch/b.jpg"] w in
      run.1 = Ok [aUrl; "https://r2.example/b.jpg?X-Amz-Date=2701999&X-Amz-Expires=3600"]
      /\ trace run.2 !! 6%nat
         = Some (Serve LocalTier "a.jpg" (Demo.entry aUrl 3001040) 2700000)
      /\ now run.2 = 2702039
      /\ validityLeft 1000 (now run.2) < 15 * 60 * 1000).
Proof.
  repeat split; vm_compute; try reflexivity; discriminate.
Qed.

Lemma cold_tiers_backed : tiersBacked Demo.signingTime (Demo.cold 1000).
Proof.
  split.
  - intros k e H. cbn in H. rewrite lookup_empty in H. discriminate H.
  - intros k e d H. cbn in H. rewrite lookup_empty in H. discriminate H.
Defined.

(** The same world 45 minutes later, the entry still inside its window. *)
Definition later : World := set_now 2701000 signedAt1000.

(** The world after the batch of the five references in [Demo.warm3']. *)
Definition afterBatch' : World :=
  (batch_body Demo.bucket Demo.signer Demo.signingTime Demo.refs5 Demo.warm3').2.

Lemma margin_witness :
  (exists ts,
     signerCalls (trace signedAt1000)
       = [Sign (objectCommand Demo.bucket "a.jpg") SIGNED_URL_EXPIRY ts (Ok aUrl)]
     /\ now (Demo.cold 1000) <= ts
     /\ let e := {| url := aUrl;
                    expiresAt := ts + signingTimeOf Demo.bucket Demo.signingTime "a.jpg" ts
                                 + SIGNED_URL_CACHE_DURATION |} in
        signedUrlCache signedAt1000 !! "a.jpg" = Some e
        /\ redis signedAt1000 !! redisKey "a.jpg"
           = Some (RObject e, ts + signingTimeOf Demo.bucket Demo.signingTime "a.jpg" ts
                              + (SIGNED_URL_EXPIRY - 300) * 1000))
  /\ (exists v,
        resolveBatch Demo.bucket Demo.signer Demo.signingTime Demo.refs5 Demo.warm3'
          = (Ok ["https://r2.example/k1.jpg?cached"; "https://r2.example/k2.jpg?cached";
                 "https://r2.example/k3.jpg?cached";
                 "https://r2.example/k4.jpg?X-Amz-Date=1000&X-Amz-Expires=3600";
                 "https://r2.example/k5.jpg?X-Amz-Date=1000&X-Amz-Expires=3600"], afterBatch')
        /\ Sign (objectCommand Demo.bucket "k4.jpg") SIGNED_URL_EXPIRY
                (lookupInstant Demo.warm3') (Ok v) ∈ trace afterBatch'
        /\ ["https://r2.example/k1.jpg?cached"; "https://r2.example/k2.jpg?cached";
            "https://r2.example/k3.jpg?cached";
            "https://r2.example/k4.jpg?X-Amz-Date=1000&X-Amz-Expires=3600";
            "https://r2.example/k5.jpg?X-Amz-Date=1000&X-Amz-Expires=3600"] !! 3%nat = Some v
        /\ signedUrlCache afterBatch' !! "k4.jpg"
           = Some {| url := v;
                     expiresAt := lookupInstant Demo.warm3' + SIGNED_URL_CACHE_DURATION |})
  /\ (tiersBacked Demo.signingTime (Demo.cold 1000)
      /\ tiersBacked Demo.signingTime later
      /\ resolve Demo.bucket Demo.signer Demo.signingTime "r2://snatch/a.jpg" later
         = (Ok aUrl,
            set_trace (trace later
                       ++ [CacheGet "a.jpg";
                           Serve LocalTier "a.jpg" (Demo.entry aUrl 3001040) 2701000]) later)
      /\ tiersBacked Demo.signingTime
           (resolve Demo.bucket Demo.signer Demo.signingTime "r2://snatch/a.jpg" later).2
      /\ exists new,
           trace (resolve Demo.bucket Demo.signer Demo.signingTime "r2://snatch/a.jpg" later).2
           = trace later ++ new
           /\ Forall (servedWithMargin Demo.signingTime
                        (trace (resolve Demo.bucket Demo.signer Demo.signingTime
                                  "r2://snatch/a.jpg" later).2)) new
           /\ forall u,
                (resolve Demo.bucket Demo.signer Demo.signingTime "r2://snatch/a.jpg" later).1
                  = Ok u ->
                answeredIn Demo.bucket new "r2://snatch/a.jpg" u)
  /\ (tiersBacked Demo.signingTime
        (resolveBatch Demo.bucket Demo.signer Demo.signingTime
           ["r2://snatch/a.jpg"; "r2://snatch/b.jpg"] later).2
      /\ exists new,
           trace (resolveBatch Demo.bucket Demo.signer Demo.signingTime
                    ["r2://snatch/a.jpg"; "r2://snatch/b.jpg"] later).2
           = trace later ++ new
           /\ Forall (servedWithMargin Demo.signingTime
                        (trace (resolveBatch Demo.bucket Demo.signer Demo.signingTime
                                  ["r2://snatch/a.jpg"; "r2://snatch/b.jpg"] later).2)) new
           /\ forall rs,
                (resolveBatch Demo.bucket Demo.signer Demo.signingTime
                   ["r2://snatch/a.jpg"; "r2://snatch/b.jpg"] later).1 = Ok rs ->
                Forall2 (answeredIn Demo.bucket new)
                        ["r2://snatch/a.jpg"; "r2://snatch/b.jpg"] rs)
  /\ (exists cmd ts,
        Sign cmd SIGNED_URL_EXPIRY ts (Ok aUrl) ∈ trace later
        /\ validityLeft ts (now later)
             > 15 * 60 * 1000 - Z.of_N (Demo.signingTime cmd SIGNED_URL_EXPIRY ts)).
Proof.
  pose proof (cached_urls_keep_a_margin Demo.bucket Demo.signer Demo.signingTime)
    as (_ & Hentry & Hbatch & Hone & Hall & Hreturned).
  pose proof (proj1 (Hone "r2://snatch/a.jpg" (Demo.cold 1000) cold_tiers_backed)) as Hsigned.
  assert (Hlater : tiersBacked Demo.signingTime later) by exact Hsigned.
  split; [|split; [|split; [|split]]].
  - apply (Hentry "a.jpg" (Demo.cold 1000) aUrl signedAt1000 (trace signedAt1000)).
    + vm_compute. reflexivity.
    + reflexivity.
    + vm_compute. discriminate.
  - apply (Hbatch Demo.refs5 Demo.warm3' _ afterBatch' 3%nat "r2://snatch/k4.jpg" "k4.jpg").
    + vm_compute. reflexivity.
    + reflexivity.
    + reflexivity.
    + reflexivity.
    + vm_compute. reflexivity.
  - split; [exact cold_tiers_backed|]. split; [exact Hlater|].
    split; [vm_compute; reflexivity|]. exact (Hone "r2://snatch/a.jpg" later Hlater).
  - exact (Hall ["r2://snatch/a.jpg"; "r2://snatch/b.jpg"] later Hlater).
  - apply (Hreturned "a.jpg" later aUrl
             (resolve Demo.bucket Demo.signer Demo.signingTime "r2://snatch/a.jpg" later).2
             [CacheGet "a.jpg"; Serve LocalTier "a.jpg" (Demo.entry aUrl 3001040) 2701000]).
    + exact Hlater.
    + vm_compute. reflexivity.
    + vm_compute. reflexivity.
    + reflexivity.
Defined.

(** * The rest of the module on concrete inputs *)

Module DemoStore.

(** A stand-in for sharp: it rejects an empty buffer and hands any other
    one back. *)
Definition sharp (b : Buffer) : Buffer + string :=
  match b with
  | [] => inr "Input Buffer is empty"
  | _ => inl b
  end.

Definition jpeg : Buffer := [Byte.xff; Byte.xd8; Byte.xff].

(** An empty bucket over the cold world, with a script for [send]. *)
Definition empty (n : list SendOutcome) : Storage :=
  {| world := Demo.cold 0; objects := ∅; r2net := n; sent := [] |}.

(** The bucket after [looks/1.jpg] was uploaded, over the world in which
    [a.jpg] has been resolved once. *)
Definition stocked : Storage :=
  {| world := afterFirst;
     objects := {[ ("snatch", "a.jpg") := {| body := jpeg; contentType := "image/jpeg" |} ]};
     r2net := []; sent := [] |}.

Definition look1 : Look (option string) :=
  {| look_id := "look-1"; look_userId := "user-1"; productUrl := None;
     productName := Some "Generated Look"; productImageUrl := None;
     generatedImageUrl := Some "r2://snatch/a.jpg"; baseImageUrl := None;
     isPublic := true; viewCount := 0; look_createdAt := 0 |}.

Definition db : Database :=
  {| looks := [look1];
     reactions := [{| reaction_id := "r-1"; reaction_userId := "user-2";
                      reaction_lookId := "look-1"; reaction_type := "fire";
                      reaction_createdAt := 5 |}] |}.

Definition card (i : string) (photo : option string) : UserCard (option string) :=
  {| user_id := i; user_name := None; username := Some i; profilePhotoUrl := photo |}.

(** Three followers: one without a photo, one with a photo kept outside
    R2, one with a photo in R2. *)
Definition followers : list (UserCard (option string)) :=
  [card "u1" None; card "u2" (Some "https://lh3.example.com/u2.png");
   card "u3" (Some "r2://snatch/u3.jpg")].

Definition asset (i project type u : string) (t : Z) : Asset :=
  {| asset_id := i; asset_projectId := project; asset_userId := "user-1";
     asset_type := type; asset_url := u; asset_name := None; asset_metadata := None;
     asset_createdAt := t |}.

(** Two projects with a garment each. *)
Definition assets : list Asset :=
  [asset "a1" "p1" "garment" "r2://snatch/studio/p1/shirt.png" 10;
   asset "a2" "p2" "garment" "https://cdn.example.com/hat.png" 20;
   asset "a3" "p1" "model" "r2://snatch/studio/p1/model.png" 30].

End DemoStore.

Lemma allowed_jpeg : "image/jpeg" ∈ ALLOWED_IMAGE_TYPES.
Proof. apply elem_of_cons. left. reflexivity. Defined.

Lemma batch_aligned_witness :
  let refs := ["https://cdn.example.com/logo.png"; "r2://snatch/a.jpg"] in
  let run := resolveBatch Demo.bucket Demo.signer Demo.signingTime refs (Demo.cold 0) in
  run.1 = Ok ["https://cdn.example.com/logo.png";
              "https://r2.example/a.jpg?X-Amz-Date=0&X-Amz-Expires=3600"]
  /\ (length ["https://cdn.example.com/logo.png";
              "https://r2.example/a.jpg?X-Amz-Date=0&X-Amz-Expires=3600"] = length refs
      /\ forall i u, refs !! i = Some u -> truthy (parseR2Url u) = None ->
           ["https://cdn.example.com/logo.png";
            "https://r2.example/a.jpg?X-Amz-Date=0&X-Amz-Expires=3600"] !! i = Some u).
Proof.
  cbv zeta.
  assert (H : resolveBatch Demo.bucket Demo.signer Demo.signingTime
                ["https://cdn.example.com/logo.png"; "r2://snatch/a.jpg"] (Demo.cold 0)
              = (Ok ["https://cdn.example.com/logo.png";
                     "https://r2.example/a.jpg?X-Amz-Date=0&X-Amz-Expires=3600"],
                 (resolveBatch Demo.bucket Demo.signer Demo.signingTime
                    ["https://cdn.example.com/logo.png"; "r2://snatch/a.jpg"] (Demo.cold 0)).2))
    by (vm_compute; reflexivity).
  split; [rewrite H; reflexivity|].
  exact (batch_result_is_aligned Demo.bucket Demo.signer Demo.signingTime _ _ _ _ H).
Defined.

Lemma batch_from_memory_witness :
  let refs := ["r2://snatch/k1.jpg"; "https://cdn.example.com/logo.png"] in
  exists rs new,
    resolveBatch Demo.bucket Demo.signer Demo.signingTime refs Demo.warm3'
    = (Ok rs, set_trace (trace Demo.warm3' ++ new) Demo.warm3')
    /\ Forall2 (fun u v => localValue (signedUrlCache Demo.warm3') (now Demo.warm3') u = Some v)
               refs rs
    /\ Forall (fun ev => localOnly ev = true) new
    /\ signerCalls new = [].
Proof.
  cbv zeta. apply (batch_served_from_memory Demo.bucket Demo.signer Demo.signingTime).
  intros u k Hu Hk.
  apply elem_of_cons in Hu as [->|Hu].
  - injection Hk as <-. eexists. split; [reflexivity|]. vm_compute. reflexivity.
  - apply elem_of_cons in Hu as [->|Hu]; [discriminate Hk|].
    apply elem_of_nil in Hu. contradiction.
Defined.

Lemma refs5_keys u k :
  u ∈ Demo.refs5 -> truthy (parseR2Url u) = Some k -> k <> "missing.jpg".
Proof.
  intros Hu Hk. unfold Demo.refs5 in Hu.
  repeat (apply elem_of_cons in Hu as [->|Hu]; [injection Hk as <-; discriminate|]).
  apply elem_of_nil in Hu. contradiction.
Defined.

Lemma batch_warms_witness :
  exists rs w1,
    resolveBatch Demo.bucket Demo.signer Demo.signingTime Demo.refs5 Demo.warm3' = (Ok rs, w1)
    /\ length rs = length Demo.refs5
    /\ (forall i u k, Demo.refs5 !! i = Some u -> truthy (parseR2Url u) = Some k ->
          exists e, signedUrlCache w1 !! k = Some e /\ rs !! i = Some (url e))
    /\ forall w2,
         signedUrlCache w2 = signedUrlCache w1 ->
         (forall u k e, u ∈ Demo.refs5 -> truthy (parseR2Url u) = Some k ->
            signedUrlCache w1 !! k = Some e -> now w2 + SAFETY_BUFFER_MS < expiresAt e) ->
         (exists new,
            resolveBatch Demo.bucket Demo.signer Demo.signingTime Demo.refs5 w2
            = (Ok rs, set_trace (trace w2 ++ new) w2)
            /\ Forall (fun ev => localOnly ev = true) new)
         /\ (forall i u, Demo.refs5 !! i = Some u ->
               exists v new,
                 rs !! i = Some v
                 /\ resolve Demo.bucket Demo.signer Demo.signingTime u w2
                    = (Ok v, set_trace (trace w2 ++ new) w2)
                 /\ Forall (fun ev => localOnly ev = true) new).
Proof.
  apply (batch_warms_the_local_tier Demo.bucket Demo.signer Demo.signingTime Demo.refs5 Demo.warm3').
  - intros _. reflexivity.
  - intros u k Hu Hk. apply demo_signer_answers. exact (refs5_keys u k Hu Hk).
Defined.

Lemma signed_url_serves_peers_witness :
  let u := "https://r2.example/a.jpg?X-Amz-Date=0&X-Amz-Expires=3600" in
  let e := {| url := u; expiresAt := 0 + Z.of_N 0 + 40 + SIGNED_URL_CACHE_DURATION |} in
  exists w1,
    await (getSignedDownloadUrl Demo.bucket Demo.signer Demo.signingTime "a.jpg") (Demo.cold 0) = (Ok u, w1)
    /\ forall w2 ms2,
         redis w2 = redis w1 ->
         memFresh (signedUrlCache w2 !! "a.jpg") (now w2) = None ->
         hd (Answers 0) (net w2) = Answers ms2 ->
         now w2 + Z.of_N ms2 + SAFETY_BUFFER_MS < 0 + Z.of_N 0 + 40 + SIGNED_URL_CACHE_DURATION ->
         exists w3 new,
           await (getSignedDownloadUrl Demo.bucket Demo.signer Demo.signingTime "a.jpg") w2 = (Ok u, w3)
           /\ trace w3 = trace w2 ++ new
           /\ signerCalls new = []
           /\ Serve DistributedTier "a.jpg" e (now w2 + Z.of_N ms2) ∈ new
           /\ signedUrlCache w3 !! "a.jpg" = Some e.
Proof.
  exact (signed_url_serves_peers Demo.bucket Demo.signer Demo.signingTime "a.jpg" (Demo.cold 0) 0 0
           "https://r2.example/a.jpg?X-Amz-Date=0&X-Amz-Expires=3600"
           eq_refl eq_refl eq_refl eq_refl eq_refl).
Defined.

Lemma retry_after_failed_write_witness :
  let w := Demo.scripted 0 [Answers 10; Rejects 5] in
  let u := "https://r2.example/a.jpg?X-Amz-Date=10&X-Amz-Expires=3600" in
  let e := {| url := u; expiresAt := now w + Z.of_N 10 + 40 + SIGNED_URL_CACHE_DURATION |} in
  exists w1,
    await (getSignedDownloadUrl Demo.bucket Demo.signer Demo.signingTime "a.jpg") w = (Throw RedisError, w1)
    /\ redis w1 = redis w
    /\ signedUrlCache w1 !! "a.jpg" = Some e
    /\ (now w1 + SAFETY_BUFFER_MS < expiresAt e ->
        await (getSignedDownloadUrl Demo.bucket Demo.signer Demo.signingTime "a.jpg") w1
        = (Ok u, set_trace (trace w1 ++ [CacheGet "a.jpg";
                                         Serve LocalTier "a.jpg" e (now w1)]) w1)).
Proof.
  exact (retry_after_failed_write Demo.bucket Demo.signer Demo.signingTime "a.jpg"
           (Demo.scripted 0 [Answers 10; Rejects 5]) 10 5
           "https://r2.example/a.jpg?X-Amz-Date=10&X-Amz-Expires=3600"
           eq_refl eq_refl eq_refl eq_refl eq_refl).
Defined.

Lemma uploaded_url_witness :
  let run := uploadFile Demo.bucket DemoStore.sharp DemoStore.jpeg "looks/1.jpg" "image/jpeg"
               true false (DemoStore.empty [Sent 40]) in
  hasChar "/" Demo.bucket = false
  /\ run.1 = Returned "r2://snatch/looks/1.jpg"
  /\ (exists img, last (sent run.2)
        = Some (PutObject {| PutBucket := Demo.bucket; PutKey := "looks/1.jpg";
                             Body := img.1; ContentType := img.2 |}))
  /\ parseR2Url "r2://snatch/looks/1.jpg" = Some "looks/1.jpg"
  /\ ("looks/1.jpg" <> EmptyString ->
      forall w, resolve Demo.bucket Demo.signer Demo.signingTime "r2://snatch/looks/1.jpg" w
                = await (getSignedDownloadUrl Demo.bucket Demo.signer Demo.signingTime "looks/1.jpg") w)
  /\ ("looks/1.jpg" = EmptyString ->
      forall w, resolve Demo.bucket Demo.signer Demo.signingTime "r2://snatch/looks/1.jpg" w
                = (Ok "r2://snatch/looks/1.jpg", w)).
Proof.
  cbv zeta.
  assert (H : uploadFile Demo.bucket DemoStore.sharp DemoStore.jpeg "looks/1.jpg" "image/jpeg"
                true false (DemoStore.empty [Sent 40])
              = (Returned "r2://snatch/looks/1.jpg",
                 (uploadFile Demo.bucket DemoStore.sharp DemoStore.jpeg "looks/1.jpg"
                    "image/jpeg" true false (DemoStore.empty [Sent 40])).2))
    by (vm_compute; reflexivity).
  split; [reflexivity|]. split; [rewrite H; reflexivity|].
  exact (uploaded_url_leads_to_its_object Demo.bucket Demo.signer Demo.signingTime DemoStore.sharp
           DemoStore.jpeg "looks/1.jpg" "image/jpeg" true false _ _ _ eq_refl H).
Defined.

Lemma refused_upload_witness :
  ("image/svg+xml" ∉ ALLOWED_IMAGE_TYPES)
  /\ uploadFile Demo.bucket DemoStore.sharp DemoStore.jpeg "looks/1.svg" "image/svg+xml"
       false false (DemoStore.empty [])
     = (Thrown (JsError "Invalid image type 'image/svg+xml'. Allowed types: image/jpeg, image/png, image/webp, image/gif"),
        DemoStore.empty [])
  /\ uploadFile Demo.bucket DemoStore.sharp [] "looks/1.jpg" "image/jpeg"
       false false (DemoStore.empty [])
     = (Thrown (JsError invalidImageFile), DemoStore.empty []).
Proof.
  assert (Hno : "image/svg+xml" ∉ ALLOWED_IMAGE_TYPES).
  { intros Hin. unfold ALLOWED_IMAGE_TYPES in Hin.
    repeat (apply elem_of_cons in Hin as [Hin|Hin]; [discriminate Hin|]).
    apply elem_of_nil in Hin. exact Hin. }
  split; [exact Hno|]. split.
  - exact (proj1 (refused_upload_sends_nothing Demo.bucket DemoStore.sharp DemoStore.jpeg
                    "looks/1.svg" "image/svg+xml" false false (DemoStore.empty [])) Hno).
  - exact (proj1 (proj2 (refused_upload_sends_nothing Demo.bucket DemoStore.sharp []
                           "looks/1.jpg" "image/jpeg" false false (DemoStore.empty [])))
             allowed_jpeg eq_refl "Input Buffer is empty" eq_refl).
Defined.

Lemma allowed_png : "image/png" ∈ ALLOWED_IMAGE_TYPES.
Proof. apply elem_of_cons. right. apply elem_of_cons. left. reflexivity. Defined.

Lemma upload_stores_witness :
  let s' := (uploadFile Demo.bucket DemoStore.sharp DemoStore.jpeg "looks/1.png" "image/png"
               false false (DemoStore.empty [Sent 40])).2 in
  ("image/png" ∈ ALLOWED_IMAGE_TYPES)
  /\ hd (Sent 0) (r2net (DemoStore.empty [Sent 40])) = Sent 40
  /\ objects s' !! (Demo.bucket, "looks/1.png")
     = Some {| body := DemoStore.jpeg; contentType := "image/jpeg" |}.
Proof.
  cbv zeta. split; [exact allowed_png|]. split; [reflexivity|].
  exact (proj1 (proj2 (upload_stores_the_image Demo.bucket DemoStore.sharp DemoStore.jpeg
                         "looks/1.png" "image/png" false false (DemoStore.empty [Sent 40]) 40
                         allowed_png eq_refl))
           eq_refl DemoStore.jpeg eq_refl).
Defined.

Lemma background_upload_witness :
  let s := DemoStore.empty [Failed 40 "socket hang up"] in
  let bg := uploadFile Demo.bucket DemoStore.sharp DemoStore.jpeg "looks/1.jpg" "image/jpeg"
              true false s in
  let fg := uploadFile Demo.bucket DemoStore.sharp DemoStore.jpeg "looks/1.jpg" "image/jpeg"
              false false s in
  bg.1 = Returned (r2Url Demo.bucket "looks/1.jpg")
  /\ world bg.2 = world s
  /\ objects bg.2 = objects s
  /\ fg.1 = Thrown (JsError "socket hang up")
  /\ objects fg.2 = objects s
  /\ now (world fg.2) = now (world s) + Z.of_N 40.
Proof.
  exact (background_upload_hides_failure Demo.bucket DemoStore.sharp DemoStore.jpeg
           "looks/1.jpg" "image/jpeg" false (DemoStore.empty [Failed 40 "socket hang up"])
           (DemoStore.jpeg, "image/jpeg") 40 "socket hang up" allowed_jpeg eq_refl eq_refl).
Defined.

Lemma delete_leaves_witness :
  let e := {| url := "https://r2.example/a.jpg?X-Amz-Date=0&X-Amz-Expires=3600";
              expiresAt := 3000040 |} in
  let s' := (deleteFile Demo.bucket "a.jpg" DemoStore.stocked).2 in
  let w' := world s' in
  hasChar "/" Demo.bucket = false
  /\ signedUrlCache (world DemoStore.stocked) !! "a.jpg" = Some e
  /\ signedUrlCache w' = signedUrlCache (world DemoStore.stocked)
  /\ redis w' = redis (world DemoStore.stocked)
  /\ trace w' = trace (world DemoStore.stocked)
  /\ (forall ms, hd (Sent 0) (r2net DemoStore.stocked) = Sent ms ->
      objects s' !! (Demo.bucket, "a.jpg") = None)
  /\ (now w' + SAFETY_BUFFER_MS < expiresAt e ->
      resolve Demo.bucket Demo.signer Demo.signingTime (r2Url Demo.bucket "a.jpg") w'
      = (Ok (url e),
         set_trace (trace w' ++ [CacheGet "a.jpg"; Serve LocalTier "a.jpg" e (now w')]) w')).
Proof.
  cbv zeta.
  assert (He : signedUrlCache (world DemoStore.stocked) !! "a.jpg"
               = Some {| url := "https://r2.example/a.jpg?X-Amz-Date=0&X-Amz-Expires=3600";
                         expiresAt := 3000040 |})
    by (vm_compute; reflexivity).
  split; [reflexivity|]. split; [exact He|].
  apply (delete_leaves_the_cached_url Demo.bucket Demo.signer Demo.signingTime "a.jpg" DemoStore.stocked _
           eq_refl); [discriminate|exact He].
Defined.

Lemma delete_verbatim_witness :
  let o := {| body := DemoStore.jpeg; contentType := "image/jpeg" |} in
  let byKey := deleteFile Demo.bucket "a.jpg" DemoStore.stocked in
  let byUrl := deleteFile Demo.bucket (r2Url Demo.bucket "a.jpg") DemoStore.stocked in
  objects DemoStore.stocked !! (Demo.bucket, "a.jpg") = Some o
  /\ byKey.1 = Returned tt
  /\ objects byKey.2 !! (Demo.bucket, "a.jpg") = None
  /\ byUrl.1 = Returned tt
  /\ sent byUrl.2
     = sent DemoStore.stocked ++ [DeleteObject {| DeleteBucket := Demo.bucket;
                                                  DeleteKey := r2Url Demo.bucket "a.jpg" |}]
  /\ objects byUrl.2 !! (Demo.bucket, "a.jpg") = Some o.
Proof.
  cbv zeta.
  assert (Ho : objects DemoStore.stocked !! (Demo.bucket, "a.jpg")
               = Some {| body := DemoStore.jpeg; contentType := "image/jpeg" |})
    by (vm_compute; reflexivity).
  split; [exact Ho|].
  exact (delete_takes_the_key_verbatim Demo.bucket "a.jpg" Demo.bucket DemoStore.stocked _ 0
           Ho eq_refl).
Defined.

Lemma deleted_look_witness :
  let o := {| body := DemoStore.jpeg; contentType := "image/jpeg" |} in
  exists d' s',
    deleteLook Demo.bucket "look-1" "user-1" DemoStore.db DemoStore.stocked
    = (Returned (Success, d'), s')
    /\ (forall l, l ∈ looks d' -> look_id l <> "look-1")
    /\ (forall r, r ∈ reactions d' -> reaction_lookId r <> "look-1")
    /\ sent s' = sent DemoStore.stocked
                 ++ [DeleteObject {| DeleteBucket := Demo.bucket;
                                     DeleteKey := r2Url Demo.bucket "a.jpg" |}]
    /\ objects s' !! (Demo.bucket, "a.jpg") = Some o
    /\ world s' = world DemoStore.stocked.
Proof.
  cbv zeta.
  assert (Ho : objects DemoStore.stocked !! (Demo.bucket, "a.jpg")
               = Some {| body := DemoStore.jpeg; contentType := "image/jpeg" |})
    by (vm_compute; reflexivity).
  exact (deleted_look_keeps_its_image Demo.bucket "look-1" "user-1" "a.jpg" DemoStore.db
           DemoStore.stocked DemoStore.look1 _ eq_refl eq_refl eq_refl Ho).
Defined.

Lemma followers_witness :
  let run := getFollowers Demo.bucket Demo.signer Demo.signingTime DemoStore.followers (Demo.cold 0) in
  let cards :=
    [with_photo (DemoStore.card "u1" None) JsNull;
     with_photo (DemoStore.card "u2" None) (JsString "https://lh3.example.com/u2.png");
     with_photo (DemoStore.card "u3" None)
       (JsString "https://r2.example/u3.jpg?X-Amz-Date=0&X-Amz-Expires=3600")] in
  run.1 = Ok cards
  /\ exists authUrls,
       resolveBatch Demo.bucket Demo.signer Demo.signingTime (urlsOf profilePhotoUrl DemoStore.followers)
         (Demo.cold 0) = (Ok authUrls, run.2)
       /\ length cards = length DemoStore.followers
       /\ forall i f, DemoStore.followers !! i = Some f ->
            exists card, cards !! i = Some card
              /\ user_id card = user_id f /\ user_name card = user_name f
              /\ username card = username f
              /\ servedFrom (urlsOf profilePhotoUrl DemoStore.followers) authUrls
                   (profilePhotoUrl f) (profilePhotoUrl card).
Proof.
  cbv zeta.
  set (cards := [with_photo (DemoStore.card "u1" None) JsNull; _; _]).
  assert (H : getFollowers Demo.bucket Demo.signer Demo.signingTime DemoStore.followers (Demo.cold 0)
              = (Ok cards,
                 (getFollowers Demo.bucket Demo.signer Demo.signingTime DemoStore.followers (Demo.cold 0)).2))
    by (vm_compute; reflexivity).
  split; [rewrite H; reflexivity|].
  exact (followers_keep_their_own_photo Demo.bucket Demo.signer Demo.signingTime DemoStore.followers
           (Demo.cold 0) _ cards H).
Defined.

Module DemoFeed.

Definition aLook (i : string) (generated base : option string) : Look (option string) :=
  {| look_id := i; look_userId := "u3"; productUrl := None; productName := None;
     productImageUrl := None; generatedImageUrl := generated; baseImageUrl := base;
     isPublic := true; viewCount := 0; look_createdAt := 0 |}.

Definition aRow (i : string) (generated base : option string) : FeedRow (option string) :=
  {| look := aLook i generated base;
     creator := DemoStore.card "u3" (Some "r2://snatch/u3.jpg");
     reactionCount := 2; hasReacted := false |}.

(** Two looks of one creator, the second without a base image. *)
Definition rows : list (FeedRow (option string)) :=
  [aRow "look-1" (Some "r2://snatch/looks/1.jpg") (Some "r2://snatch/users/u3.jpg");
   aRow "look-2" (Some "https://cdn.example.com/2.png") None].

End DemoFeed.

Lemma feed_witness :
  let run := getFeed Demo.bucket Demo.signer Demo.signingTime DemoFeed.rows (Demo.cold 0) in
  let generatedImageUrls :=
    omap (fun f => present (generatedImageUrl (look f))) DemoFeed.rows in
  let creatorPhotoUrls := omap (fun f => present (profilePhotoUrl (creator f))) DemoFeed.rows in
  let baseImageUrls := omap (fun f => present (baseImageUrl (look f))) DemoFeed.rows in
  exists items,
    run = (Ok items, run.2)
    /\ exists authenticatedUrls w1 signedBaseUrls,
      resolveBatch Demo.bucket Demo.signer Demo.signingTime (generatedImageUrls ++ creatorPhotoUrls) (Demo.cold 0)
      = (Ok authenticatedUrls, w1)
      /\ resolveBatch Demo.bucket Demo.signer Demo.signingTime baseImageUrls w1 = (Ok signedBaseUrls, run.2)
      /\ length items = length DemoFeed.rows
      /\ forall i f, DemoFeed.rows !! i = Some f ->
           exists item, items !! i = Some item
             /\ look_id (look item) = look_id (look f)
             /\ user_id (creator item) = user_id (creator f)
             /\ reactionCount item = reactionCount f
             /\ hasReacted item = hasReacted f
             /\ servedFrom (generatedImageUrls ++ creatorPhotoUrls) authenticatedUrls
                  (generatedImageUrl (look f)) (generatedImageUrl (look item))
             /\ servedFrom (generatedImageUrls ++ creatorPhotoUrls) authenticatedUrls
                  (profilePhotoUrl (creator f)) (profilePhotoUrl (creator item))
             /\ servedFrom baseImageUrls signedBaseUrls
                  (baseImageUrl (look f)) (baseImageUrl (look item)).
Proof.
  cbv zeta.
  destruct (getFeed Demo.bucket Demo.signer Demo.signingTime DemoFeed.rows (Demo.cold 0)) as [[items|e] w'] eqn:H;
    [|vm_compute in H; discriminate H].
  exists items. split; [reflexivity|].
  exact (feed_items_keep_their_own_images Demo.bucket Demo.signer Demo.signingTime DemoFeed.rows
           (Demo.cold 0) w' items H).
Defined.

Definition demoHostedKey (url : string) : option string :=
  if Js.startsWith "https://acct.r2.cloudflarestorage.com/" url
  then Some (Js.drop 38 url) else None.

Lemma download_url_witness :
  hasChar "/" Demo.bucket = false
  /\ parseR2Url (r2Url Demo.bucket "studio/p1/out.png") = Some "studio/p1/out.png"
  /\ getDownloadUrl Demo.bucket Demo.signer Demo.signingTime demoHostedKey
       (r2Url Demo.bucket "studio/p1/out.png") (Demo.cold 0)
     = resolveAttachment Demo.bucket Demo.signer Demo.signingTime "studio/p1/out.png" "out.png" (Demo.cold 0)
  /\ getDownloadUrl Demo.bucket Demo.signer Demo.signingTime demoHostedKey
       (r2Url "archive" "studio/p1/out.png") (Demo.cold 0)
     = resolveAttachment Demo.bucket Demo.signer Demo.signingTime (r2Url "archive" "studio/p1/out.png")
         "out.png" (Demo.cold 0)
  /\ (getDownloadUrl Demo.bucket Demo.signer Demo.signingTime demoHostedKey
        "https://acct.r2.cloudflarestorage.com/missing.jpg" (Demo.cold 0)).1
     = Ok "https://acct.r2.cloudflarestorage.com/missing.jpg"
  /\ (resolveAttachment Demo.bucket Demo.signer Demo.signingTime "missing.jpg" "missing.jpg" (Demo.cold 0)).1
     = Throw SignerError.
Proof.
  pose proof (download_url_key Demo.bucket Demo.signer Demo.signingTime demoHostedKey (Demo.cold 0))
    as (Hown & Hother & Hhosted).
  split; [reflexivity|].
  destruct (Hown "studio/p1/out.png" eq_refl) as [Hp Hd].
  split; [exact Hp|]. split; [exact Hd|].
  split; [exact (Hother "archive" "studio/p1/out.png" eq_refl)|].
  exact (Hhosted "https://acct.r2.cloudflarestorage.com/missing.jpg" "missing.jpg"
           SignerError eq_refl eq_refl eq_refl).
Defined.

Lemma assets_by_type_witness :
  let run := getProjectAssets Demo.bucket Demo.signer Demo.signingTime DemoStore.assets "p1" (Some "garment")
               1 20 (Demo.cold 0) in
  exists out,
    run = (Ok out, run.2)
    /\ map (fun o => asset_id (row o)) out = ["a2"; "a1"]
    /\ (forall o, o ∈ out -> row o ∈ DemoStore.assets /\ asset_type (row o) = "garment")
    /\ exists o, o ∈ out
         /\ row o = DemoStore.asset "a2" "p2" "garment" "https://cdn.example.com/hat.png" 20.
Proof.
  cbv zeta.
  destruct (getProjectAssets Demo.bucket Demo.signer Demo.signingTime DemoStore.assets "p1" (Some "garment")
              1 20 (Demo.cold 0)) as [[out|e] w'] eqn:H; [|vm_compute in H; discriminate H].
  exists out. split; [reflexivity|].
  split; [vm_compute in H; injection H as <- _; reflexivity|].
  destruct (proj2 (assets_by_type_come_from_every_project Demo.bucket Demo.signer Demo.signingTime
                     DemoStore.assets "p1" (Some "garment") 1 20 (Demo.cold 0) w' out H)
              "garment" eq_refl) as [Hsound Hcomplete].
  split; [exact Hsound|].
  apply (Hcomplete eq_refl).
  - vm_compute. lia.
  - apply elem_of_cons. right. apply elem_of_cons. left. reflexivity.
  - reflexivity.
Defined.

Lemma assets_url_witness :
  let run := getProjectAssets Demo.bucket Demo.signer Demo.signingTime DemoStore.assets "p1" (Some "garment")
               1 20 (Demo.cold 0) in
  exists out,
    run = (Ok out, run.2)
    /\ map out_url out
       = ["https://cdn.example.com/hat.png";
          "https://r2.example/studio/p1/shirt.png?X-Amz-Date=0&X-Amz-Expires=3600"]
    /\ exists signedUrls,
         resolveBatch Demo.bucket Demo.signer Demo.signingTime
           (List.filter (Js.startsWith "r2://") (map (fun o => asset_url (row o)) out))
           (Demo.cold 0) = (Ok signedUrls, run.2)
         /\ forall o, o ∈ out ->
              out_r2Url o = JsString (asset_url (row o))
              /\ (Js.startsWith "r2://" (asset_url (row o)) = false ->
                  out_url o = asset_url (row o))
              /\ (Js.startsWith "r2://" (asset_url (row o)) = true ->
                  exists j v,
                    List.filter (Js.startsWith "r2://") (map (fun o => asset_url (row o)) out)
                      !! j = Some (asset_url (row o))
                    /\ signedUrls !! j = Some v
                    /\ out_url o = if Js.nonEmpty v then v else asset_url (row o)).
Proof.
  cbv zeta.
  destruct (getProjectAssets Demo.bucket Demo.signer Demo.signingTime DemoStore.assets "p1" (Some "garment")
              1 20 (Demo.cold 0)) as [[out|e] w'] eqn:H; [|vm_compute in H; discriminate H].
  exists out. split; [reflexivity|].
  pose proof (assets_get_their_own_url Demo.bucket Demo.signer Demo.signingTime DemoStore.assets "p1"
                (Some "garment") 1 20 (Demo.cold 0) w' out H) as [_ Hsigned].
  vm_compute in H. injection H as <- <-.
  split; [reflexivity|]. apply Hsigned. discriminate.
Defined.

Lemma all_or_nothing_witness :
  let refs := ["r2://snatch/a.jpg"; "r2://snatch/missing.jpg"; "https://cdn.example.com/x.png"] in
  "r2://snatch/missing.jpg" ∈ refs
  /\ truthy (parseR2Url "r2://snatch/missing.jpg") = Some "missing.jpg"
  /\ (forall t, exists e,
        Demo.signer (objectCommand Demo.bucket "missing.jpg") SIGNED_URL_EXPIRY t = Throw e)
  /\ exists e, (resolveBatch Demo.bucket Demo.signer Demo.signingTime refs (Demo.cold 0)).1 = Throw e.
Proof.
  cbv zeta.
  assert (Hin : "r2://snatch/missing.jpg"
                ∈ ["r2://snatch/a.jpg"; "r2://snatch/missing.jpg";
                   "https://cdn.example.com/x.png"])
    by (apply elem_of_cons; right; apply elem_of_cons; left; reflexivity).
  assert (Hsig : forall t, exists e,
            Demo.signer (objectCommand Demo.bucket "missing.jpg") SIGNED_URL_EXPIRY t = Throw e)
    by (intros t; exists SignerError; reflexivity).
  split; [exact Hin|]. split; [reflexivity|]. split; [exact Hsig|].
  exact (batch_is_all_or_nothing Demo.bucket Demo.signer Demo.signingTime _ "r2://snatch/missing.jpg"
           "missing.jpg" (Demo.cold 0) Hin eq_refl Hsig eq_refl eq_refl).
Defined.

Lemma reference_bucket_witness :
  hasChar "/" "archive" = false
  /\ parseR2Url (r2Url "archive" "users/u3.jpg") = Some "users/u3.jpg"
  /\ resolve Demo.bucket Demo.signer Demo.signingTime (r2Url "archive" "users/u3.jpg") (Demo.cold 0)
     = await (getSignedDownloadUrl Demo.bucket Demo.signer Demo.signingTime "users/u3.jpg") (Demo.cold 0)
  /\ resolve Demo.bucket Demo.signer Demo.signingTime "r2://archive/" (Demo.cold 0)
     = (Ok "r2://archive/", Demo.cold 0)
  /\ resolve Demo.bucket Demo.signer Demo.signingTime "r2://archive" (Demo.cold 0)
     = (Ok "r2://archive", Demo.cold 0).
Proof.
  pose proof (reference_bucket_is_not_looked_at Demo.bucket Demo.signer Demo.signingTime "archive"
                "users/u3.jpg" (Demo.cold 0) eq_refl) as (Hp & Hkey & Hslash & Hbare).
  split; [reflexivity|]. split; [exact Hp|]. split; [apply Hkey; discriminate|].
  split; [exact Hslash|exact Hbare].
Defined.

Lemma legacy_url_witness :
  let url := "https://f000.backblazeb2.com/file/snatch/users/u3.jpg" in
  Js.startsWith "r2://" url = false
  /\ includes "/file/" ("https://f000.backblazeb2.com" +:+ "/file") = false
  /\ parseR2Url url = Some "users/u3.jpg"
  /\ exists pre bucket,
       url = pre +:+ "/file/" +:+ bucket +:+ "/" +:+ "users/u3.jpg"
       /\ bucket <> EmptyString /\ hasChar "/" bucket = false
       /\ "users/u3.jpg" <> EmptyString /\ Js.noLineTerminator "users/u3.jpg" = true.
Proof.
  cbv zeta.
  pose proof (legacy_url_key "https://f000.backblazeb2.com/file/snatch/users/u3.jpg" eq_refl)
    as [Hsound Hexact].
  assert (Hp : parseR2Url "https://f000.backblazeb2.com/file/snatch/users/u3.jpg"
               = Some "users/u3.jpg").
  { apply (Hexact "https://f000.backblazeb2.com" "snatch" "users/u3.jpg");
      [reflexivity|reflexivity|discriminate|reflexivity|discriminate|reflexivity]. }
  split; [reflexivity|]. split; [reflexivity|]. split; [exact Hp|].
  exact (Hsound "users/u3.jpg" Hp).
Defined.

Module DemoBoard.

Definition leader (i : string) (photo : option string) (streak : Z) : Leader (option string) :=
  {| leader_id := i; leader_name := None; leader_username := Some i;
     leader_profilePhotoUrl := photo; streakCurrent := streak |}.

Definition rows : list (Leader (option string)) :=
  [leader "u3" (Some "r2://snatch/u3.jpg") 12; leader "u1" None 7].

(** The batch of the leaderboard, started 20 ms after the call. *)
Definition started : World :=
  set_now (0 + Z.of_N 20) (set_net (tl [Answers 20]) (Demo.scripted 0 [Answers 20])).

Definition batch : Result (list string) * World :=
  resolveBatch Demo.bucket Demo.signer Demo.signingTime (urlsOf leader_profilePhotoUrl rows) started.

End DemoBoard.

Lemma leaderboard_witness :
  let w := Demo.scripted 0 [Answers 20] in
  let authUrls := ["https://r2.example/u3.jpg?X-Amz-Date=20&X-Amz-Expires=3600"] in
  let result :=
    signRows leader_profilePhotoUrl with_leader_photo DemoBoard.rows authUrls 0 in
  let slot := Some (result, now DemoBoard.batch.2 + LEADERBOARD_TTL * 1000) in
  DemoBoard.batch = (Ok authUrls, DemoBoard.batch.2)
  /\ (getLeaderboard Demo.bucket Demo.signer Demo.signingTime DemoBoard.rows None w).1 = Ok (result, slot)
  /\ forall rows (w4 : World) (ms4 : N),
       hd (Answers 0) (net w4) = Answers ms4 ->
       now w4 < now DemoBoard.batch.2 + 3600000 ->
       getLeaderboard Demo.bucket Demo.signer Demo.signingTime rows slot w4
       = (Ok (result, slot), set_now (now w4 + Z.of_N ms4) (set_net (tl (net w4)) w4)).
Proof.
  cbv zeta.
  assert (H : DemoBoard.batch
              = (Ok ["https://r2.example/u3.jpg?X-Amz-Date=20&X-Amz-Expires=3600"],
                 DemoBoard.batch.2)) by (vm_compute; reflexivity).
  split; [exact H|].
  exact (leaderboard_is_served_for_an_hour Demo.bucket Demo.signer Demo.signingTime DemoBoard.rows
           (Demo.scripted 0 [Answers 20]) 20 0 _ DemoBoard.batch.2 eq_refl H eq_refl).
Defined.
